(** * utils_censo: treatment of censored values in census tables

    Shallow embedding of [notebooks/utils_censo.py] and the properties its
    specification states about it.

    The Python module works on pandas data frames.  The embedding keeps

    - a number as an exact rational or the missing-value marker [NaN]:
      infinities are left out, and arithmetic is exact, so that [round1]
      is the decimal rounding, to the even neighbour on a tie, that
      [round(x, 1)] stands for; the code rounds the float64 value, which
      can differ from the exact one in the last bit, and so by one tenth
      when the exact value is a tie;
    - a column as one of three kinds: a numeric column of dtype float64,
      a boolean column, or an object column (text, or a number or
      boolean boxed as a Python object).  A column of dtype int64 is not
      a column of the embedding: it agrees with the float64 column of
      the same values as long as what is written into it is a whole
      number, and pandas from version 3 on refuses any other write
      ([.loc] raises TypeError), pandas 2 widens the column.  Where a
      property says that a call returns, its numeric columns are
      float64; [-6] in a column below is the float [-6.0];
    - a table as the ordered list of its named columns, looked up by
      name.  With a repeated name [t[c]] is a frame, not a column, and
      the code fails where it tests [.any()] on it; the properties that
      rest on a lookup by name say that the names are distinct;
    - the data frames themselves as objects in a store, addressed by
      reference: [df.copy()] allocates, [resultado[c] = ...] updates the
      referenced object in place, and every assignment and every [print]
      is recorded in a log;
    - exceptions as the [Raise] outcome of a computation. *)

From Stdlib Require Import QArith Qcanon Qround Lqa Sorted.
From stdpp Require Import base numbers list strings.

(** ** Numbers and cells *)

Inductive num : Type :=
  | Fin (q : Qc)
  | NaN.

Inductive obj : Type :=
  | OStr (s : string)
  | ONum (x : num)
  | OBool (b : bool).

(** A numeric column is a float64 column: it holds any number and the
    missing-value marker. *)
Inductive column : Type :=
  | NumCol (xs : list num)
  | BoolCol (bs : list bool)
  | ObjCol (os : list obj).

#[global] Instance num_eq_dec : EqDecision num.
Proof. solve_decision. Defined.
#[global] Instance obj_eq_dec : EqDecision obj.
Proof. solve_decision. Defined.
#[global] Instance column_eq_dec : EqDecision column.
Proof. solve_decision. Defined.

Definition entero (z : Z) : Qc := Qc_of_Z z.

(** The two codes of the census: -6 "no aplica", -8 "confidencial". *)
Definition menos_6 : Qc := entero (-6).
Definition menos_8 : Qc := entero (-8).

Definition Qc_of_bool (b : bool) : Qc := if b then 1%Qc else 0%Qc.

(** [x == k] on one cell; a comparison with NaN is False. *)
Definition num_eq (k : Qc) (x : num) : bool :=
  match x with
  | Fin q => bool_decide (q = k)
  | NaN => false
  end.

Definition obj_eq (k : Qc) (o : obj) : bool :=
  match o with
  | OStr _ => false
  | ONum x => num_eq k x
  | OBool b => bool_decide (Qc_of_bool b = k)
  end.

(** [x >= 0] on one cell. *)
Definition num_ge0 (x : num) : bool :=
  match x with
  | Fin q => bool_decide (0 ≤ q)%Qc
  | NaN => false
  end.

(** ** Exceptions *)

Inductive exn : Type :=
  | ValueError (metodo : string)
  | KeyError (c : string)
  | TypeError.

Inductive result (A : Type) : Type :=
  | Ok (a : A)
  | Raise (e : exn).
Arguments Ok {A} a.
Arguments Raise {A} e.

#[global] Instance exn_eq_dec : EqDecision exn.
Proof. solve_decision. Defined.
#[global] Instance result_eq_dec `{EqDecision A} : EqDecision (result A).
Proof. solve_decision. Defined.

(** ** Column operations (pandas Series) *)

Definition col_len (s : column) : nat :=
  match s with
  | NumCol xs => length xs
  | BoolCol bs => length bs
  | ObjCol os => length os
  end.

(** [s == k] *)
Definition eq_mask (k : Qc) (s : column) : list bool :=
  match s with
  | NumCol xs => map (num_eq k) xs
  | BoolCol bs => map (λ b, bool_decide (Qc_of_bool b = k)) bs
  | ObjCol os => map (obj_eq k) os
  end.

(** [m.any()] and [m.sum()] of a boolean mask *)
Definition any (m : list bool) : bool := existsb id m.
Definition cuenta (m : list bool) : nat := length (filter (λ b, b = true) m).

(** [s.replace(k, r)] *)
Definition replace (k : Qc) (r : num) (s : column) : column :=
  match s with
  | NumCol xs => NumCol (map (λ x, if num_eq k x then r else x) xs)
  | BoolCol bs =>
      if any (eq_mask k s)
      then ObjCol (map (λ b, if bool_decide (Qc_of_bool b = k) then ONum r else OBool b) bs)
      else s
  | ObjCol os => ObjCol (map (λ o, if obj_eq k o then ONum r else o) os)
  end.

(** [s[m] = v] through [.loc]: the cells under the mask take the value.
    A float64 column and an object column take every value; a boolean
    column under a mask that selects a cell becomes an object column. *)
Definition mask_assign (m : list bool) (v : num) (s : column) : column :=
  match s with
  | NumCol xs => NumCol (zip_with (λ (b : bool) x, if b then v else x) m xs)
  | BoolCol bs =>
      if any m
      then ObjCol (zip_with (λ (b : bool) x, if b then ONum v else OBool x) m bs)
      else s
  | ObjCol os => ObjCol (zip_with (λ (b : bool) o, if b then ONum v else o) m os)
  end.

(** [s >= 0]; ordering text against a number raises TypeError. *)
Definition obj_ge0 (o : obj) : result bool :=
  match o with
  | OStr _ => Raise TypeError
  | ONum x => Ok (num_ge0 x)
  | OBool _ => Ok true
  end.

Fixpoint objs_ge0 (os : list obj) : result (list bool) :=
  match os with
  | [] => Ok []
  | o :: os' =>
      match obj_ge0 o with
      | Raise e => Raise e
      | Ok b => match objs_ge0 os' with
                | Raise e => Raise e
                | Ok bs => Ok (b :: bs)
                end
      end
  end.

Definition ge0_mask (s : column) : result (list bool) :=
  match s with
  | NumCol xs => Ok (map num_ge0 xs)
  | BoolCol bs => Ok (map (λ _, true) bs)
  | ObjCol os => objs_ge0 os
  end.

(** [~a & b] *)
Definition not_and (a b : list bool) : list bool :=
  zip_with (λ x y, negb x && y) a b.

(** [s[m]]: the cells a boolean mask selects. *)
Definition select_list {A} (m : list bool) (xs : list A) : list A :=
  (filter (λ p, p.1 = true) (zip m xs)).*2.

Definition select (m : list bool) (s : column) : column :=
  match s with
  | NumCol xs => NumCol (select_list m xs)
  | BoolCol bs => BoolCol (select_list m bs)
  | ObjCol os => ObjCol (select_list m os)
  end.

(** The cells of a column read as floats, the way [median] and [mean]
    read them: True is 1 and False is 0; text cannot be read. *)
Definition obj_num (o : obj) : result num :=
  match o with
  | OStr _ => Raise TypeError
  | ONum x => Ok x
  | OBool b => Ok (Fin (Qc_of_bool b))
  end.

Fixpoint objs_nums (os : list obj) : result (list num) :=
  match os with
  | [] => Ok []
  | o :: os' =>
      match obj_num o with
      | Raise e => Raise e
      | Ok x => match objs_nums os' with
                | Raise e => Raise e
                | Ok xs => Ok (x :: xs)
                end
      end
  end.

Definition col_nums (s : column) : result (list num) :=
  match s with
  | NumCol xs => Ok xs
  | BoolCol bs => Ok (map (λ b, Fin (Qc_of_bool b)) bs)
  | ObjCol os => objs_nums os
  end.

(** The statistics skip missing values. *)
Definition finitos (xs : list num) : list Qc :=
  omap (λ x, match x with Fin q => Some q | NaN => None end) xs.

Fixpoint insertar (q : Qc) (l : list Qc) : list Qc :=
  match l with
  | [] => [q]
  | p :: l' => if bool_decide (q ≤ p)%Qc then q :: l else p :: insertar q l'
  end.

Definition ordenar (l : list Qc) : list Qc := foldr insertar [] l.

Definition suma (l : list Qc) : Qc := foldr Qcplus 0%Qc l.

Definition mediana_de (l : list Qc) : num :=
  let o := ordenar l in
  let n := length o in
  match n with
  | O => NaN
  | _ =>
      if Nat.odd n
      then Fin (nth (n / 2) o 0%Qc)
      else Fin ((nth (n / 2 - 1) o 0%Qc + nth (n / 2) o 0%Qc) / entero 2)%Qc
  end.

Definition media_de (l : list Qc) : num :=
  match l with
  | [] => NaN
  | _ => Fin (suma l / entero (Z.of_nat (length l)))%Qc
  end.

(** [s.median()] and [s.mean()] *)
Definition median (s : column) : result num :=
  match col_nums s with
  | Raise e => Raise e
  | Ok xs => Ok (mediana_de (finitos xs))
  end.

Definition mean (s : column) : result num :=
  match col_nums s with
  | Raise e => Raise e
  | Ok xs => Ok (media_de (finitos xs))
  end.

(** [round(x, 1)]: the nearest multiple of one tenth, the even one on a
    tie. *)
Definition redondeo_par (q : Qc) : Z :=
  let f := Qfloor q in
  let d := (q - entero f)%Qc in
  if bool_decide (d < Q2Qc (1 # 2))%Qc then f
  else if bool_decide (Q2Qc (1 # 2) < d)%Qc then (f + 1)%Z
  else if Z.even f then f else (f + 1)%Z.

Definition round1 (x : num) : num :=
  match x with
  | Fin q => Fin (entero (redondeo_par (q * entero 10)) / entero 10)%Qc
  | NaN => NaN
  end.

(** ** Tables (pandas DataFrame values) *)

Abbreviation table := (list (string * column)).

(** [t[c]], for a table whose names are distinct: the column of that
    name. *)
Fixpoint get_col (c : string) (t : table) : option column :=
  match t with
  | [] => None
  | (n, s) :: t' => if decide (n = c) then Some s else get_col c t'
  end.

(** [t[c] = s]: an existing column is overwritten where it stands, a new
    one is appended after the last. *)
Fixpoint set_col (c : string) (s : column) (t : table) : table :=
  match t with
  | [] => [(c, s)]
  | (n, s0) :: t' =>
      if decide (n = c) then (n, s) :: t' else (n, s0) :: set_col c s t'
  end.

Definition columnas (t : table) : list string := t.*1.

Definition es_numerica (s : column) : bool :=
  match s with
  | NumCol _ => true
  | _ => false
  end.

(** [t.select_dtypes(include="number").columns] *)
Definition numericas (t : table) : list string :=
  (filter (λ p, es_numerica p.2 = true) t).*1.

(** [len(t)]: the columns of a table have one length, the row count. *)
Definition len (t : table) : nat :=
  match t with
  | [] => 0
  | (_, s) :: _ => col_len s
  end.

(** ** The store, the log and the monad of effects *)

Abbreviation loc := nat (only parsing).

(** What the functions print, kept as data. *)
Inductive report : Type :=
  | RepNoAplica (columnas_afectadas n_celdas : nat) (reemplazo : num)
  | RepConfidencial (columnas_afectadas n_celdas : nat) (metodo : string)
  | RepMarcar (n_flags : nat)
  | RepCabecera
  | RepPie.

Inductive event : Type :=
  | EvSet (l : loc) (c : string) (s : column)
  | EvPrint (r : report).

Record state : Type := State { heap : list table; log : list event }.

#[global] Instance report_eq_dec : EqDecision report.
Proof. solve_decision. Defined.
#[global] Instance event_eq_dec : EqDecision event.
Proof. solve_decision. Defined.
#[global] Instance state_eq_dec : EqDecision state.
Proof. solve_decision. Defined.

Definition M (A : Type) : Type := state → result A * state.

Definition ret {A} (a : A) : M A := λ st, (Ok a, st).

Definition bind {A B} (m : M A) (k : A → M B) : M B :=
  λ st, match m st with
        | (Ok a, st') => k a st'
        | (Raise e, st') => (Raise e, st')
        end.

Definition raise {A} (e : exn) : M A := λ st, (Raise e, st).

Definition lift {A} (r : result A) : M A := λ st, (r, st).

Declare Scope prog_scope.
Delimit Scope prog_scope with prog.
Notation "x <- m ;; k" := (bind m (λ x, k))
  (at level 100, m at next level, right associativity) : prog_scope.
Notation "m ;; k" := (bind m (λ _, k))
  (at level 100, right associativity) : prog_scope.
Local Open Scope prog_scope.

(** [df.copy()] *)
Definition copy (df : loc) : M loc :=
  λ st, (Ok (length (heap st)),
         {| heap := heap st ++ [heap st !!! df]; log := log st |}).

Definition select_dtypes_number (df : loc) : M (list string) :=
  λ st, (Ok (numericas (heap st !!! df)), st).

(** [df[c]] *)
Definition getitem (df : loc) (c : string) : M column :=
  λ st, match get_col c (heap st !!! df) with
        | Some s => (Ok s, st)
        | None => (Raise (KeyError c), st)
        end.

(** [df[c] = s] *)
Definition setitem (df : loc) (c : string) (s : column) : M unit :=
  λ st, (Ok tt,
         {| heap := alter (set_col c s) df (heap st);
            log := log st ++ [EvSet df c s] |}).

(** [df.loc[m, c]] and [df.loc[m, c] = v] *)
Definition loc_get (df : loc) (m : list bool) (c : string) : M column :=
  s <- getitem df c ;; ret (select m s).

Definition loc_set (df : loc) (m : list bool) (c : string) (v : num) : M unit :=
  s <- getitem df c ;; setitem df c (mask_assign m v s).

Definition print (r : report) : M unit :=
  λ st, (Ok tt, {| heap := heap st; log := log st ++ [EvPrint r] |}).

(** [[c for c in l if p(c)]], [for c in l: f(c)] and
    [sum(f(c) for c in l)] *)
Fixpoint filterM (p : string → M bool) (l : list string) : M (list string) :=
  match l with
  | [] => ret []
  | c :: l' =>
      b <- p c ;;
      r <- filterM p l' ;;
      ret (if b : bool then c :: r else r)
  end.

Fixpoint forM_ (l : list string) (f : string → M unit) : M unit :=
  match l with
  | [] => ret tt
  | c :: l' => f c ;; forM_ l' f
  end.

Fixpoint sumM (f : string → M nat) (l : list string) : M nat :=
  match l with
  | [] => ret 0
  | c :: l' => n <- f c ;; r <- sumM f l' ;; ret (n + r)
  end.

(** ** The functions of the module *)

(** Columns of [l] that hold the code [k]:
    [[c for c in l if (df[c] == k).any()]] *)
Definition cols_con (k : Qc) (df : loc) (l : list string) : M (list string) :=
  filterM (λ c, s <- getitem df c ;; ret (any (eq_mask k s))) l.

(** [sum((df[c] == k).sum() for c in l)] *)
Definition n_celdas_de (k : Qc) (df : loc) (l : list string) : M nat :=
  sumM (λ c, s <- getitem df c ;; ret (cuenta (eq_mask k s))) l.

Definition tratar_no_aplica
    (df : loc) (cols : option (list string)) (reemplazo : num) : M loc :=
  resultado <- copy df ;;
  cols_num <- select_dtypes_number resultado ;;
  let cols_proc := default cols_num cols in
  cols_con_6 <- cols_con menos_6 resultado cols_proc ;;
  forM_ cols_con_6 (λ c,
    s <- getitem resultado c ;;
    setitem resultado c (replace menos_6 reemplazo s)) ;;
  n_celdas <- n_celdas_de menos_6 df cols_con_6 ;;
  print (RepNoAplica (length cols_con_6) n_celdas reemplazo) ;;
  ret resultado.

Definition METODOS_CONF : list string :=
  ["nan"; "cero"; "mediana"; "media"; "valor_bajo"].

(** The body of the loop of [tratar_confidencial] for one column. *)
Definition tratar_columna
    (resultado : loc) (metodo : string) (valor_bajo : num) (c : string) : M unit :=
  s <- getitem resultado c ;;
  let mascara := eq_mask menos_8 s in
  if decide (metodo = "nan") then
    loc_set resultado mascara c NaN
  else if decide (metodo = "cero") then
    loc_set resultado mascara c (Fin 0%Qc)
  else if decide (metodo = "mediana") then
    s' <- getitem resultado c ;;
    ge0 <- lift (ge0_mask s') ;;
    valores_validos <- loc_get resultado (not_and mascara ge0) c ;;
    imputacion <- (if bool_decide (0 < col_len valores_validos)
                   then lift (median valores_validos) else ret (Fin 0%Qc)) ;;
    loc_set resultado mascara c imputacion
  else if decide (metodo = "media") then
    s' <- getitem resultado c ;;
    ge0 <- lift (ge0_mask s') ;;
    valores_validos <- loc_get resultado (not_and mascara ge0) c ;;
    imputacion <- (if bool_decide (0 < col_len valores_validos)
                   then lift (mean valores_validos) else ret (Fin 0%Qc)) ;;
    loc_set resultado mascara c (round1 imputacion)
  else if decide (metodo = "valor_bajo") then
    loc_set resultado mascara c valor_bajo
  else ret tt.

Definition tratar_confidencial
    (df : loc) (cols : option (list string)) (metodo : string)
    (valor_bajo : num) : M loc :=
  if negb (bool_decide (metodo ∈ METODOS_CONF)) then
    raise (ValueError metodo)
  else
    resultado <- copy df ;;
    cols_num <- select_dtypes_number resultado ;;
    let cols_proc := default cols_num cols in
    cols_con_8 <- cols_con menos_8 resultado cols_proc ;;
    forM_ cols_con_8 (tratar_columna resultado metodo valor_bajo) ;;
    n_celdas <- n_celdas_de menos_8 df cols_con_8 ;;
    print (RepConfidencial (length cols_con_8) n_celdas metodo) ;;
    ret resultado.

Definition tratar_censurados
    (df : loc) (cols : option (list string)) (metodo_conf : string)
    (valor_bajo : num) (reemplazo_no_aplica : num) : M loc :=
  print RepCabecera ;;
  resultado <- tratar_no_aplica df cols reemplazo_no_aplica ;;
  resultado <- tratar_confidencial resultado cols metodo_conf valor_bajo ;;
  print RepPie ;;
  ret resultado.

Definition marcar_columna
    (resultado : loc) (sufijo_6 sufijo_8 : string) (c : string) : M nat :=
  s <- getitem resultado c ;;
  let tiene_6 := any (eq_mask menos_6 s) in
  s <- getitem resultado c ;;
  let tiene_8 := any (eq_mask menos_8 s) in
  n6 <- (if tiene_6 then
           s <- getitem resultado c ;;
           setitem resultado (c +:+ sufijo_6) (BoolCol (eq_mask menos_6 s)) ;;
           ret 1
         else ret 0) ;;
  n8 <- (if tiene_8 then
           s <- getitem resultado c ;;
           setitem resultado (c +:+ sufijo_8) (BoolCol (eq_mask menos_8 s)) ;;
           ret 1
         else ret 0) ;;
  ret (n6 + n8).

Definition marcar_censurados
    (df : loc) (cols : option (list string)) (sufijo_6 sufijo_8 : string) : M loc :=
  resultado <- copy df ;;
  cols_num <- select_dtypes_number resultado ;;
  let cols_proc := default cols_num cols in
  n_flags <- sumM (marcar_columna resultado sufijo_6 sufijo_8) cols_proc ;;
  print (RepMarcar n_flags) ;;
  ret resultado.

(** One row of the summary frame of [diagnostico_censurados]. *)
Record fila : Type := Fila {
  n_menos_6 : nat;
  pct_menos_6 : num;
  n_menos_8 : nat;
  pct_menos_8 : num;
  n_especiales : nat;
  pct_especiales : num
}.

(** [(k / n * 100).round(1)] on a count [k].  pandas gives NaN for 0/0
    and raises nothing; a count never exceeds the row count (see
    [cuenta_le]), so with [n = 0] the numerator is 0 and no other
    division by zero arises.  The quotient here is exact; the code
    rounds its float64 value, which can fall on the other side of a tie
    (23 of 80 is 28.75 exactly), so the properties below state the
    missing value at [n = 0] and bounds, not the tenth. *)
Definition pct (k n : nat) : num :=
  match n with
  | O => NaN
  | _ => round1 (Fin (entero (Z.of_nat k) / entero (Z.of_nat n) * entero 100)%Qc)
  end.

(** The frame [resumen] before its last filter: one row per numeric
    column. *)
Definition resumen_de (t : table) : list (string * fila) :=
  let n := len t in
  map (λ p : string * column,
         let n6 := cuenta (eq_mask menos_6 p.2) in
         let n8 := cuenta (eq_mask menos_8 p.2) in
         (p.1, {| n_menos_6 := n6; pct_menos_6 := pct n6 n;
                  n_menos_8 := n8; pct_menos_8 := pct n8 n;
                  n_especiales := n6 + n8;
                  pct_especiales := pct (n6 + n8) n |}))
      (filter (λ p, es_numerica p.2 = true) t).

Definition diagnostico_censurados (df : loc) : M (list (string * fila)) :=
  λ st,
    let resumen := resumen_de (heap st !!! df) in
    (Ok (filter (λ r : string * fila, 0 < n_especiales r.2) resumen), st).

(** The defaults of the keyword arguments. *)
Definition reemplazo_defecto : num := Fin 0%Qc.
Definition metodo_defecto : string := "nan".
Definition valor_bajo_defecto : num := Fin (entero 3).
Definition sufijo_6_defecto : string := "_flag_na".
Definition sufijo_8_defecto : string := "_flag_conf".


(** ** The loops read as functions on one table

    Each function of the module builds its result in a fresh copy; what
    it does to that copy is a function of the table alone.  These
    definitions restate the loops that way; the lemmas [*_run] below
    prove that the monadic code computes them. *)

Definition es_codigo (k : Qc) : Prop := k = menos_6 ∨ k = menos_8.

(** [(t[c] == k).any()] for a column that exists *)
Definition tiene (k : Qc) (t : table) (c : string) : bool :=
  match get_col c t with
  | Some s => any (eq_mask k s)
  | None => false
  end.

(** The first name of a selection that is not a column of the table. *)
Fixpoint primera_ausente (t : table) (l : list string) : option string :=
  match l with
  | [] => None
  | c :: l' =>
      match get_col c t with
      | None => Some c
      | Some _ => primera_ausente t l'
      end
  end.

(** [sum((t[c] == k).sum() for c in l)] *)
Definition celdas (k : Qc) (t : table) (l : list string) : nat :=
  foldr (λ c n, match get_col c t with
                | Some s => cuenta (eq_mask k s) + n
                | None => n
                end) 0 l.

(** The value [tratar_confidencial] writes into the confidential cells of
    a column. *)
Definition estadistica (f : column → result num) (s : column) : result num :=
  match ge0_mask s with
  | Raise e => Raise e
  | Ok ge0 =>
      let valores_validos := select (not_and (eq_mask menos_8 s) ge0) s in
      if bool_decide (0 < col_len valores_validos)
      then f valores_validos else Ok (Fin 0%Qc)
  end.

Definition imputacion (metodo : string) (valor_bajo : num) (s : column) : result num :=
  if decide (metodo = "nan") then Ok NaN
  else if decide (metodo = "cero") then Ok (Fin 0%Qc)
  else if decide (metodo = "mediana") then estadistica median s
  else if decide (metodo = "media") then
    match estadistica mean s with
    | Ok v => Ok (round1 v)
    | Raise e => Raise e
    end
  else Ok valor_bajo.

Definition tratar_col (metodo : string) (valor_bajo : num) (s : column) : result column :=
  match imputacion metodo valor_bajo s with
  | Ok v => Ok (mask_assign (eq_mask menos_8 s) v s)
  | Raise e => Raise e
  end.

(** A loop that rewrites the columns [l] of the table at [r] one by one
    with [g], stopping at the first exception. *)
Fixpoint bucle (g : column → result column) (r : loc) (l : list string)
    (t : table) (lg : list event) : result unit * table * list event :=
  match l with
  | [] => (Ok tt, t, lg)
  | c :: l' =>
      match get_col c t with
      | None => (Raise (KeyError c), t, lg)
      | Some s =>
          match g s with
          | Raise e => (Raise e, t, lg)
          | Ok s' => bucle g r l' (set_col c s' t) (lg ++ [EvSet r c s'])
          end
      end
  end.

(** The flags [marcar_censurados] writes while it scans one column. *)
Definition marcar_paso (r : loc) (sufijo_6 sufijo_8 : string) (c : string)
    (t : table) (lg : list event) : result nat * table * list event :=
  match get_col c t with
  | None => (Raise (KeyError c), t, lg)
  | Some s =>
      let tiene_6 := any (eq_mask menos_6 s) in
      let tiene_8 := any (eq_mask menos_8 s) in
      let f6 := BoolCol (eq_mask menos_6 s) in
      let t1 := if tiene_6 then set_col (c +:+ sufijo_6) f6 t else t in
      let lg1 := if tiene_6 then lg ++ [EvSet r (c +:+ sufijo_6) f6] else lg in
      if tiene_8 then
        match get_col c t1 with
        | None => (Raise (KeyError c), t1, lg1)
        | Some s1 =>
            let f8 := BoolCol (eq_mask menos_8 s1) in
            (Ok ((if tiene_6 then 1 else 0) + 1),
             set_col (c +:+ sufijo_8) f8 t1,
             lg1 ++ [EvSet r (c +:+ sufijo_8) f8])
        end
      else (Ok ((if tiene_6 then 1 else 0) + 0), t1, lg1)
  end.

Fixpoint marcar_bucle (r : loc) (sufijo_6 sufijo_8 : string) (l : list string)
    (t : table) (lg : list event) : result nat * table * list event :=
  match l with
  | [] => (Ok 0, t, lg)
  | c :: l' =>
      match marcar_paso r sufijo_6 sufijo_8 c t lg with
      | (Raise e, t1, lg1) => (Raise e, t1, lg1)
      | (Ok n, t1, lg1) =>
          match marcar_bucle r sufijo_6 sufijo_8 l' t1 lg1 with
          | (Raise e, t2, lg2) => (Raise e, t2, lg2)
          | (Ok m, t2, lg2) => (Ok (n + m), t2, lg2)
          end
      end
  end.

(** A loop whose body rewrites one column with [g] runs as [bucle]. *)
Definition cuerpo_de (g : column → result column) (h : list table)
    (cuerpo : string → M unit) : Prop :=
  ∀ c t lg,
    cuerpo c (State (h ++ [t]) lg) =
    match get_col c t with
    | None => (Raise (KeyError c), State (h ++ [t]) lg)
    | Some s =>
        match g s with
        | Raise e => (Raise e, State (h ++ [t]) lg)
        | Ok s' => (Ok tt, State (h ++ [set_col c s' t])
                                 (lg ++ [EvSet (length h) c s']))
        end
    end.

(** The two resolvers follow one scheme: copy, choose the columns that
    hold the code, rewrite them, count, report. *)
Definition esquema (k : Qc) (cuerpo : loc → string → M unit)
    (rep : nat → nat → report) (df : loc) (cols : option (list string)) : M loc :=
  resultado <- copy df ;;
  cols_num <- select_dtypes_number resultado ;;
  let cols_proc := default cols_num cols in
  cols_k <- cols_con k resultado cols_proc ;;
  forM_ cols_k (cuerpo resultado) ;;
  n_celdas <- n_celdas_de k df cols_k ;;
  print (rep (length cols_k) n_celdas) ;;
  ret resultado.

Definition resolver (k : Qc) (g : column → result column)
    (rep : nat → nat → report) (cols : option (list string))
    (r : loc) (t : table) (lg : list event) : result loc * table * list event :=
  let cols_proc := default (numericas t) cols in
  match primera_ausente t cols_proc with
  | Some c => (Raise (KeyError c), t, lg)
  | None =>
      let cols_k := filter (λ c, tiene k t c = true) cols_proc in
      match bucle g r cols_k t lg with
      | (Raise e, t', lg') => (Raise e, t', lg')
      | (Ok _, t', lg') =>
          (Ok r, t', lg' ++ [EvPrint (rep (length cols_k) (celdas k t cols_k))])
      end
  end.

(** The state a call leaves behind when it allocated one table. *)
Definition con_nueva {A} (st : state) (x : result A * table * list event) :
    result A * state :=
  (x.1.1, State (heap st ++ [x.1.2]) x.2).

Definition no_aplica_tabla (cols : option (list string)) (reemplazo : num)
    (r : loc) (t : table) (lg : list event) : result loc * table * list event :=
  resolver menos_6 (λ s, Ok (replace menos_6 reemplazo s))
    (λ n m, RepNoAplica n m reemplazo) cols r t lg.

Definition confidencial_tabla (cols : option (list string)) (metodo : string)
    (valor_bajo : num) (r : loc) (t : table) (lg : list event) :
    result loc * table * list event :=
  resolver menos_8 (tratar_col metodo valor_bajo)
    (λ n m, RepConfidencial n m metodo) cols r t lg.

Definition marcar_tabla (cols : option (list string)) (sufijo_6 sufijo_8 : string)
    (r : loc) (t : table) (lg : list event) : result loc * table * list event :=
  match marcar_bucle r sufijo_6 sufijo_8 (default (numericas t) cols) t lg with
  | (Raise e, t', lg') => (Raise e, t', lg')
  | (Ok n, t', lg') => (Ok r, t', lg' ++ [EvPrint (RepMarcar n)])
  end.

(** A column without text cells: every cell can be ordered against a
    number. *)
Definition es_texto (o : obj) : bool :=
  match o with
  | OStr _ => true
  | _ => false
  end.

Definition sin_texto (s : column) : bool :=
  match s with
  | ObjCol os => negb (existsb es_texto os)
  | _ => true
  end.

(** ** The scenario of the specification *)

(** [pop = [-6.0, -8.0, 10.0, -6.0, 5.0]], a float64 column *)
Definition pop : column :=
  NumCol [Fin (entero (-6)); Fin (entero (-8)); Fin (entero 10);
          Fin (entero (-6)); Fin (entero 5)].

Definition tabla_pop : table := [("pop", pop)].

(** A store that holds this one table, at reference 0, and an empty log. *)
Definition st_pop : state := State [tabla_pop] [].

(** 7.5 *)
Definition siete_y_medio : Qc := (entero 15 / entero 2)%Qc.

(** ** The specification's wording of the mean and median treatment

    These definitions follow the specification, not the code; the
    properties below compare them with what the code computes. *)

(** The values of a column: the numbers its cells hold.  The
    missing-value marker is not a value, and neither is text. *)
Definition valor_de (o : obj) : option Qc :=
  match o with
  | ONum (Fin q) => Some q
  | OBool b => Some (Qc_of_bool b)
  | _ => None
  end.

Definition valores (s : column) : list Qc :=
  match s with
  | NumCol xs => omap (λ x, valor_de (ONum x)) xs
  | BoolCol bs => map Qc_of_bool bs
  | ObjCol os => omap valor_de os
  end.

(** "not NOT_APPLICABLE (-6), not CONFIDENTIAL (-8), and not negative" *)
Definition elegible (q : Qc) : Prop :=
  q ≠ menos_6 ∧ q ≠ menos_8 ∧ ¬ (q < 0)%Qc.

#[global] Instance elegible_dec (q : Qc) : Decision (elegible q).
Proof. unfold elegible. apply _. Defined.

Definition elegibles (s : column) : list Qc := filter elegible (valores s).






(** The same value computed with the functions of the code, [round1],
    [media_de] and [mediana_de], on the eligible values; that it meets
    [escrito_segun_spec] is proved below. *)
Definition imputacion_segun_spec (metodo : string) (s : column) : num :=
  match elegibles s with
  | [] => Fin 0%Qc
  | l => if decide (metodo = "media") then round1 (media_de l) else mediana_de l
  end.

(** ** The three resolvers as one family *)

Inductive llamada : Type :=
  | NoAplica (reemplazo : num)
  | Confidencial (metodo : string) (valor_bajo : num)
  | Censurados (metodo_conf : string) (valor_bajo : num) (reemplazo_no_aplica : num).

Definition ejecutar (R : llamada) (df : loc) (cols : option (list string)) : M loc :=
  match R with
  | NoAplica reemplazo => tratar_no_aplica df cols reemplazo
  | Confidencial metodo valor_bajo => tratar_confidencial df cols metodo valor_bajo
  | Censurados metodo valor_bajo reemplazo =>
      tratar_censurados df cols metodo valor_bajo reemplazo
  end.

(** The codes a resolver acts on. *)
Definition codigos (R : llamada) : list Qc :=
  match R with
  | NoAplica _ => [menos_6]
  | Confidencial _ _ => [menos_8]
  | Censurados _ _ _ => [menos_6; menos_8]
  end.

(** What one pass makes of a column [s] named [c], given the selection
    [sel]: the column is rewritten when it is selected and holds the
    code, and is left as it is otherwise. *)
Definition paso_6 (reemplazo : num) (sel : list string) (c : string)
    (s : column) : column :=
  if decide (c ∈ sel ∧ any (eq_mask menos_6 s) = true)
  then replace menos_6 reemplazo s else s.

Definition paso_8 (metodo : string) (valor_bajo : num) (sel : list string)
    (c : string) (s : column) : result column :=
  if decide (c ∈ sel ∧ any (eq_mask menos_8 s) = true)
  then tratar_col metodo valor_bajo s else Ok s.

Definition columna_tratada (R : llamada) (sel : list string) (c : string)
    (s : column) : result column :=
  match R with
  | NoAplica reemplazo => Ok (paso_6 reemplazo sel c s)
  | Confidencial metodo valor_bajo => paso_8 metodo valor_bajo sel c s
  | Censurados metodo valor_bajo reemplazo =>
      paso_8 metodo valor_bajo sel c (paso_6 reemplazo sel c s)
  end.

(** The cells of a column, whatever its kind. *)
Definition vista (s : column) : list obj :=
  match s with
  | NumCol xs => map ONum xs
  | BoolCol bs => map OBool bs
  | ObjCol os => os
  end.

(** A table with a text column in which one cell holds the number -6. *)
Definition tabla_obj : table :=
  [("nombre", ObjCol [OStr "a"; ONum (Fin menos_6)])].

Definition st_obj : state := State [tabla_obj] [].

(** A table without rows. *)
Definition tabla_sin_filas : table := [("pop", NumCol [])].

(** ** The specification's wording of the flag columns *)

(** The flags of one source column: for each code present, one boolean
    column named by the source name and the suffix, true exactly where
    the code occurs; the flag for -6 before the flag for -8. *)
Definition banderas_de (sufijo_6 sufijo_8 : string) (t : table) (c : string) :
    list (string * column) :=
  match get_col c t with
  | Some s =>
      (if any (eq_mask menos_6 s)
       then [(c +:+ sufijo_6, BoolCol (eq_mask menos_6 s))] else []) ++
      (if any (eq_mask menos_8 s)
       then [(c +:+ sufijo_8, BoolCol (eq_mask menos_8 s))] else [])
  | None => []
  end.

(** The flags of a selection, in the order of the scan. *)
Definition banderas (sufijo_6 sufijo_8 : string) (t : table) (l : list string) :
    list (string * column) :=
  concat (map (banderas_de sufijo_6 sufijo_8 t) l).

(** An assignment [e] of the log is the flag of a selected column [c] of
    the input [t] for a code [k] the column holds; unless the suffix for
    -6 is empty, the flag is true exactly at the cells that hold the
    code. *)
Definition es_bandera (sufijo_6 sufijo_8 : string) (t : table)
    (sel : list string) (r : loc) (e : event) : Prop :=
  ∃ c s k suf m,
    e = EvSet r (c +:+ suf) (BoolCol m) ∧
    c ∈ sel ∧ get_col c t = Some s ∧
    ((k = menos_6 ∧ suf = sufijo_6) ∨ (k = menos_8 ∧ suf = sufijo_8)) ∧
    any (eq_mask k s) = true ∧
    (sufijo_6 ≠ "" → m = eq_mask k s ∧ true ∈ m).

(** While the marker runs, a column of the copy is the input's column of
    that name or a flag. *)
Definition inv_marcar (t t' : table) : Prop :=
  ∀ c, get_col c t' = get_col c t ∨ ∃ m, get_col c t' = Some (BoolCol m).

(** A table in which the name of a flag is already the name of a column,
    with a further column after it. *)
Definition tabla_choque : table :=
  [("pop", pop);
   ("pop_flag_na", NumCol [Fin (entero 1); Fin (entero 2); Fin (entero 3);
                           Fin (entero 4); Fin (entero 5)]);
   ("z", NumCol [Fin (entero 1); Fin (entero 2); Fin (entero 3);
                 Fin (entero 4); Fin (entero 5)])].

(** ** Notions for the further properties *)

(** A table in which no numeric column holds a code. *)
Definition limpia (t : table) : Prop :=
  ∀ c s, (c, s) ∈ t → es_numerica s = true →
         any (eq_mask menos_6 s) = false ∧ any (eq_mask menos_8 s) = false.

(** A table whose columns all have [n] rows. *)
Definition rectangular (n : nat) (t : table) : Prop :=
  ∀ c s, (c, s) ∈ t → col_len s = n.


(** The method a call passes to the confidential pass, if it has one. *)
Definition metodo_de (R : llamada) : option string :=
  match R with
  | NoAplica _ => None
  | Confidencial metodo _ => Some metodo
  | Censurados metodo _ _ => Some metodo
  end.

(** The call computes a statistic of the column. *)
Definition usa_estadistica (R : llamada) : Prop :=
  metodo_de R = Some "mediana" ∨ metodo_de R = Some "media".


(** Read off a report of the summary: the number of rows whose count
    [campo] is positive, and the total of that count. *)
Definition afectadas (campo : fila → nat) (rep : list (string * fila)) : nat :=
  length (filter (λ x, 0 < campo x.2) rep).

Definition total (campo : fila → nat) (rep : list (string * fila)) : nat :=
  foldr (λ x m, campo x.2 + m) 0 rep.


(** What a run of the marker's loop leaves: the assignments [evs] it
    logged are flags written to the table at [r], the names of the table
    it started from are kept in front, each assignment adds at most one
    column, and the count it returns is the number of assignments; the
    only exception is the lookup of a missing name. *)
Definition marcado (r : loc) (t0 : table) (lg : list event)
    (x : result nat * table * list event) : Prop :=
  ∃ evs,
    x.2 = lg ++ evs ∧
    columnas t0 `prefix_of` columnas x.1.2 ∧
    length (columnas x.1.2) ≤ length (columnas t0) + length evs ∧
    Forall (λ e, ∃ n m, e = EvSet r n (BoolCol m)) evs ∧
    match x.1.1 with
    | Ok n => n = length evs
    | Raise e => ∃ c, e = KeyError c
    end.

(** * Properties *)

(** Closes a goal between closed terms by running the decision procedure
    of its type. *)
Ltac por_calculo :=
  match goal with
  | |- ?P => apply (bool_decide_eq_true_1 P); vm_compute; reflexivity
  end.

Ltac por_calculo_no :=
  match goal with
  | |- ?x ≠ ?y => apply (bool_decide_eq_false_1 (x = y)); vm_compute; reflexivity
  end.

(** ** Tables *)

Lemma get_col_Some_elem (c : string) (t : table) :
  is_Some (get_col c t) ↔ c ∈ columnas t.
Proof.
  induction t as [|[n s] t IH]; simpl.
  - split; [intros [? [=]] | intros H; inversion H].
  - destruct (decide (n = c)) as [->|Hne].
    + split; [intros _; left | eauto].
    + rewrite IH. split; [intros H; by right | intros H].
      inversion H; subst; [done | assumption].
Qed.

Lemma get_col_None_elem (c : string) (t : table) :
  get_col c t = None ↔ c ∉ columnas t.
Proof. rewrite <- get_col_Some_elem, eq_None_not_Some. done. Qed.

Lemma get_set_eq (c : string) (s : column) (t : table) :
  get_col c (set_col c s t) = Some s.
Proof.
  induction t as [|[n s0] t IH]; simpl.
  - by rewrite decide_True.
  - destruct (decide (n = c)) as [->|Hne]; simpl.
    + by rewrite decide_True.
    + by rewrite decide_False.
Qed.

Lemma get_set_ne (c c' : string) (s : column) (t : table) :
  c ≠ c' → get_col c' (set_col c s t) = get_col c' t.
Proof.
  intros Hne. induction t as [|[n s0] t IH]; simpl.
  - by rewrite decide_False.
  - destruct (decide (n = c)) as [->|Hn]; simpl.
    + by rewrite !decide_False.
    + destruct (decide (n = c')); [done | apply IH].
Qed.

Lemma get_set (c c' : string) (s : column) (t : table) :
  get_col c' (set_col c s t) = if decide (c = c') then Some s else get_col c' t.
Proof.
  destruct (decide (c = c')) as [->|Hne];
    [apply get_set_eq | by apply get_set_ne].
Qed.

Lemma columnas_set_in (c : string) (s : column) (t : table) :
  c ∈ columnas t → columnas (set_col c s t) = columnas t.
Proof.
  induction t as [|[n s0] t IH]; simpl; intros H.
  - inversion H.
  - destruct (decide (n = c)) as [->|Hne]; simpl; [done |].
    f_equal. apply IH. inversion H; subst; [done | assumption].
Qed.

Lemma set_col_notin (c : string) (s : column) (t : table) :
  c ∉ columnas t → set_col c s t = t ++ [(c, s)].
Proof.
  induction t as [|[n s0] t IH]; simpl; intros H; [done |].
  rewrite not_elem_of_cons in H. destruct H as [Hne Hni].
  rewrite decide_False by done. by rewrite IH.
Qed.

Lemma set_col_id (c : string) (s : column) (t : table) :
  get_col c t = Some s → set_col c s t = t.
Proof.
  induction t as [|[n s0] t IH]; simpl; [done |].
  destruct (decide (n = c)) as [->|Hne]; [by intros [= ->] |].
  intros H. by rewrite IH.
Qed.

Lemma numericas_cons (n : string) (s : column) (t : table) :
  numericas ((n, s) :: t) =
  if es_numerica s then n :: numericas t else numericas t.
Proof.
  unfold numericas. rewrite filter_cons. simpl.
  destruct s; simpl; done.
Qed.

Lemma numericas_columnas (c : string) (t : table) :
  c ∈ numericas t → c ∈ columnas t.
Proof.
  intros H. apply list_elem_of_fmap in H as [p [-> H]].
  apply list_elem_of_filter in H as [_ H].
  apply list_elem_of_fmap. by exists p.
Qed.

Lemma numericas_elem (c : string) (t : table) :
  NoDup (columnas t) →
  c ∈ numericas t ↔ ∃ xs, get_col c t = Some (NumCol xs).
Proof.
  induction t as [|[n s] t IH]; intros Hnd.
  - split; [intros H; inversion H | intros [? [=]]].
  - simpl in Hnd. apply NoDup_cons in Hnd as [Hn Hnd].
    rewrite numericas_cons. simpl.
    destruct (decide (n = c)) as [->|Hne].
    + destruct s; simpl.
      * split; [eauto | intros _; left].
      * split; [| intros [? [=]]]. intros H. exfalso. apply Hn.
        by apply numericas_columnas.
      * split; [| intros [? [=]]]. intros H. exfalso. apply Hn.
        by apply numericas_columnas.
    + rewrite <- (IH Hnd). destruct (es_numerica s); [| done].
      rewrite elem_of_cons. split; [intros [-> | H]; done | by right].
Qed.

(** ** Columns *)

Lemma codigo_no_bool (k : Qc) (b : bool) :
  es_codigo k → bool_decide (Qc_of_bool b = k) = false.
Proof.
  intros Hk. apply bool_decide_eq_false. intros Hb.
  destruct Hk as [-> | ->], b; vm_compute in Hb; discriminate Hb.
Qed.

Lemma any_false (m : list bool) : any m = false ↔ Forall (λ b, b = false) m.
Proof.
  unfold any. induction m as [|b m IH]; simpl.
  - split; [constructor | done].
  - rewrite Forall_cons, <- IH. destruct b; simpl.
    + split; [done | by intros [? _]].
    + split; [done | by intros [_ ?]].
Qed.

Lemma any_true (m : list bool) : any m = true ↔ true ∈ m.
Proof.
  unfold any. induction m as [|b m IH]; simpl.
  - split; [done | intros H; inversion H].
  - rewrite elem_of_cons, <- IH. destruct b; simpl.
    + split; [by left | done].
    + split; [by right | intros [? | ?]; done].
Qed.

Lemma eq_mask_bool (k : Qc) (bs : list bool) :
  es_codigo k → any (eq_mask k (BoolCol bs)) = false.
Proof.
  intros Hk. apply any_false. simpl. apply Forall_fmap, Forall_forall.
  intros b _. simpl. by apply codigo_no_bool.
Qed.

Lemma length_eq_mask (k : Qc) (s : column) : length (eq_mask k s) = col_len s.
Proof. destruct s; simpl; by rewrite length_map. Qed.

Lemma col_len_replace (k : Qc) (r : num) (s : column) :
  col_len (replace k r s) = col_len s.
Proof.
  destruct s; simpl; try by rewrite length_map.
  destruct (any _); simpl; [by rewrite length_map | done].
Qed.

Lemma es_numerica_replace (k : Qc) (r : num) (s : column) :
  es_numerica (replace k r s) = es_numerica s.
Proof. destruct s; simpl; try done. by destruct (any _). Qed.

Lemma replace_sin_codigo (k : Qc) (r : num) (s : column) :
  any (eq_mask k s) = false → replace k r s = s.
Proof.
  intros H. destruct s as [xs|bs|os]; simpl in *.
  - f_equal. apply any_false in H. induction xs as [|x xs IH]; simpl; [done |].
    simpl in H. apply Forall_cons in H as [-> H]. f_equal. by apply IH.
  - by rewrite H.
  - f_equal. apply any_false in H. induction os as [|o os IH]; simpl; [done |].
    simpl in H. apply Forall_cons in H as [-> H]. f_equal. by apply IH.
Qed.

(** After a replacement by anything but the code itself, the code is
    gone from the column. *)
Lemma replace_quita (k : Qc) (r : num) (s : column) :
  num_eq k r = false → any (eq_mask k (replace k r s)) = false.
Proof.
  intros Hr. destruct s as [xs|bs|os]; simpl.
  - apply any_false, Forall_fmap, Forall_fmap, Forall_forall.
    intros x _. simpl. by destruct (num_eq k x) eqn:E.
  - destruct (any (map _ bs)) eqn:E; [| done].
    simpl. apply any_false, Forall_fmap, Forall_fmap, Forall_forall.
    intros b _. simpl. by destruct (bool_decide _) eqn:E'.
  - apply any_false, Forall_fmap, Forall_fmap, Forall_forall.
    intros o _. simpl. by destruct (obj_eq k o) eqn:E.
Qed.

(** Replacing the code by itself changes nothing. *)
Lemma replace_mismo (k : Qc) (s : column) :
  es_codigo k → replace k (Fin k) s = s.
Proof.
  intros Hk. destruct s as [xs|bs|os]; simpl.
  - f_equal. induction xs as [|x xs IH]; simpl; [done |]. f_equal; [| done].
    destruct x as [q|]; simpl; [| done]. case_bool_decide; by subst.
  - pose proof (eq_mask_bool k bs Hk) as E. simpl in E. by rewrite E.
  - f_equal. induction os as [|o os IH]; simpl; [done |]. f_equal; [| done].
    destruct o as [?|[q|]|b]; simpl; try done.
    + case_bool_decide; by subst.
    + by rewrite codigo_no_bool.
Qed.

Lemma replace_idem (k : Qc) (r : num) (s : column) :
  es_codigo k → replace k r (replace k r s) = replace k r s.
Proof.
  intros Hk. destruct (num_eq k r) eqn:Hr.
  - destruct r as [q|]; simpl in Hr; [| done].
    apply bool_decide_eq_true in Hr as ->. by rewrite !replace_mismo.
  - by apply replace_sin_codigo, replace_quita.
Qed.

Lemma replace_ok_idem (k : Qc) (r : num) (s s' : column) :
  es_codigo k →
  (λ s, Ok (replace k r s)) s = Ok s' → (λ s, Ok (replace k r s)) s' = Ok s'.
Proof. intros Hk [= <-]. by rewrite replace_idem. Qed.

Lemma mask_assign_eq_mask (k : Qc) (v : num) (s : column) :
  mask_assign (eq_mask k s) v s = replace k v s.
Proof.
  destruct s as [xs|bs|os]; simpl.
  - f_equal. by rewrite zip_with_fmap_l, zip_with_diag.
  - destruct (any _); [| done]. f_equal.
    by rewrite zip_with_fmap_l, zip_with_diag.
  - f_equal. by rewrite zip_with_fmap_l, zip_with_diag.
Qed.

Lemma objs_ge0_sin_texto (os : list obj) :
  existsb es_texto os = false ↔ ∃ m, objs_ge0 os = Ok m.
Proof.
  induction os as [|o os IH]; simpl; [split; eauto |].
  destruct o as [?|x|b]; simpl.
  - split; [done | intros [? [=]]].
  - rewrite IH. destruct (objs_ge0 os); split; intros [? [=]]; eauto.
  - rewrite IH. destruct (objs_ge0 os); split; intros [? [=]]; eauto.
Qed.

Lemma ge0_mask_sin_texto (s : column) :
  sin_texto s = true ↔ ∃ m, ge0_mask s = Ok m.
Proof.
  destruct s as [xs|bs|os]; simpl; [split; eauto | split; eauto |].
  rewrite negb_true_iff. apply objs_ge0_sin_texto.
Qed.

Lemma objs_nums_sin_texto (os : list obj) :
  existsb es_texto os = false → ∃ xs, objs_nums os = Ok xs.
Proof.
  induction os as [|o os IH]; simpl; [by eauto |].
  destruct o as [?|x|b]; simpl; [done | |];
    intros H; destruct (IH H) as [xs ->]; eauto.
Qed.

Lemma col_nums_sin_texto (s : column) :
  sin_texto s = true → ∃ xs, col_nums s = Ok xs.
Proof.
  destruct s as [xs|bs|os]; simpl; [by eauto | by eauto |].
  rewrite negb_true_iff. apply objs_nums_sin_texto.
Qed.

Lemma existsb_false_forall {A} (f : A → bool) (l : list A) :
  existsb f l = false ↔ ∀ x, x ∈ l → f x = false.
Proof.
  induction l as [|a l IH]; simpl.
  - split; [intros _ x H; inversion H | done].
  - rewrite orb_false_iff, IH. split.
    + intros [Ha Hl] x Hx. apply elem_of_cons in Hx as [-> | Hx]; auto.
    + intros H. split; [apply H; left | intros x Hx; apply H; by right].
Qed.

Lemma sin_texto_replace (k : Qc) (v : num) (s : column) :
  sin_texto s = true → sin_texto (replace k v s) = true.
Proof.
  destruct s as [xs|bs|os]; simpl; [done | |].
  - intros _. destruct (any _); [| done]. simpl.
    rewrite negb_true_iff. apply existsb_false_forall.
    intros o Ho. apply list_elem_of_fmap in Ho as [b [-> _]].
    by destruct (bool_decide _).
  - rewrite !negb_true_iff, !existsb_false_forall. intros H o Ho.
    apply list_elem_of_fmap in Ho as [o' [-> Ho']].
    destruct (obj_eq k o'); [done | by apply H].
Qed.

Lemma sin_texto_select (m : list bool) (s : column) :
  sin_texto s = true → sin_texto (select m s) = true.
Proof.
  destruct s as [xs|bs|os]; simpl; [done | done |].
  rewrite !negb_true_iff, !existsb_false_forall. intros H o Ho.
  apply H. unfold select_list in Ho.
  apply list_elem_of_fmap in Ho as [[b o'] [-> Ho]].
  apply list_elem_of_filter in Ho as [_ Ho].
  by apply elem_of_zip_r in Ho.
Qed.

(** ** The monadic code computes the table functions *)

Lemma lookup_total_nuevo (h : list table) (t : table) :
  (h ++ [t]) !!! length h = t.
Proof. by rewrite list_lookup_total_middle. Qed.

Lemma lookup_total_viejo (h : list table) (t t0 : table) (df : nat) :
  h !! df = Some t0 → (h ++ [t]) !!! df = t0.
Proof.
  intros H. apply list_lookup_total_correct.
  by apply lookup_app_l_Some.
Qed.

Lemma alter_nuevo (f : table → table) (h : list table) (t : table) :
  alter f (length h) (h ++ [t]) = h ++ [f t].
Proof.
  pose proof (alter_app_r f h [t] 0) as H. by rewrite Nat.add_0_r in H.
Qed.

Lemma getitem_run (df : nat) (c : string) (st : state) :
  getitem df c st =
  match get_col c (heap st !!! df) with
  | Some s => (Ok s, st)
  | None => (Raise (KeyError c), st)
  end.
Proof. reflexivity. Qed.

Lemma bind_run {A B} (m : M A) (k : A → M B) (st : state) :
  bind m k st =
  match m st with
  | (Ok a, st') => k a st'
  | (Raise e, st') => (Raise e, st')
  end.
Proof. reflexivity. Qed.

Lemma ret_run {A} (a : A) (st : state) : ret a st = (Ok a, st).
Proof. reflexivity. Qed.

Lemma cols_con_run (k : Qc) (df : nat) (l : list string) (st : state) :
  cols_con k df l st =
  (match primera_ausente (heap st !!! df) l with
   | Some c => Raise (KeyError c)
   | None => Ok (filter (λ c, tiene k (heap st !!! df) c = true) l)
   end, st).
Proof.
  unfold cols_con. induction l as [|c l IH]; simpl; [done |].
  rewrite !bind_run, getitem_run.
  destruct (get_col c (heap st !!! df)) as [s|] eqn:E; [| done].
  rewrite ret_run, bind_run, IH.
  destruct (primera_ausente _ l); [done |].
  assert (tiene k (heap st !!! df) c = any (eq_mask k s)) as Ht
    by (unfold tiene; by rewrite E).
  rewrite ret_run, filter_cons, Ht.
  by destruct (any (eq_mask k s)).
Qed.

Lemma n_celdas_run (k : Qc) (df : nat) (l : list string) (st : state) :
  primera_ausente (heap st !!! df) l = None →
  n_celdas_de k df l st = (Ok (celdas k (heap st !!! df) l), st).
Proof.
  unfold n_celdas_de. induction l as [|c l IH]; simpl; [done |].
  rewrite !bind_run, getitem_run.
  destruct (get_col c (heap st !!! df)) as [s|] eqn:E; [| done].
  intros H. by rewrite ret_run, bind_run, (IH H).
Qed.

Lemma setitem_run (df : nat) (c : string) (s : column) (st : state) :
  setitem df c s st =
  (Ok tt, State (alter (set_col c s) df (heap st)) (log st ++ [EvSet df c s])).
Proof. reflexivity. Qed.

Lemma primera_ausente_None (t : table) (l : list string) :
  primera_ausente t l = None ↔ ∀ c, c ∈ l → c ∈ columnas t.
Proof.
  induction l as [|c l IH]; simpl.
  - split; [intros _ c H; inversion H | done].
  - destruct (get_col c t) as [s|] eqn:E.
    + rewrite IH. split.
      * intros H c' Hc'. apply elem_of_cons in Hc' as [-> | Hc'];
          [apply get_col_Some_elem; eauto | by apply H].
      * intros H c' Hc'. apply H. by right.
    + split; [done |]. intros H. apply get_col_None_elem in E.
      exfalso. apply E, H. left.
Qed.

Lemma primera_ausente_Some (t : table) (l : list string) (c : string) :
  primera_ausente t l = Some c → c ∈ l ∧ c ∉ columnas t.
Proof.
  induction l as [|c' l IH]; simpl; [done |].
  destruct (get_col c' t) as [s|] eqn:E.
  - intros H. destruct (IH H). split; [by right | done].
  - intros [= <-]. split; [left | by apply get_col_None_elem].
Qed.

Lemma forM_bucle (g : column → result column) (h : list table)
    (cuerpo : string → M unit) :
  cuerpo_de g h cuerpo →
  ∀ l t lg,
    forM_ l cuerpo (State (h ++ [t]) lg) =
    con_nueva (State h lg) (bucle g (length h) l t lg).
Proof.
  intros Hc l. induction l as [|c l IH]; intros t lg; simpl; [done |].
  rewrite bind_run, Hc.
  destruct (get_col c t) as [s|]; [| done].
  destruct (g s) as [s'|e]; [| done].
  by rewrite IH.
Qed.

Lemma esquema_run (k : Qc) (g : column → result column)
    (cuerpo : nat → string → M unit) (rep : nat → nat → report)
    (df : nat) (cols : option (list string)) (st : state) (t : table) :
  heap st !! df = Some t →
  cuerpo_de g (heap st) (cuerpo (length (heap st))) →
  esquema k cuerpo rep df cols st =
  con_nueva st (resolver k g rep cols (length (heap st)) t (log st)).
Proof.
  intros Hdf Hc. unfold esquema, resolver.
  assert (heap st !!! df = t) as Ht by by apply list_lookup_total_correct.
  rewrite bind_run. unfold copy at 1. rewrite Ht.
  rewrite bind_run. unfold select_dtypes_number at 1. simpl heap.
  rewrite lookup_total_nuevo.
  rewrite bind_run, cols_con_run. simpl heap. rewrite lookup_total_nuevo.
  destruct (primera_ausente t (default (numericas t) cols)) as [c|] eqn:Ep;
    [done |].
  set (cols_k := filter _ _).
  rewrite bind_run, (forM_bucle g _ _ Hc).
  destruct (bucle g (length (heap st)) cols_k t (log st)) as [[[[]|e] t'] lg'];
    unfold con_nueva; simpl; [| done].
  rewrite bind_run, n_celdas_run; simpl heap;
    rewrite (lookup_total_viejo _ _ _ _ Hdf).
  - done.
  - apply primera_ausente_None. intros c Hc'.
    apply (proj1 (primera_ausente_None _ _) Ep).
    by apply list_elem_of_filter in Hc' as [_ ?].
Qed.

Lemma cuerpo_no_aplica (reemplazo : num) (h : list table) :
  cuerpo_de (λ s, Ok (replace menos_6 reemplazo s)) h
    (λ c, s <- getitem (length h) c ;;
          setitem (length h) c (replace menos_6 reemplazo s)).
Proof.
  intros c t lg. rewrite bind_run, getitem_run. simpl heap.
  rewrite lookup_total_nuevo. destruct (get_col c t) as [s|]; [| done].
  rewrite setitem_run. simpl. by rewrite alter_nuevo.
Qed.

Lemma loc_set_run (h : list table) (t : table) (lg : list event)
    (m : list bool) (c : string) (v : num) (s : column) :
  get_col c t = Some s →
  loc_set (length h) m c v (State (h ++ [t]) lg) =
  (Ok tt, State (h ++ [set_col c (mask_assign m v s) t])
                (lg ++ [EvSet (length h) c (mask_assign m v s)])).
Proof.
  intros Hs. unfold loc_set. rewrite bind_run, getitem_run. simpl heap.
  rewrite lookup_total_nuevo, Hs, setitem_run. simpl. by rewrite alter_nuevo.
Qed.

Lemma estadistica_run (f : column → result num) (h : list table) (t : table)
    (lg : list event) (c : string) (s : column) (k : num → M unit) :
  get_col c t = Some s →
  (s' <- getitem (length h) c ;;
   ge0 <- lift (ge0_mask s') ;;
   valores_validos <- loc_get (length h) (not_and (eq_mask menos_8 s) ge0) c ;;
   imputacion <- (if bool_decide (0 < col_len valores_validos)
                  then lift (f valores_validos) else ret (Fin 0%Qc)) ;;
   k imputacion) (State (h ++ [t]) lg) =
  match estadistica f s with
  | Ok v => k v (State (h ++ [t]) lg)
  | Raise e => (Raise e, State (h ++ [t]) lg)
  end.
Proof.
  intros Hs. unfold estadistica.
  rewrite bind_run, getitem_run. simpl heap. rewrite lookup_total_nuevo, Hs.
  rewrite bind_run. unfold lift at 1.
  destruct (ge0_mask s) as [ge0|e]; [| done].
  rewrite bind_run. unfold loc_get at 1.
  rewrite bind_run, getitem_run. simpl heap. rewrite lookup_total_nuevo, Hs.
  rewrite ret_run, bind_run.
  destruct (bool_decide _); [| done].
  unfold lift. by destruct (f _).
Qed.

Lemma cuerpo_confidencial (metodo : string) (valor_bajo : num) (h : list table) :
  metodo ∈ METODOS_CONF →
  cuerpo_de (tratar_col metodo valor_bajo) h
    (tratar_columna (length h) metodo valor_bajo).
Proof.
  intros Hm c t lg. unfold tratar_columna, tratar_col, imputacion.
  rewrite bind_run, getitem_run. simpl heap. rewrite lookup_total_nuevo.
  destruct (get_col c t) as [s|] eqn:Hs; [| done].
  unfold METODOS_CONF in Hm.
  repeat (apply elem_of_cons in Hm as [-> | Hm]); [..| inversion Hm]; simpl.
  - by apply loc_set_run.
  - by apply loc_set_run.
  - rewrite (estadistica_run median h t lg c s _ Hs).
    destruct (estadistica median s); [by apply loc_set_run | done].
  - rewrite (estadistica_run mean h t lg c s _ Hs).
    destruct (estadistica mean s); [by apply loc_set_run | done].
  - by apply loc_set_run.
Qed.

Lemma tratar_no_aplica_run (df : nat) (cols : option (list string))
    (reemplazo : num) (st : state) (t : table) :
  heap st !! df = Some t →
  tratar_no_aplica df cols reemplazo st =
  con_nueva st (no_aplica_tabla cols reemplazo (length (heap st)) t (log st)).
Proof.
  intros Hdf.
  apply (esquema_run menos_6 _
           (λ r c, s <- getitem r c ;; setitem r c (replace menos_6 reemplazo s))
           (λ n m, RepNoAplica n m reemplazo) df cols st t Hdf).
  apply cuerpo_no_aplica.
Qed.

Lemma tratar_confidencial_run (df : nat) (cols : option (list string))
    (metodo : string) (valor_bajo : num) (st : state) (t : table) :
  heap st !! df = Some t →
  metodo ∈ METODOS_CONF →
  tratar_confidencial df cols metodo valor_bajo st =
  con_nueva st
    (confidencial_tabla cols metodo valor_bajo (length (heap st)) t (log st)).
Proof.
  intros Hdf Hm. unfold tratar_confidencial.
  rewrite bool_decide_eq_true_2 by done. simpl negb. cbv iota.
  apply (esquema_run menos_8 _
           (λ r, tratar_columna r metodo valor_bajo)
           (λ n m, RepConfidencial n m metodo) df cols st t Hdf).
  by apply cuerpo_confidencial.
Qed.

Lemma tratar_confidencial_invalido (df : nat) (cols : option (list string))
    (metodo : string) (valor_bajo : num) (st : state) :
  metodo ∉ METODOS_CONF →
  tratar_confidencial df cols metodo valor_bajo st = (Raise (ValueError metodo), st).
Proof.
  intros Hm. unfold tratar_confidencial.
  by rewrite bool_decide_eq_false_2.
Qed.

Lemma marcar_columna_run (sufijo_6 sufijo_8 : string) (h : list table)
    (c : string) (t : table) (lg : list event) :
  marcar_columna (length h) sufijo_6 sufijo_8 c (State (h ++ [t]) lg) =
  con_nueva (State h lg) (marcar_paso (length h) sufijo_6 sufijo_8 c t lg).
Proof.
  unfold marcar_columna, marcar_paso, con_nueva, bind, getitem, setitem, ret.
  simpl heap. rewrite !lookup_total_nuevo.
  destruct (get_col c t) as [s|] eqn:Hs; [| done].
  repeat (progress (simpl; rewrite ?lookup_total_nuevo, ?alter_nuevo, ?Hs)).
  destruct (any (eq_mask menos_6 s)), (any (eq_mask menos_8 s));
    repeat (progress (simpl; rewrite ?lookup_total_nuevo, ?alter_nuevo, ?Hs));
    try done.
  destruct (get_col c (set_col _ _ t)) as [s1|]; simpl; [| done].
  by rewrite alter_nuevo.
Qed.

Lemma sumM_marcar (sufijo_6 sufijo_8 : string) (h : list table) :
  ∀ l t lg,
    sumM (marcar_columna (length h) sufijo_6 sufijo_8) l (State (h ++ [t]) lg) =
    con_nueva (State h lg) (marcar_bucle (length h) sufijo_6 sufijo_8 l t lg).
Proof.
  intros l. induction l as [|c l IH]; intros t lg; simpl; [done |].
  rewrite bind_run, marcar_columna_run.
  destruct (marcar_paso _ _ _ c t lg) as [[[n|e] t1] lg1];
    unfold con_nueva at 1; simpl; [| done].
  rewrite bind_run, IH.
  by destruct (marcar_bucle _ _ _ l t1 lg1) as [[[m|e] t2] lg2].
Qed.

Lemma marcar_censurados_run (df : nat) (cols : option (list string))
    (sufijo_6 sufijo_8 : string) (st : state) (t : table) :
  heap st !! df = Some t →
  marcar_censurados df cols sufijo_6 sufijo_8 st =
  con_nueva st (marcar_tabla cols sufijo_6 sufijo_8 (length (heap st)) t (log st)).
Proof.
  intros Hdf. unfold marcar_censurados, marcar_tabla.
  assert (heap st !!! df = t) as Ht by by apply list_lookup_total_correct.
  rewrite bind_run. unfold copy at 1. rewrite Ht.
  rewrite bind_run. unfold select_dtypes_number at 1. simpl heap.
  rewrite lookup_total_nuevo.
  rewrite bind_run, sumM_marcar.
  by destruct (marcar_bucle _ _ _ _ t (log st)) as [[[n|e] t'] lg'].
Qed.

(** ** What the loops do to a table *)

Section Bucle.
Variable g : column → result column.
Hypothesis g_idem : ∀ s s', g s = Ok s' → g s' = Ok s'.

Lemma bucle_ok (r : nat) (l : list string) :
  ∀ t lg u t' lg',
    bucle g r l t lg = (Ok u, t', lg') →
    columnas t' = columnas t ∧
    (∀ c, c ∈ l →
          ∃ s s', get_col c t = Some s ∧ g s = Ok s' ∧ get_col c t' = Some s') ∧
    (∀ c, c ∉ l → get_col c t' = get_col c t).
Proof.
  induction l as [|c0 l IH]; intros t lg u t' lg'; simpl.
  - intros [= <- <-]. split; [done |]. split; [| done].
    intros c H. inversion H.
  - destruct (get_col c0 t) as [s0|] eqn:E0; [| done].
    destruct (g s0) as [s0'|e] eqn:G0; [| done].
    intros H. apply IH in H as (Hcols & Hin & Hout).
    assert (c0 ∈ columnas t) as Hc0 by (apply get_col_Some_elem; eauto).
    split; [by rewrite Hcols, columnas_set_in |]. split.
    + intros c Hc. destruct (decide (c ∈ l)) as [Hl|Hl].
      * destruct (Hin c Hl) as (s1 & s1' & H1 & G1 & H1').
        rewrite get_set in H1. destruct (decide (c0 = c)) as [->|Hne].
        -- injection H1 as <-. rewrite (g_idem _ _ G0) in G1.
           injection G1 as <-. eauto.
        -- eauto.
      * apply elem_of_cons in Hc as [-> | Hc]; [| done].
        exists s0, s0'. rewrite (Hout c0 Hl), get_set_eq. done.
    + intros c Hc. apply not_elem_of_cons in Hc as [Hne Hl].
      rewrite (Hout c Hl). by apply get_set_ne.
Qed.

Lemma bucle_total (r : nat) (l : list string) :
  ∀ t lg,
    (∀ c, c ∈ l → ∃ s s', get_col c t = Some s ∧ g s = Ok s') →
    ∃ t' lg', bucle g r l t lg = (Ok tt, t', lg').
Proof.
  induction l as [|c0 l IH]; intros t lg H; simpl; [by eauto |].
  destruct (H c0) as (s0 & s0' & Hs0 & Hg0); [left |].
  rewrite Hs0, Hg0.
  apply IH. intros c Hc. rewrite get_set.
  destruct (decide (c0 = c)) as [->|Hne]; [eauto |].
  apply H. by right.
Qed.

(** On any outcome, the loop keeps the column names of the table. *)
Lemma bucle_columnas (r : nat) (l : list string) :
  ∀ t lg res t' lg',
    bucle g r l t lg = (res, t', lg') → columnas t' = columnas t.
Proof.
  induction l as [|c0 l IH]; intros t lg res t' lg'; simpl.
  - by intros [= _ <- _].
  - destruct (get_col c0 t) as [s0|] eqn:E0; [| by intros [= _ <- _]].
    destruct (g s0) as [s0'|e] eqn:G0; [| by intros [= _ <- _]].
    intros H. apply IH in H. rewrite H. apply columnas_set_in.
    apply get_col_Some_elem. eauto.
Qed.

Variable k : Qc.
Variable rep : nat → nat → report.

(** A resolver that returns gave every selected column that holds the
    code to [g], and left every other column as it was. *)
Lemma resolver_ok (cols : option (list string)) (r : nat) (t : table)
    (lg : list event) (r' : nat) (t' : table) (lg' : list event) :
  resolver k g rep cols r t lg = (Ok r', t', lg') →
  r' = r ∧
  columnas t' = columnas t ∧
  (∀ c, c ∈ default (numericas t) cols → c ∈ columnas t) ∧
  ∀ c s, get_col c t = Some s →
    (c ∈ default (numericas t) cols → any (eq_mask k s) = true →
       ∃ s', g s = Ok s' ∧ get_col c t' = Some s') ∧
    (c ∉ default (numericas t) cols ∨ any (eq_mask k s) = false →
       get_col c t' = Some s).
Proof.
  unfold resolver.
  destruct (primera_ausente t _) as [c0|] eqn:Ep; [done |].
  set (l := filter _ _).
  destruct (bucle g r l t lg) as [[[u|e] t1] lg1] eqn:Eb; [| done].
  intros [= <- <- <-]. apply bucle_ok in Eb as (Hcols & Hin & Hout).
  split; [done |]. split; [done |].
  split; [by apply primera_ausente_None |].
  intros c s Hs. split.
  - intros Hc Hk. destruct (Hin c) as (s1 & s1' & H1 & G1 & H1').
    + apply list_elem_of_filter. split; [| done].
      unfold tiene. by rewrite Hs.
    + rewrite Hs in H1. injection H1 as <-. eauto.
  - intros H. rewrite Hout; [done |]. intros Hl.
    apply list_elem_of_filter in Hl as [Hk Hc]. unfold tiene in Hk.
    rewrite Hs in Hk. destruct H as [H | H]; [done | congruence].
Qed.

(** The resolver returns as soon as every selected name is a column and
    [g] accepts the columns that hold the code. *)
Lemma resolver_total (cols : option (list string)) (r : nat) (t : table)
    (lg : list event) :
  (∀ c, c ∈ default (numericas t) cols → c ∈ columnas t) →
  (∀ c s, c ∈ default (numericas t) cols → get_col c t = Some s →
          any (eq_mask k s) = true → ∃ s', g s = Ok s') →
  ∃ t' lg', resolver k g rep cols r t lg = (Ok r, t', lg').
Proof.
  intros Hcols Hg. unfold resolver.
  rewrite (proj2 (primera_ausente_None _ _) Hcols).
  set (l := filter _ _).
  destruct (bucle_total r l t lg) as (t' & lg' & ->); [| by eauto].
  intros c Hc. apply list_elem_of_filter in Hc as [Hk Hc].
  unfold tiene in Hk. destruct (get_col c t) as [s|] eqn:Hs; [| done].
  destruct (Hg c s Hc Hs Hk) as [s' Hs']. eauto.
Qed.

(** A missing name stops the resolver before any column is rewritten:
    the copy still equals the input and nothing was logged. *)
Lemma resolver_ausente (cols : option (list string)) (r : nat) (t : table)
    (lg : list event) (c : string) :
  primera_ausente t (default (numericas t) cols) = Some c →
  resolver k g rep cols r t lg = (Raise (KeyError c), t, lg).
Proof. intros H. unfold resolver. by rewrite H. Qed.

End Bucle.

(** ** The eligible values *)

Lemma select_list_cons {A} (b : bool) (m : list bool) (x : A) (xs : list A) :
  select_list (b :: m) (x :: xs) =
  if b then x :: select_list m xs else select_list m xs.
Proof.
  unfold select_list. simpl. rewrite filter_cons. simpl. by destruct b.
Qed.

(** The cells the code selects, [~mascara & (s >= 0)], are the cells
    whose value is eligible. *)
Lemma elegible_num (q : Qc) :
  negb (num_eq menos_8 (Fin q)) && num_ge0 (Fin q) = true ↔ elegible q.
Proof.
  unfold elegible. simpl.
  rewrite andb_true_iff, negb_true_iff, bool_decide_eq_false, bool_decide_eq_true.
  split.
  - intros [H8 H0]. split; [| split; [done | by apply Qcle_not_lt]].
    intros ->. by apply H0.
  - intros (_ & H8 & H0). split; [done | by apply Qcnot_lt_le].
Qed.

Lemma elegible_bool (b : bool) : elegible (Qc_of_bool b).
Proof.
  unfold elegible. destruct b; repeat split; intros H; vm_compute in H;
    discriminate H.
Qed.

Lemma validos_nums (xs : list num) :
  let vv := select_list (not_and (map (num_eq menos_8) xs) (map num_ge0 xs)) xs in
  finitos vv = filter elegible (finitos xs) ∧
  length vv = length (filter elegible (finitos xs)).
Proof.
  unfold finitos, not_and. induction xs as [|x xs [IH1 IH2]]; [done |].
  simpl. rewrite select_list_cons. destruct x as [q|]; simpl.
  - rewrite filter_cons. pose proof (elegible_num q) as He. simpl in He.
    destruct (decide (elegible q)) as [Hq|Hq]; rewrite <- He in Hq;
      destruct (negb _ && _); try done.
    simpl. split; f_equal; assumption.
  - done.
Qed.

Lemma validos_bools (bs : list bool) :
  select_list
    (not_and (map (λ b, bool_decide (Qc_of_bool b = menos_8)) bs)
             (map (λ _, true) bs)) bs = bs ∧
  filter elegible (map Qc_of_bool bs) = map Qc_of_bool bs.
Proof.
  unfold not_and. induction bs as [|b bs [IH1 IH2]]; [done |].
  simpl. rewrite select_list_cons, filter_cons.
  rewrite decide_True by apply elegible_bool.
  rewrite codigo_no_bool by by right. simpl. split; f_equal; assumption.
Qed.

Lemma validos_objs (os : list obj) (ge0 : list bool) :
  objs_ge0 os = Ok ge0 →
  let vv := select_list (not_and (map (obj_eq menos_8) os) ge0) os in
  ∃ xs, objs_nums vv = Ok xs ∧
        finitos xs = filter elegible (omap valor_de os) ∧
        length vv = length (filter elegible (omap valor_de os)).
Proof.
  unfold not_and. revert ge0.
  induction os as [|o os IH]; intros ge0; simpl.
  - intros [= <-]. by exists [].
  - destruct (obj_ge0 o) as [b|] eqn:Eo; [| done].
    destruct (objs_ge0 os) as [bs|] eqn:Eos; [| done].
    intros [= <-]. destruct (IH bs eq_refl) as (xs & Hxs & Hfin & Hlen).
    simpl. rewrite select_list_cons.
    destruct o as [?|[q|]|b']; simpl in *; try done.
    + injection Eo as <-. rewrite filter_cons.
      pose proof (elegible_num q) as He. simpl in He.
      destruct (decide (elegible q)) as [Hq|Hq]; rewrite <- He in Hq;
        destruct (negb _ && _); simpl; try done; [| by eauto].
      rewrite Hxs. simpl.
      eexists. split; [done |]. unfold finitos in *. simpl.
      split; f_equal; assumption.
    + injection Eo as <-. simpl. eauto.
    + injection Eo as <-. rewrite codigo_no_bool by by right. simpl.
      rewrite Hxs, filter_cons, decide_True by apply elegible_bool.
      eexists. split; [done |]. unfold finitos in *. simpl.
      split; f_equal; assumption.
Qed.

Lemma validos_elegibles (s : column) (ge0 : list bool) :
  ge0_mask s = Ok ge0 →
  let vv := select (not_and (eq_mask menos_8 s) ge0) s in
  col_len vv = length (elegibles s) ∧
  ∃ xs, col_nums vv = Ok xs ∧ finitos xs = elegibles s.
Proof.
  unfold elegibles. destruct s as [xs|bs|os]; simpl.
  - intros [= <-]. destruct (validos_nums xs) as [H1 H2]. eauto.
  - intros [= <-]. destruct (validos_bools bs) as [-> ->].
    rewrite length_map. split; [done |]. eexists. split; [done |].
    unfold finitos. induction bs as [|b bs IH]; simpl; [done |].
    f_equal. exact IH.
  - intros H. destruct (validos_objs os ge0 H) as (xs & ? & ? & ?). eauto.
Qed.

Lemma estadistica_elegibles (f : column → result num) (h : list Qc → num)
    (s : column) (v : num) :
  (∀ s', f s' = match col_nums s' with
                | Ok xs => Ok (h (finitos xs))
                | Raise e => Raise e
                end) →
  estadistica f s = Ok v →
  v = match elegibles s with [] => Fin 0%Qc | _ => h (elegibles s) end.
Proof.
  intros Hf. unfold estadistica.
  destruct (ge0_mask s) as [ge0|] eqn:Eg; [| done].
  destruct (validos_elegibles s ge0 Eg) as (Hlen & xs & Hxs & Hfin).
  rewrite Hlen, Hf, Hxs, Hfin.
  destruct (elegibles s) as [|q l]; simpl; by intros [= <-].
Qed.

Lemma round1_cero : round1 (Fin 0%Qc) = Fin 0%Qc.
Proof. por_calculo. Qed.

(** What the code writes is what the specification describes. *)
Lemma imputacion_spec (metodo : string) (valor_bajo : num) (s : column) (v : num) :
  metodo = "mediana" ∨ metodo = "media" →
  imputacion metodo valor_bajo s = Ok v →
  v = imputacion_segun_spec metodo s.
Proof.
  unfold imputacion, imputacion_segun_spec. intros [-> | ->]; simpl.
  - intros H. apply (estadistica_elegibles median mediana_de) in H; [| done].
    by destruct (elegibles s).
  - destruct (estadistica mean s) as [w|] eqn:E; [| done]. intros [= <-].
    apply (estadistica_elegibles mean media_de) in E; [| done]. subst w.
    destruct (elegibles s); [apply round1_cero | done].
Qed.

(** ** The treatment of one column *)

Lemma tratar_col_replace (metodo : string) (valor_bajo : num) (s s' : column) :
  tratar_col metodo valor_bajo s = Ok s' ↔
  ∃ v, imputacion metodo valor_bajo s = Ok v ∧ s' = replace menos_8 v s.
Proof.
  unfold tratar_col.
  destruct (imputacion metodo valor_bajo s) as [v|e].
  - rewrite mask_assign_eq_mask.
    split; [intros [= <-]; eauto | intros (v' & [= <-] & ->); done].
  - split; [done | intros (v' & [=] & _)].
Qed.

Lemma estadistica_total (f : column → result num) (s : column) :
  (∀ s', sin_texto s' = true → ∃ v, f s' = Ok v) →
  sin_texto s = true → ∃ v, estadistica f s = Ok v.
Proof.
  intros Hf Hs. unfold estadistica.
  destruct (proj1 (ge0_mask_sin_texto s) Hs) as [ge0 ->].
  destruct (bool_decide _); [| by eauto].
  by apply Hf, sin_texto_select.
Qed.

Lemma median_total (s : column) : sin_texto s = true → ∃ v, median s = Ok v.
Proof.
  intros H. unfold median. destruct (col_nums_sin_texto s H) as [xs ->]. eauto.
Qed.

Lemma mean_total (s : column) : sin_texto s = true → ∃ v, mean s = Ok v.
Proof.
  intros H. unfold mean. destruct (col_nums_sin_texto s H) as [xs ->]. eauto.
Qed.

Lemma imputacion_total (metodo : string) (valor_bajo : num) (s : column) :
  sin_texto s = true → ∃ v, imputacion metodo valor_bajo s = Ok v.
Proof.
  intros Hs. unfold imputacion.
  repeat (destruct (decide _); [by eauto |]).
  destruct (decide _).
  - by apply estadistica_total; [apply median_total |].
  - destruct (decide _); [| by eauto].
    destruct (estadistica_total mean s mean_total Hs) as [v ->]. eauto.
Qed.

Lemma imputacion_sin_texto (metodo : string) (valor_bajo : num) (s : column) (v : num) :
  metodo = "mediana" ∨ metodo = "media" →
  imputacion metodo valor_bajo s = Ok v → sin_texto s = true.
Proof.
  intros Hm H. apply ge0_mask_sin_texto.
  destruct (ge0_mask s) as [ge0|e] eqn:E; [by eauto |].
  unfold imputacion, estadistica in H. rewrite E in H.
  by destruct Hm as [-> | ->].
Qed.

Lemma imputacion_otros (metodo : string) (valor_bajo : num) (s s' : column) :
  metodo ≠ "mediana" → metodo ≠ "media" →
  imputacion metodo valor_bajo s' = imputacion metodo valor_bajo s.
Proof.
  intros H1 H2. unfold imputacion.
  by repeat (destruct (decide _); [done |]).
Qed.

(** Treating a treated column again changes nothing. *)
Lemma tratar_col_idem (metodo : string) (valor_bajo : num) (s s' : column) :
  tratar_col metodo valor_bajo s = Ok s' → tratar_col metodo valor_bajo s' = Ok s'.
Proof.
  intros H. pose proof H as H0.
  apply tratar_col_replace in H as (v & Hv & ->).
  destruct (num_eq menos_8 v) eqn:E8.
  - destruct v as [q|]; [| done]. apply bool_decide_eq_true in E8 as ->.
    rewrite replace_mismo in * by (by right). done.
  - apply tratar_col_replace.
    assert (∃ v', imputacion metodo valor_bajo (replace menos_8 v s) = Ok v')
      as [v' Hv'].
    { destruct (decide (metodo = "mediana")) as [Hm|Hm];
        [| destruct (decide (metodo = "media")) as [Hm'|Hm']].
      - apply imputacion_total, sin_texto_replace.
        apply (imputacion_sin_texto metodo valor_bajo s v); auto.
      - apply imputacion_total, sin_texto_replace.
        apply (imputacion_sin_texto metodo valor_bajo s v); auto.
      - rewrite (imputacion_otros _ _ s) by done. eauto. }
    exists v'. split; [done |]. symmetry.
    by apply replace_sin_codigo, replace_quita.
Qed.

Lemma tratar_col_numerica (metodo : string) (valor_bajo : num) (s s' : column) :
  tratar_col metodo valor_bajo s = Ok s' → es_numerica s' = es_numerica s.
Proof.
  intros H. apply tratar_col_replace in H as (v & _ & ->).
  apply es_numerica_replace.
Qed.

Lemma tratar_col_len (metodo : string) (valor_bajo : num) (s s' : column) :
  tratar_col metodo valor_bajo s = Ok s' → col_len s' = col_len s.
Proof.
  intros H. apply tratar_col_replace in H as (v & _ & ->).
  apply col_len_replace.
Qed.

Lemma filter_vacio {A} (P : A → Prop) `{∀ x, Decision (P x)} (l : list A) :
  (∀ x, x ∈ l → ¬ P x) → filter P l = [].
Proof.
  induction l as [|a l IH]; intros Hl; [done |].
  rewrite filter_cons, decide_False by (apply Hl; left).
  apply IH. intros x Hx. apply Hl. by right.
Qed.

Lemma numericas_set_col (c : string) (s s' : column) (t : table) :
  get_col c t = Some s → es_numerica s' = es_numerica s →
  numericas (set_col c s' t) = numericas t.
Proof.
  intros Hs Hn. induction t as [|[n s0] t IH]; simpl in *; [done |].
  destruct (decide (n = c)) as [->|Hne].
  - injection Hs as ->. by rewrite !numericas_cons, Hn.
  - rewrite !numericas_cons, (IH Hs). done.
Qed.

Lemma bucle_numericas (g : column → result column) (r : nat) (l : list string) :
  (∀ s s', g s = Ok s' → es_numerica s' = es_numerica s) →
  ∀ t lg res t' lg',
    bucle g r l t lg = (res, t', lg') → numericas t' = numericas t.
Proof.
  intros Hg. induction l as [|c0 l IH]; intros t lg res t' lg'; simpl.
  - by intros [= _ <- _].
  - destruct (get_col c0 t) as [s0|] eqn:E0; [| by intros [= _ <- _]].
    destruct (g s0) as [s0'|e] eqn:G0; [| by intros [= _ <- _]].
    intros H. apply IH in H. rewrite H.
    apply (numericas_set_col _ s0); [done | by apply Hg].
Qed.

(** A loop whose [g] returns each column as it is leaves the table as it
    is. *)
Lemma bucle_identidad (g : column → result column) (r : nat) (l : list string) :
  (∀ s, g s = Ok s) →
  ∀ t lg, (∀ c, c ∈ l → c ∈ columnas t) →
          ∃ lg', bucle g r l t lg = (Ok tt, t, lg').
Proof.
  intros Hg. induction l as [|c0 l IH]; intros t lg Hl; simpl; [by eauto |].
  destruct (proj2 (get_col_Some_elem c0 t)) as [s0 Hs0]; [apply Hl; left |].
  rewrite Hs0, Hg, (set_col_id _ _ _ Hs0). apply IH.
  intros c Hc. apply Hl. by right.
Qed.

Lemma resolver_numericas (k : Qc) (g : column → result column)
    (rep : nat → nat → report) (cols : option (list string)) (r : nat)
    (t : table) (lg : list event) (res : result nat) (t' : table)
    (lg' : list event) :
  (∀ s s', g s = Ok s' → es_numerica s' = es_numerica s) →
  resolver k g rep cols r t lg = (res, t', lg') →
  numericas t' = numericas t ∧ columnas t' = columnas t.
Proof.
  intros Hg. unfold resolver.
  destruct (primera_ausente t _) as [c0|]; [by intros [= _ <- _] |].
  set (l := filter _ _).
  destruct (bucle g r l t lg) as [[[u|e] t1] lg1] eqn:Eb; intros [= _ <- _].
  - split; [by apply (bucle_numericas g r l Hg t lg _ _ _ Eb) |].
    by apply (bucle_columnas g r l t lg _ _ _ Eb).
  - split; [by apply (bucle_numericas g r l Hg t lg _ _ _ Eb) |].
    by apply (bucle_columnas g r l t lg _ _ _ Eb).
Qed.

(** ** The not-applicable pass on a table *)

Lemma no_aplica_col (cols : option (list string)) (reemplazo : num)
    (r : nat) (t : table) (lg : list event) (r' : nat) (t' : table)
    (lg' : list event) :
  no_aplica_tabla cols reemplazo r t lg = (Ok r', t', lg') →
  r' = r ∧ columnas t' = columnas t ∧ numericas t' = numericas t ∧
  (∀ c, c ∈ default (numericas t) cols → c ∈ columnas t) ∧
  ∀ c s, get_col c t = Some s →
    get_col c t' =
    Some (if decide (c ∈ default (numericas t) cols ∧
                     any (eq_mask menos_6 s) = true)
          then replace menos_6 reemplazo s else s).
Proof.
  intros H. pose proof H as H0.
  apply resolver_numericas in H0 as [Hn _];
    [| intros s s' [= <-]; apply es_numerica_replace].
  apply resolver_ok in H as (-> & Hc & Hp & Hcol);
    [| intros s s'; apply replace_ok_idem; by left].
  repeat (split; [done |]). intros c s Hs.
  destruct (Hcol c s Hs) as [Hin Hout]. case_decide as Hd.
  - destruct Hd as [Hd1 Hd2]. destruct (Hin Hd1 Hd2) as (s' & [= <-] & ?). done.
  - apply Hout. destruct (decide (c ∈ default (numericas t) cols));
      [right | by left].
    destruct (any (eq_mask menos_6 s)); [| done]. exfalso. by apply Hd.
Qed.

(** After a pass with a replacement other than -6, no selected column
    holds -6. *)
Lemma no_aplica_sin_6 (cols : option (list string)) (reemplazo : num)
    (r : nat) (t : table) (lg : list event) (r' : nat) (t' : table)
    (lg' : list event) :
  no_aplica_tabla cols reemplazo r t lg = (Ok r', t', lg') →
  reemplazo ≠ Fin menos_6 →
  ∀ c, c ∈ default (numericas t) cols → tiene menos_6 t' c = false.
Proof.
  intros H Hr c Hc. apply no_aplica_col in H as (_ & _ & _ & Hp & Hcol).
  destruct (proj2 (get_col_Some_elem c t) (Hp c Hc)) as [s Hs].
  unfold tiene. rewrite (Hcol c s Hs). case_decide as Hd.
  - apply replace_quita. destruct reemplazo as [q|]; [| done]. simpl.
    apply bool_decide_eq_false. congruence.
  - destruct (any (eq_mask menos_6 s)); [| done]. exfalso. by apply Hd.
Qed.

(** A pass whose replacement is -6 itself changes nothing. *)
Lemma no_aplica_mismo (cols : option (list string))
    (r : nat) (t : table) (lg : list event) (r' : nat) (t' : table)
    (lg' : list event) :
  no_aplica_tabla cols (Fin menos_6) r t lg = (Ok r', t', lg') → t' = t.
Proof.
  unfold no_aplica_tabla, resolver.
  destruct (primera_ausente t _) as [c0|] eqn:Ep; [done |].
  set (l := filter _ _).
  destruct (bucle_identidad (λ s, Ok (replace menos_6 (Fin menos_6) s))
              r l (λ s, f_equal Ok (replace_mismo menos_6 s (or_introl eq_refl)))
              t lg) as [lg1 ->].
  - intros c Hc. apply list_elem_of_filter in Hc as [_ Hc].
    by apply (proj1 (primera_ausente_None _ _) Ep).
  - by intros [= _ <- _].
Qed.

Lemma no_aplica_tabla_idem (cols : option (list string)) (reemplazo : num)
    (r : nat) (t : table) (lg : list event) (r1 : nat) (t1 : table)
    (lg1 : list event) (r2 : nat) (lg2 : list event) :
  no_aplica_tabla cols reemplazo r t lg = (Ok r1, t1, lg1) →
  ∃ lg3, no_aplica_tabla cols reemplazo r2 t1 lg2 = (Ok r2, t1, lg3).
Proof.
  intros H. pose proof H as H0.
  apply no_aplica_col in H0 as (_ & Hc & Hn & Hp & Hcol).
  unfold no_aplica_tabla, resolver. rewrite Hn.
  rewrite (proj2 (primera_ausente_None t1 _)); [| by rewrite Hc].
  set (l := filter _ _).
  destruct (decide (reemplazo = Fin menos_6)) as [->|Hr].
  - destruct (bucle_identidad (λ s, Ok (replace menos_6 (Fin menos_6) s))
                r2 l (λ s, f_equal Ok (replace_mismo menos_6 s (or_introl eq_refl)))
                t1 lg2) as [lg3 ->]; [| by eauto].
    intros c Hl. apply list_elem_of_filter in Hl as [_ Hl].
    rewrite Hc. by apply Hp.
  - assert (l = []) as ->; [| simpl; by eauto].
    apply filter_vacio. intros c Hl.
    by rewrite (no_aplica_sin_6 _ _ _ _ _ _ _ _ H Hr c Hl).
Qed.

(** ** Outcomes of the calls *)

Lemma no_aplica_resultado (df : nat) (cols : option (list string))
    (reemplazo : num) (st : state) (t : table) (res : result nat) (st' : state) :
  heap st !! df = Some t →
  tratar_no_aplica df cols reemplazo st = (res, st') →
  ∃ t' lg',
    st' = State (heap st ++ [t']) lg' ∧
    no_aplica_tabla cols reemplazo (length (heap st)) t (log st) = (res, t', lg').
Proof.
  intros Hdf. rewrite (tratar_no_aplica_run _ _ _ _ t Hdf).
  destruct (no_aplica_tabla _ _ _ _ _) as [[res0 t'] lg'].
  unfold con_nueva. simpl. intros [= <- <-]. eauto.
Qed.

Lemma confidencial_resultado (df : nat) (cols : option (list string))
    (metodo : string) (valor_bajo : num) (st : state) (t : table)
    (r : nat) (st' : state) :
  heap st !! df = Some t →
  tratar_confidencial df cols metodo valor_bajo st = (Ok r, st') →
  metodo ∈ METODOS_CONF ∧
  ∃ t' lg',
    st' = State (heap st ++ [t']) lg' ∧
    confidencial_tabla cols metodo valor_bajo (length (heap st)) t (log st)
      = (Ok r, t', lg').
Proof.
  intros Hdf. destruct (decide (metodo ∈ METODOS_CONF)) as [Hm|Hm].
  - rewrite (tratar_confidencial_run _ _ _ _ _ t Hdf Hm).
    destruct (confidencial_tabla _ _ _ _ _ _) as [[res0 t'] lg'].
    unfold con_nueva. simpl. intros [= <- <-]. eauto.
  - by rewrite tratar_confidencial_invalido.
Qed.

Lemma confidencial_tabla_col (cols : option (list string)) (metodo : string)
    (valor_bajo : num) (r : nat) (t : table) (lg : list event) (r' : nat)
    (t' : table) (lg' : list event) :
  confidencial_tabla cols metodo valor_bajo r t lg = (Ok r', t', lg') →
  r' = r ∧ columnas t' = columnas t ∧ numericas t' = numericas t ∧
  ∀ c s, get_col c t = Some s →
    ∃ s', get_col c t' = Some s' ∧
          paso_8 metodo valor_bajo (default (numericas t) cols) c s = Ok s'.
Proof.
  intros H. pose proof H as H0.
  apply resolver_numericas in H0 as [Hn _]; [| apply tratar_col_numerica].
  apply resolver_ok in H as (-> & Hc & Hp & Hcol); [| apply tratar_col_idem].
  repeat (split; [done |]). intros c s Hs.
  destruct (Hcol c s Hs) as [Hin Hout]. unfold paso_8. case_decide as Hd.
  - destruct Hd as [Hd1 Hd2]. destruct (Hin Hd1 Hd2) as (s' & ? & ?). eauto.
  - exists s. split; [| done]. apply Hout.
    destruct (decide (c ∈ default (numericas t) cols)); [right | by left].
    destruct (any (eq_mask menos_8 s)); [| done]. exfalso. by apply Hd.
Qed.

Lemma print_run (rp : report) (st : state) :
  print rp st = (Ok tt, State (heap st) (log st ++ [EvPrint rp])).
Proof. reflexivity. Qed.

(** Every call leaves the tables of the store it started from where they
    were and as they were; it only adds tables. *)
Lemma ejecutar_extiende (R : llamada) (df : nat) (cols : option (list string))
    (st : state) (t : table) (res : result nat) (st' : state) :
  heap st !! df = Some t →
  ejecutar R df cols st = (res, st') →
  ∃ nuevas, heap st' = heap st ++ nuevas.
Proof.
  intros Hdf. destruct R as [reemplazo|metodo vb|metodo vb reemplazo]; simpl.
  - intros H. apply (no_aplica_resultado _ _ _ _ t) in H as (t' & lg' & -> & _);
      [| done]. by exists [t'].
  - destruct (decide (metodo ∈ METODOS_CONF)) as [Hm|Hm].
    + rewrite (tratar_confidencial_run _ _ _ _ _ t Hdf Hm).
      intros [= _ <-]. simpl. by eexists [_].
    + rewrite tratar_confidencial_invalido by done. intros [= _ <-].
      exists []. by rewrite app_nil_r.
  - unfold tratar_censurados. rewrite bind_run, print_run, bind_run.
    rewrite (tratar_no_aplica_run df cols reemplazo (State (heap st) _) t Hdf).
    simpl heap. simpl log.
    destruct (no_aplica_tabla _ _ _ _ _) as [[[r1|e] t1] lg1] eqn:E1;
      unfold con_nueva; simpl; [| intros [= _ <-]; by exists [t1]].
    apply no_aplica_col in E1 as (-> & _).
    rewrite bind_run.
    destruct (decide (metodo ∈ METODOS_CONF)) as [Hm|Hm].
    + rewrite (tratar_confidencial_run _ _ _ _ _ t1); simpl;
        [| by apply list_lookup_middle | done].
      destruct (confidencial_tabla _ _ _ _ _ _) as [[[r2|e] t2] lg2];
        unfold con_nueva; simpl; intros [= _ <-]; simpl;
        exists [t1; t2]; by rewrite <- app_assoc.
    + rewrite tratar_confidencial_invalido by done. intros [= _ <-].
      by exists [t1].
Qed.

(** What a resolver returns: a table the store did not hold before, with
    the columns of the input in their order, each treated on its own. *)
Lemma ejecutar_resultado (R : llamada) (df : nat) (cols : option (list string))
    (st : state) (t : table) (r : nat) (st' : state) :
  heap st !! df = Some t →
  ejecutar R df cols st = (Ok r, st') →
  length (heap st) ≤ r ∧
  ∃ t', heap st' !! r = Some t' ∧
        columnas t' = columnas t ∧ numericas t' = numericas t ∧
        ∀ c s, get_col c t = Some s →
          ∃ s', get_col c t' = Some s' ∧
                columna_tratada R (default (numericas t) cols) c s = Ok s'.
Proof.
  intros Hdf. destruct R as [reemplazo|metodo vb|metodo vb reemplazo]; simpl.
  - intros H. apply (no_aplica_resultado _ _ _ _ t) in H as (t' & lg' & -> & H);
      [| done].
    apply no_aplica_col in H as (-> & Hc & Hn & _ & Hcol).
    split; [done |]. exists t'. simpl.
    split; [by apply list_lookup_middle |]. repeat (split; [done |]).
    intros c s Hs. exists (paso_6 reemplazo (default (numericas t) cols) c s).
    split; [by apply Hcol | done].
  - intros H.
    apply (confidencial_resultado _ _ _ _ _ t) in H as (_ & t' & lg' & -> & H);
      [| done].
    apply confidencial_tabla_col in H as (-> & Hc & Hn & Hcol).
    split; [done |]. exists t'. simpl.
    split; [by apply list_lookup_middle | done].
  - unfold tratar_censurados. rewrite bind_run, print_run, bind_run.
    rewrite (tratar_no_aplica_run df cols reemplazo (State (heap st) _) t Hdf).
    simpl heap. simpl log.
    destruct (no_aplica_tabla _ _ _ _ _) as [[[r1|e] t1] lg1] eqn:E1;
      unfold con_nueva; simpl; [| done].
    apply no_aplica_col in E1 as (-> & Hc1 & Hn1 & _ & Hcol1).
    rewrite bind_run.
    destruct (tratar_confidencial _ _ _ _ _) as [[r2|e] st2] eqn:E2; [| done].
    apply (confidencial_resultado _ _ _ _ _ t1) in E2
      as (_ & t2 & lg2 & -> & E2); [| by apply list_lookup_middle].
    apply confidencial_tabla_col in E2 as (-> & Hc2 & Hn2 & Hcol2).
    rewrite bind_run, print_run. simpl. intros [= <- <-]. simpl.
    rewrite length_app. simpl. split; [lia |]. exists t2.
    split; [apply list_lookup_middle; rewrite length_app; simpl; lia |].
    split; [congruence |]. split; [congruence |].
    intros c s Hs. destruct (Hcol2 c _ (Hcol1 c s Hs)) as (s' & Hs' & Hp).
    exists s'. split; [done |]. by rewrite Hn1 in Hp.
Qed.

(** Per column, a treatment keeps the length and the kind, changes
    nothing in a column without the codes, and moves no cell. *)
Lemma vista_replace (k : Qc) (v : num) (s : column) :
  vista (replace k v s) = map (λ o, if obj_eq k o then ONum v else o) (vista s).
Proof.
  destruct s as [xs|bs|os]; simpl.
  - rewrite !map_map. apply map_ext. intros x. simpl. by destruct (num_eq k x).
  - destruct (any _) eqn:E; simpl; rewrite map_map.
    + apply map_ext. intros b. simpl. by destruct (bool_decide _).
    + apply any_false in E. induction bs as [|b bs IH]; simpl in *; [done |].
      apply Forall_cons in E as [-> E]. f_equal. by apply IH.
  - done.
Qed.

Lemma paso_6_len (reemplazo : num) (sel : list string) (c : string) (s : column) :
  col_len (paso_6 reemplazo sel c s) = col_len s.
Proof. unfold paso_6. case_decide; [apply col_len_replace | done]. Qed.

Lemma paso_8_len (metodo : string) (vb : num) (sel : list string) (c : string)
    (s s' : column) :
  paso_8 metodo vb sel c s = Ok s' → col_len s' = col_len s.
Proof.
  unfold paso_8. case_decide; [apply tratar_col_len | by intros [= <-]].
Qed.

Lemma columna_tratada_len (R : llamada) (sel : list string) (c : string)
    (s s' : column) :
  columna_tratada R sel c s = Ok s' → col_len s' = col_len s.
Proof.
  destruct R; simpl.
  - intros [= <-]. apply paso_6_len.
  - apply paso_8_len.
  - intros H. apply paso_8_len in H. by rewrite H, paso_6_len.
Qed.

Lemma paso_6_vista (reemplazo : num) (sel : list string) (c : string)
    (s : column) (i : nat) (o : obj) :
  vista s !! i = Some o → obj_eq menos_6 o = false →
  vista (paso_6 reemplazo sel c s) !! i = Some o.
Proof.
  intros Hi Ho. unfold paso_6. case_decide; [| done].
  by rewrite vista_replace, list_lookup_fmap, Hi; simpl; rewrite Ho.
Qed.

Lemma paso_8_vista (metodo : string) (vb : num) (sel : list string)
    (c : string) (s s' : column) (i : nat) (o : obj) :
  paso_8 metodo vb sel c s = Ok s' →
  vista s !! i = Some o → obj_eq menos_8 o = false →
  vista s' !! i = Some o.
Proof.
  unfold paso_8. intros H Hi Ho. case_decide; [| by injection H as <-].
  apply tratar_col_replace in H as (v & _ & ->).
  by rewrite vista_replace, list_lookup_fmap, Hi; simpl; rewrite Ho.
Qed.

Lemma columna_tratada_vista (R : llamada) (sel : list string) (c : string)
    (s s' : column) (i : nat) (o : obj) :
  columna_tratada R sel c s = Ok s' →
  vista s !! i = Some o →
  obj_eq menos_6 o = false → obj_eq menos_8 o = false →
  vista s' !! i = Some o.
Proof.
  destruct R; simpl; intros H Hi H6 H8.
  - injection H as <-. by apply paso_6_vista.
  - by apply (paso_8_vista _ _ _ _ _ _ _ _ H).
  - apply (paso_8_vista _ _ _ _ _ _ _ _ H); [| done]. by apply paso_6_vista.
Qed.

Lemma columna_tratada_fuera (R : llamada) (sel : list string) (c : string)
    (s s' : column) :
  columna_tratada R sel c s = Ok s' → c ∉ sel → s' = s.
Proof.
  intros H Hc.
  assert (∀ r x, paso_6 r sel c x = x) as H6.
  { intros r x. unfold paso_6. rewrite decide_False; [done | by intros [? _]]. }
  assert (∀ m v x, paso_8 m v sel c x = Ok x) as H8.
  { intros m v x. unfold paso_8. rewrite decide_False; [done | by intros [? _]]. }
  destruct R; simpl in H; rewrite ?H6, ?H8 in H; by injection H.
Qed.

Lemma columna_tratada_sin_codigo (R : llamada) (sel : list string) (c : string)
    (s s' : column) :
  columna_tratada R sel c s = Ok s' →
  (∀ k, k ∈ codigos R → any (eq_mask k s) = false) → s' = s.
Proof.
  intros H Hk.
  assert (∀ r, any (eq_mask menos_6 s) = false → paso_6 r sel c s = s) as H6.
  { intros r E. unfold paso_6. rewrite decide_False; [done |].
    intros [_ ?]. congruence. }
  assert (∀ m v, any (eq_mask menos_8 s) = false → paso_8 m v sel c s = Ok s)
    as H8.
  { intros m v E. unfold paso_8. rewrite decide_False; [done |].
    intros [_ ?]. congruence. }
  destruct R; simpl in *.
  - rewrite H6 in H by (apply Hk; left). by injection H.
  - rewrite H8 in H by (apply Hk; left). by injection H.
  - rewrite H6 in H by (apply Hk; left).
    rewrite H8 in H by (apply Hk; right; left). by injection H.
Qed.

Lemma columna_tratada_sel (R : llamada) (sel1 sel2 : list string) (c : string)
    (s : column) :
  c ∈ sel1 → c ∈ sel2 →
  columna_tratada R sel1 c s = columna_tratada R sel2 c s.
Proof.
  intros H1 H2.
  assert (∀ r x, paso_6 r sel1 c x = paso_6 r sel2 c x) as H6.
  { intros r x. unfold paso_6. destruct (any (eq_mask menos_6 x)).
    - by rewrite !decide_True.
    - rewrite !decide_False; [done | by intros [_ ?] | by intros [_ ?]]. }
  assert (∀ m v x, paso_8 m v sel1 c x = paso_8 m v sel2 c x) as H8.
  { intros m v x. unfold paso_8. destruct (any (eq_mask menos_8 x)).
    - by rewrite !decide_True.
    - rewrite !decide_False; [done | by intros [_ ?] | by intros [_ ?]]. }
  destruct R; simpl; by rewrite ?H6, ?H8.
Qed.

(** ** The summary *)

Lemma cuenta_le (m : list bool) : cuenta m ≤ length m.
Proof. unfold cuenta. apply length_filter. Qed.

Lemma cuenta_sin_filas (k : Qc) (s : column) :
  col_len s = 0 → cuenta (eq_mask k s) = 0.
Proof.
  intros H. pose proof (cuenta_le (eq_mask k s)) as Hle.
  rewrite length_eq_mask, H in Hle. lia.
Qed.

(** ** The flag marker *)

Lemma append_vacio (c suf : string) : c +:+ suf = c → suf = "".
Proof.
  induction c as [|a c IH]; simpl; [done |]. intros [= H]. by apply IH.
Qed.

Lemma inv_marcar_set (t t' : table) (n : string) (m : list bool) :
  inv_marcar t t' → inv_marcar t (set_col n (BoolCol m) t').
Proof.
  intros H c. rewrite get_set. destruct (decide (n = c)); [eauto | apply H].
Qed.

Lemma inv_marcar_codigo (t t' : table) (c : string) (s : column) (k : Qc) :
  es_codigo k → inv_marcar t t' → get_col c t' = Some s →
  any (eq_mask k s) = true → get_col c t = Some s.
Proof.
  intros Hk Hinv Hs Hany. destruct (Hinv c) as [<- | [m Hm]]; [done |].
  rewrite Hs in Hm. injection Hm as ->.
  by rewrite eq_mask_bool in Hany.
Qed.

Lemma marcar_paso_log (sufijo_6 sufijo_8 : string) (t : table)
    (sel : list string) (r : nat) (c : string) (t0 : table) (lg : list event)
    (res : result nat) (t1 : table) (lg1 : list event) :
  c ∈ sel → inv_marcar t t0 →
  marcar_paso r sufijo_6 sufijo_8 c t0 lg = (res, t1, lg1) →
  inv_marcar t t1 ∧
  ∃ evs, lg1 = lg ++ evs ∧ Forall (es_bandera sufijo_6 sufijo_8 t sel r) evs.
Proof.
  intros Hc Hinv. unfold marcar_paso.
  destruct (get_col c t0) as [s|] eqn:Hs.
  2:{ intros [= _ <- <-]. split; [done |]. exists []. by rewrite app_nil_r. }
  assert (any (eq_mask menos_6 s) = true →
          es_bandera sufijo_6 sufijo_8 t sel r
            (EvSet r (c +:+ sufijo_6) (BoolCol (eq_mask menos_6 s)))) as B6.
  { intros H6. exists c, s, menos_6, sufijo_6, (eq_mask menos_6 s).
    split; [done |]. split; [done |].
    split; [by apply (inv_marcar_codigo t t0 c s menos_6); [left | ..] |].
    split; [by left |]. split; [done |]. intros _. split; [done |].
    by apply any_true. }
  assert (∀ t0' s1, any (eq_mask menos_8 s) = true →
            get_col c t0' = Some s1 → (sufijo_6 ≠ "" → s1 = s) →
            es_bandera sufijo_6 sufijo_8 t sel r
              (EvSet r (c +:+ sufijo_8) (BoolCol (eq_mask menos_8 s1)))) as B8.
  { intros t0' s1 H8 Hs1 Heq. exists c, s, menos_8, sufijo_8, (eq_mask menos_8 s1).
    split; [done |]. split; [done |].
    split; [by apply (inv_marcar_codigo t t0 c s menos_8); [right | ..] |].
    split; [by right |]. split; [done |]. intros Hne.
    rewrite (Heq Hne). split; [done |]. by apply any_true. }
  destruct (any (eq_mask menos_6 s)) eqn:H6, (any (eq_mask menos_8 s)) eqn:H8.
  - destruct (get_col c (set_col _ _ t0)) as [s1|] eqn:Hs1.
    + intros [= _ <- <-]. split; [by do 2 apply inv_marcar_set |].
      eexists [_; _]. split; [by rewrite <- app_assoc |].
      repeat constructor; [by apply B6 |]. apply (B8 _ _ eq_refl Hs1).
      intros Hne. rewrite get_set_ne in Hs1; [congruence |].
      intros Heq. by apply Hne, (append_vacio c).
    + intros [= _ <- <-]. split; [by apply inv_marcar_set |].
      eexists [_]. split; [done |]. repeat constructor. by apply B6.
  - intros [= _ <- <-]. split; [by apply inv_marcar_set |].
    eexists [_]. split; [done |]. repeat constructor. by apply B6.
  - rewrite Hs. intros [= _ <- <-]. split; [by apply inv_marcar_set |].
    eexists [_]. split; [done |]. repeat constructor.
    by apply (B8 t0 s eq_refl Hs).
  - intros [= _ <- <-]. split; [done |]. exists []. by rewrite app_nil_r.
Qed.

Lemma marcar_bucle_log (sufijo_6 sufijo_8 : string) (t : table)
    (sel : list string) (r : nat) (l : list string) :
  (∀ c, c ∈ l → c ∈ sel) →
  ∀ t0 lg res t1 lg1,
    inv_marcar t t0 →
    marcar_bucle r sufijo_6 sufijo_8 l t0 lg = (res, t1, lg1) →
    ∃ evs, lg1 = lg ++ evs ∧ Forall (es_bandera sufijo_6 sufijo_8 t sel r) evs.
Proof.
  induction l as [|c l IH]; intros Hl t0 lg res t1 lg1 Hinv; simpl.
  - intros [= _ _ <-]. exists []. by rewrite app_nil_r.
  - destruct (marcar_paso _ _ _ c t0 lg) as [[res0 t0'] lg0] eqn:Ep.
    apply (marcar_paso_log _ _ t sel) in Ep as (Hinv' & evs0 & -> & Hevs0);
      [| apply Hl; left | done].
    destruct res0 as [n|e].
    2:{ intros [= _ _ <-]. eauto. }
    destruct (marcar_bucle _ _ _ l t0' _) as [[res1 t1'] lg1'] eqn:Eb.
    apply IH in Eb as (evs1 & -> & Hevs1);
      [| intros c' Hc'; apply Hl; by right | done].
    intros H.
    assert (lg1 = (lg ++ evs0) ++ evs1) as ->
      by (destruct res1; congruence).
    exists (evs0 ++ evs1). split; [by rewrite app_assoc |].
    by apply Forall_app.
Qed.

Lemma marcar_censurados_log (df : nat) (cols : option (list string))
    (sufijo_6 sufijo_8 : string) (st : state) (t : table)
    (res : result nat) (st' : state) :
  heap st !! df = Some t →
  marcar_censurados df cols sufijo_6 sufijo_8 st = (res, st') →
  ∃ evs, log st' = log st ++ evs ∧
         Forall (λ e, (∃ n, e = EvPrint (RepMarcar n)) ∨
                      es_bandera sufijo_6 sufijo_8 t (default (numericas t) cols)
                        (length (heap st)) e) evs.
Proof.
  intros Hdf. rewrite (marcar_censurados_run _ _ _ _ _ t Hdf).
  unfold marcar_tabla.
  destruct (marcar_bucle _ _ _ _ t (log st)) as [[res0 t1] lg1] eqn:Eb.
  apply (marcar_bucle_log _ _ t (default (numericas t) cols)) in Eb
    as (evs & -> & Hevs); [| done | by left].
  assert (Forall (λ e, (∃ n, e = EvPrint (RepMarcar n)) ∨
                       es_bandera sufijo_6 sufijo_8 t (default (numericas t) cols)
                         (length (heap st)) e) evs) as Hevs'.
  { eapply Forall_impl; [exact Hevs |]. intros e He. by right. }
  destruct res0 as [n|e]; unfold con_nueva; simpl; intros [= _ <-]; simpl.
  - exists (evs ++ [EvPrint (RepMarcar n)]). split; [by rewrite app_assoc |].
    apply Forall_app. split; [done |]. repeat constructor. eauto.
  - eauto.
Qed.

(** When no flag name is taken, the marker appends the flags. *)
Lemma get_col_app_l (c : string) (t a : table) :
  c ∈ columnas t → get_col c (t ++ a) = get_col c t.
Proof.
  induction t as [|[n s] t IH]; simpl; intros H; [inversion H |].
  destruct (decide (n = c)); [done |]. apply IH.
  apply elem_of_cons in H as [-> | H]; done.
Qed.

Lemma marcar_paso_fresco (sufijo_6 sufijo_8 : string) (r : nat) (c : string)
    (t0 : table) (lg : list event) (s : column) :
  get_col c t0 = Some s →
  let B := (if any (eq_mask menos_6 s)
            then [(c +:+ sufijo_6, BoolCol (eq_mask menos_6 s))] else []) ++
           (if any (eq_mask menos_8 s)
            then [(c +:+ sufijo_8, BoolCol (eq_mask menos_8 s))] else []) in
  NoDup (columnas t0 ++ B.*1) →
  ∃ n lg', marcar_paso r sufijo_6 sufijo_8 c t0 lg = (Ok n, t0 ++ B, lg').
Proof.
  intros Hs B Hnd. unfold marcar_paso. rewrite Hs. subst B.
  assert (c ∈ columnas t0) as Hc by (apply get_col_Some_elem; eauto).
  apply NoDup_app in Hnd as (_ & Hdis & HndB).
  destruct (any (eq_mask menos_6 s)), (any (eq_mask menos_8 s)); simpl in *.
  - assert (c +:+ sufijo_6 ∉ columnas t0) as H6.
    { intros H. apply (Hdis _ H). left. }
    assert (c +:+ sufijo_8 ∉ columnas t0) as H8.
    { intros H. apply (Hdis _ H). right. left. }
    apply NoDup_cons in HndB as [Hne _].
    rewrite (set_col_notin _ _ _ H6).
    rewrite get_col_app_l, Hs by done.
    rewrite set_col_notin.
    + rewrite <- app_assoc. simpl. eauto.
    + unfold columnas. rewrite fmap_app. simpl.
      rewrite elem_of_app, list_elem_of_singleton. intros [H | H]; [done |].
      apply Hne. rewrite H. left.
  - assert (c +:+ sufijo_6 ∉ columnas t0) as H6.
    { intros H. apply (Hdis _ H). left. }
    rewrite (set_col_notin _ _ _ H6). eauto.
  - assert (c +:+ sufijo_8 ∉ columnas t0) as H8.
    { intros H. apply (Hdis _ H). left. }
    rewrite Hs, (set_col_notin _ _ _ H8). eauto.
  - rewrite app_nil_r. eauto.
Qed.

Lemma marcar_bucle_fresco (sufijo_6 sufijo_8 : string) (r : nat) (t : table)
    (l : list string) :
  ∀ acc lg,
    (∀ c, c ∈ l → c ∈ columnas t) →
    NoDup (columnas t ++ acc.*1 ++ (banderas sufijo_6 sufijo_8 t l).*1) →
    ∃ n lg',
      marcar_bucle r sufijo_6 sufijo_8 l (t ++ acc) lg =
      (Ok n, t ++ acc ++ banderas sufijo_6 sufijo_8 t l, lg').
Proof.
  induction l as [|c l IH]; intros acc lg Hl Hnd.
  - simpl. rewrite app_nil_r. eauto.
  - assert (c ∈ columnas t) as Hc by (apply Hl; left).
    destruct (proj2 (get_col_Some_elem c t) Hc) as [s Hs].
    unfold banderas in *. simpl in Hnd |- *. fold (banderas sufijo_6 sufijo_8 t l) in *.
    set (B := banderas_de sufijo_6 sufijo_8 t c) in *.
    rewrite fmap_app in Hnd.
    destruct (marcar_paso_fresco sufijo_6 sufijo_8 r c (t ++ acc) lg s)
      as (n & lg1 & ->).
    + by rewrite get_col_app_l.
    + unfold columnas. rewrite fmap_app.
      unfold B, banderas_de in Hnd. rewrite Hs in Hnd.
      rewrite !app_assoc in Hnd. apply NoDup_app in Hnd as [Hnd _].
      by rewrite <- !app_assoc in Hnd |- *.
    + assert ((t ++ acc) ++
              (if any (eq_mask menos_6 s)
               then [(c +:+ sufijo_6, BoolCol (eq_mask menos_6 s))] else []) ++
              (if any (eq_mask menos_8 s)
               then [(c +:+ sufijo_8, BoolCol (eq_mask menos_8 s))] else [])
              = t ++ (acc ++ B)) as ->.
      { unfold B, banderas_de. by rewrite Hs, <- app_assoc. }
      destruct (IH (acc ++ B) lg1) as (m & lg2 & ->).
      * intros c' Hc'. apply Hl. by right.
      * by rewrite fmap_app, <- app_assoc.
      * rewrite <- app_assoc. eauto.
Qed.

(** ** A selected name that is not a column *)

Lemma primera_ausente_existe (t : table) (l : list string) (c0 : string) :
  c0 ∈ l → c0 ∉ columnas t → ∃ c, primera_ausente t l = Some c.
Proof.
  intros Hl Hc. destruct (primera_ausente t l) as [c|] eqn:E; [eauto |].
  exfalso. apply Hc. by apply (proj1 (primera_ausente_None t l) E).
Qed.

Lemma primera_ausente_partes (t : table) (l : list string) (c : string) :
  primera_ausente t l = Some c →
  ∃ pre post, l = pre ++ c :: post ∧ (∀ x, x ∈ pre → x ∈ columnas t).
Proof.
  induction l as [|c' l IH]; simpl; [done |].
  destruct (get_col c' t) as [s|] eqn:E.
  - intros H. destruct (IH H) as (pre & post & -> & Hpre).
    exists (c' :: pre), post. split; [done |].
    intros x Hx. apply elem_of_cons in Hx as [-> | Hx]; [| by apply Hpre].
    apply get_col_Some_elem. eauto.
  - intros [= <-]. exists [], l. split; [done |]. intros x Hx. inversion Hx.
Qed.

Lemma columnas_set (x n : string) (s : column) (t : table) :
  x ∈ columnas (set_col n s t) ↔ x = n ∨ x ∈ columnas t.
Proof.
  rewrite <- !get_col_Some_elem, get_set.
  destruct (decide (n = x)) as [->|Hne].
  - split; [by left | eauto].
  - split; [by right | intros [-> | H]; done].
Qed.

(** Scanning a column that exists raises nothing, keeps the columns and
    adds at most the two flag names. *)
Lemma marcar_paso_columnas (sufijo_6 sufijo_8 : string) (r : nat) (c : string)
    (t0 : table) (lg : list event) :
  c ∈ columnas t0 →
  ∃ n t1 lg1,
    marcar_paso r sufijo_6 sufijo_8 c t0 lg = (Ok n, t1, lg1) ∧
    (∀ x, x ∈ columnas t0 → x ∈ columnas t1) ∧
    (∀ x, x ∈ columnas t1 →
          x ∈ columnas t0 ∨ x = c +:+ sufijo_6 ∨ x = c +:+ sufijo_8).
Proof.
  intros Hc. destruct (proj2 (get_col_Some_elem c t0) Hc) as [s Hs].
  unfold marcar_paso. rewrite Hs.
  destruct (any (eq_mask menos_6 s)), (any (eq_mask menos_8 s)).
  - destruct (proj2 (get_col_Some_elem c
                       (set_col (c +:+ sufijo_6) (BoolCol (eq_mask menos_6 s)) t0)))
      as [s1 ->]; [apply columnas_set; by right |].
    eexists _, _, _. split; [done |]. split.
    + intros x Hx. apply columnas_set. right. apply columnas_set. by right.
    + intros x Hx. apply columnas_set in Hx as [-> | Hx]; [by auto |].
      apply columnas_set in Hx as [-> | Hx]; by auto.
  - eexists _, _, _. split; [done |]. split.
    + intros x Hx. apply columnas_set. by right.
    + intros x Hx. apply columnas_set in Hx as [-> | Hx]; by auto.
  - rewrite Hs. eexists _, _, _. split; [done |]. split.
    + intros x Hx. apply columnas_set. by right.
    + intros x Hx. apply columnas_set in Hx as [-> | Hx]; by auto.
  - eexists _, _, _. split; [done |]. split; by auto.
Qed.

Lemma marcar_bucle_ausente (sufijo_6 sufijo_8 : string) (r : nat) (c : string)
    (post : list string) (pre : list string) :
  ∀ t0 lg,
    (∀ x, x ∈ pre → x ∈ columnas t0) →
    c ∉ columnas t0 →
    (∀ c', c' ∈ pre → c ≠ c' +:+ sufijo_6 ∧ c ≠ c' +:+ sufijo_8) →
    ∃ t1 lg1,
      marcar_bucle r sufijo_6 sufijo_8 (pre ++ c :: post) t0 lg
        = (Raise (KeyError c), t1, lg1).
Proof.
  induction pre as [|c' pre IH]; intros t0 lg Hpre Hc Hne; simpl.
  - unfold marcar_paso. apply get_col_None_elem in Hc. rewrite Hc. eauto.
  - destruct (marcar_paso_columnas sufijo_6 sufijo_8 r c' t0 lg)
      as (n & t1 & lg1 & -> & Hmono & Hnew); [apply Hpre; left |].
    destruct (IH t1 lg1) as (t2 & lg2 & ->); [| | | by eauto].
    + intros x Hx. apply Hmono, Hpre. by right.
    + intros H. apply Hnew in H as [H | [H | H]]; [done | |];
        destruct (Hne c') as [H6 H8]; try left; done.
    + intros x Hx. apply Hne. by right.
Qed.

(** ** The statistics of the code meet the specification's wording *)

















(** * The claims *)

(** ** C1 *)

(** C1, as amended.  The confidential resolver with method "mediana",
    applied directly to the float64 column
    [pop = [-6.0, -8.0, 10.0, -6.0, 5.0]], takes the median over the
    values 10 and 5 only (both codes are left out), which is 7.5, and
    writes it into the one confidential cell: the new table holds
    [-6, 7.5, 10, -6, 5].  (The statement is about the float64 column:
    7.5 is not a whole number, and a column of dtype int64 does not take
    it.) *)
Theorem C1_mediana_pop :
  ∃ ge0 st',
    ge0_mask pop = Ok ge0 ∧
    select (not_and (eq_mask menos_8 pop) ge0) pop
      = NumCol [Fin (entero 10); Fin (entero 5)] ∧
    median (NumCol [Fin (entero 10); Fin (entero 5)]) = Ok (Fin siete_y_medio) ∧
    tratar_confidencial 0 None "mediana" valor_bajo_defecto st_pop = (Ok 1, st') ∧
    heap st' !! 1 =
      Some [("pop", NumCol [Fin (entero (-6)); Fin siete_y_medio;
                            Fin (entero 10); Fin (entero (-6));
                            Fin (entero 5)])].
Proof.
  exists (map num_ge0 [Fin (entero (-6)); Fin (entero (-8)); Fin (entero 10);
                       Fin (entero (-6)); Fin (entero 5)]).
  exists (tratar_confidencial 0 None "mediana" valor_bajo_defecto st_pop).2.
  split; [reflexivity |].
  split; [por_calculo |]. split; [por_calculo |].
  split; por_calculo.
Qed.

(** The column the claim names, [-6, 7.5, 10, -6, 7.5], is not what the
    call returns: the last cell holds 5, not the code -8, and keeps its
    value. *)
Lemma C1_contraejemplo :
  ¬ (∃ r st',
      tratar_confidencial 0 None "mediana" valor_bajo_defecto st_pop = (Ok r, st') ∧
      get_col "pop" (heap st' !!! r) =
        Some (NumCol [Fin (entero (-6)); Fin siete_y_medio; Fin (entero 10);
                      Fin (entero (-6)); Fin siete_y_medio])).
Proof.
  intros (r & st' & Hrun & Hcol).
  assert (tratar_confidencial 0 None "mediana" valor_bajo_defecto st_pop
          = (Ok 1, (tratar_confidencial 0 None "mediana" valor_bajo_defecto st_pop).2))
    as E by por_calculo.
  rewrite E in Hrun. injection Hrun as <- <-.
  match type of Hcol with
  | ?x = ?y => assert (x ≠ y) as Hne by por_calculo_no
  end.
  exact (Hne Hcol).
Qed.

(** ** C2 *)



(** ** C3 *)

(** C3.  With a method string outside the five accepted ones the
    confidential resolver raises its configuration error at once: the
    store and the log are exactly what they were, so no table was
    copied, read or written, and the input table is unchanged. *)
Theorem C3_metodo_invalido (df : nat) (cols : option (list string))
    (metodo : string) (valor_bajo : num) (st : state) :
  metodo ∉ ["nan"; "cero"; "mediana"; "media"; "valor_bajo"] →
  tratar_confidencial df cols metodo valor_bajo st
    = (Raise (ValueError metodo), st).
Proof. apply tratar_confidencial_invalido. Qed.

Lemma C3_metodo_invalido_witness :
  ("promedio" ∉ ["nan"; "cero"; "mediana"; "media"; "valor_bajo"]) ∧
  tratar_confidencial 0 None "promedio" valor_bajo_defecto st_pop
    = (Raise (ValueError "promedio"), st_pop).
Proof.
  assert ("promedio" ∉ ["nan"; "cero"; "mediana"; "media"; "valor_bajo"]) as H.
  { intros H. repeat (apply elem_of_cons in H as [H | H]; [discriminate H |]).
    inversion H. }
  split; [exact H |].
  exact (C3_metodo_invalido 0 None "promedio" valor_bajo_defecto st_pop H).
Defined.

(** ** C4 *)

(** C4, as amended.  A second not-applicable pass with the same
    selection and replacement returns a table equal to the result of the
    first.  After the first pass no selected column holds -6, unless the
    replacement is -6 itself, and then the pass changes nothing. *)
Theorem C4_idempotencia (df : nat) (cols : option (list string))
    (reemplazo : num) (st : state) (t : table) (r1 : nat) (st1 : state) :
  heap st !! df = Some t →
  tratar_no_aplica df cols reemplazo st = (Ok r1, st1) →
  (∃ r2 st2,
     tratar_no_aplica r1 cols reemplazo st1 = (Ok r2, st2) ∧
     heap st2 !! r2 = heap st1 !! r1) ∧
  (reemplazo ≠ Fin menos_6 →
   ∀ c, c ∈ default (numericas t) cols →
        tiene menos_6 (heap st1 !!! r1) c = false) ∧
  (reemplazo = Fin menos_6 → heap st1 !! r1 = Some t).
Proof.
  intros Hdf Hrun.
  destruct (no_aplica_resultado _ _ _ _ t _ _ Hdf Hrun) as (t1 & lg1 & -> & H1).
  pose proof H1 as H1'. apply no_aplica_col in H1' as (-> & _).
  assert ((heap st ++ [t1]) !! length (heap st) = Some t1) as Hr1
    by apply list_lookup_middle, eq_refl.
  split; [| split].
  - destruct (no_aplica_tabla_idem _ _ _ _ _ _ _ _
                (length (heap st ++ [t1])) lg1 H1) as [lg3 H2].
    eexists _, _. split.
    + rewrite (tratar_no_aplica_run _ _ _ _ t1); [| exact Hr1].
      simpl heap. simpl log. rewrite H2. reflexivity.
    + simpl. rewrite Hr1. by apply list_lookup_middle.
  - intros Hne c Hc. simpl heap. rewrite lookup_total_nuevo.
    by apply (no_aplica_sin_6 _ _ _ _ _ _ _ _ H1 Hne).
  - intros ->. simpl heap. rewrite Hr1. f_equal.
    by apply no_aplica_mismo in H1.
Qed.

Lemma C4_idempotencia_witness :
  ∃ r2 st2,
    tratar_no_aplica 1 None reemplazo_defecto
      (tratar_no_aplica 0 None reemplazo_defecto st_pop).2 = (Ok r2, st2) ∧
    heap st2 !! r2 = heap (tratar_no_aplica 0 None reemplazo_defecto st_pop).2 !! 1.
Proof.
  assert (tratar_no_aplica 0 None reemplazo_defecto st_pop
          = (Ok 1, (tratar_no_aplica 0 None reemplazo_defecto st_pop).2)) as Hrun
    by por_calculo.
  exact (proj1 (C4_idempotencia 0 None reemplazo_defecto st_pop tabla_pop 1 _
                  eq_refl Hrun)).
Defined.

(** Cells holding -6 do remain after a first pass: in the treated column
    when -6 is its own replacement, and in a column that an explicit
    selection leaves out. *)
Lemma C4_contraejemplo :
  (∃ r1 st1,
     tratar_no_aplica 0 None (Fin menos_6) st_pop = (Ok r1, st1) ∧
     tiene menos_6 (heap st1 !!! r1) "pop" = true) ∧
  (∃ r1 st1,
     tratar_no_aplica 0 (Some ["pop"]) reemplazo_defecto
       (State [[("pop", pop); ("otra", pop)]] []) = (Ok r1, st1) ∧
     tiene menos_6 (heap st1 !!! r1) "otra" = true).
Proof.
  split.
  - exists 1, (tratar_no_aplica 0 None (Fin menos_6) st_pop).2.
    split; por_calculo.
  - exists 1, (tratar_no_aplica 0 (Some ["pop"]) reemplazo_defecto
                 (State [[("pop", pop); ("otra", pop)]] [])).2.
    split; por_calculo.
Qed.

(** ** C5 *)

(** C5, as amended.  A resolver that returns leaves every column that
    holds none of its codes exactly as it was.  Every column the flag
    marker writes is the flag of a selected column of the input that
    holds the flag's code at least once, so a column without the code
    gets no flag; and unless the suffix for -6 is empty, the flag is true
    exactly at the cells holding the code, hence not all false. *)
Theorem C5_sin_codigo (df : nat) (st : state) (t : table) :
  heap st !! df = Some t →
  (∀ R cols r st',
     ejecutar R df cols st = (Ok r, st') →
     ∀ c s, get_col c t = Some s →
            (∀ k, k ∈ codigos R → any (eq_mask k s) = false) →
            get_col c (heap st' !!! r) = Some s) ∧
  (∀ cols sufijo_6 sufijo_8 res st',
     marcar_censurados df cols sufijo_6 sufijo_8 st = (res, st') →
     ∃ evs, log st' = log st ++ evs ∧
            Forall (λ e, (∃ n, e = EvPrint (RepMarcar n)) ∨
                         es_bandera sufijo_6 sufijo_8 t
                           (default (numericas t) cols) (length (heap st)) e)
                   evs).
Proof.
  intros Hdf. split.
  - intros R cols r st' Hrun c s Hs Hk.
    destruct (ejecutar_resultado R df cols st t r st' Hdf Hrun)
      as (_ & t' & Ht' & _ & _ & Hcol).
    destruct (Hcol c s Hs) as (s' & Hs' & Htr).
    rewrite (list_lookup_total_correct _ _ _ Ht'), Hs'. f_equal.
    by apply (columna_tratada_sin_codigo R _ c s s' Htr).
  - intros cols sufijo_6 sufijo_8 res st'.
    by apply marcar_censurados_log.
Qed.

Lemma C5_sin_codigo_witness :
  get_col "z"
    (heap (tratar_censurados 0 None "cero" valor_bajo_defecto reemplazo_defecto
             (State [tabla_choque] [])).2 !!! 2)
  = get_col "z" tabla_choque.
Proof.
  apply (proj1 (C5_sin_codigo 0 (State [tabla_choque] []) tabla_choque eq_refl)
           (Censurados "cero" valor_bajo_defecto reemplazo_defecto) None 2).
  - por_calculo.
  - reflexivity.
  - intros k Hk.
    apply elem_of_cons in Hk as [-> | Hk]; [reflexivity |].
    apply list_elem_of_singleton in Hk as ->. reflexivity.
Defined.

(** With an empty suffix for -6 the flag for -6 overwrites its own source
    column, and the flag for -8, computed from the overwritten column, is
    all false. *)
Lemma C5_contraejemplo :
  ∃ r st',
    marcar_censurados 0 None "" sufijo_8_defecto st_pop = (Ok r, st') ∧
    EvSet r "pop_flag_conf" (BoolCol [false; false; false; false; false])
      ∈ log st' ∧
    get_col "pop_flag_conf" (heap st' !!! r)
      = Some (BoolCol [false; false; false; false; false]).
Proof.
  exists 1, (marcar_censurados 0 None "" sufijo_8_defecto st_pop).2.
  split; [por_calculo |]. split; por_calculo.
Qed.

(** ** C6 *)

(** C6, as amended.  Whatever a resolver call ends in, the tables the
    store held before it are where and what they were: the input is not
    mutated.  A call that returns gives a table the store did not hold
    before, with the input's column names in their order; every column
    keeps its length and every cell that is neither -6 nor -8 keeps its
    row; a non-numeric column is returned unchanged under the default
    selection, and under an explicit selection when it is not named in
    it. *)
Theorem C6_marco (R : llamada) (df : nat) (cols : option (list string))
    (st : state) (t : table) (res : result nat) (st' : state) :
  heap st !! df = Some t →
  NoDup (columnas t) →
  ejecutar R df cols st = (res, st') →
  (∀ l t0, heap st !! l = Some t0 → heap st' !! l = Some t0) ∧
  ∀ r, res = Ok r →
    length (heap st) ≤ r ∧
    ∃ t', heap st' !! r = Some t' ∧
          columnas t' = columnas t ∧
          ∀ c s, get_col c t = Some s →
            ∃ s', get_col c t' = Some s' ∧
                  col_len s' = col_len s ∧
                  (∀ i o, vista s !! i = Some o →
                          obj_eq menos_6 o = false → obj_eq menos_8 o = false →
                          vista s' !! i = Some o) ∧
                  (es_numerica s = false →
                   match cols with None => True | Some l => c ∉ l end →
                   s' = s).
Proof.
  intros Hdf Hnd Hrun. split.
  - intros l t0 Hl.
    destruct (ejecutar_extiende R df cols st t res st' Hdf Hrun) as [nuevas ->].
    by apply lookup_app_l_Some.
  - intros r ->.
    destruct (ejecutar_resultado R df cols st t r st' Hdf Hrun)
      as (Hr & t' & Ht' & Hc & _ & Hcol).
    split; [done |]. exists t'. split; [done |]. split; [done |].
    intros c s Hs. destruct (Hcol c s Hs) as (s' & Hs' & Htr).
    exists s'. split; [done |].
    split; [by apply (columna_tratada_len R _ c s s' Htr) |].
    split; [intros i o; by apply (columna_tratada_vista R _ c s s' i o Htr) |].
    intros Hnum Hsel. apply (columna_tratada_fuera R _ c s s' Htr).
    destruct cols as [l|]; simpl; [done |].
    intros Hin. apply (numericas_elem c t Hnd) in Hin as [xs Hxs].
    rewrite Hs in Hxs. by injection Hxs as ->.
Qed.

Lemma C6_marco_witness :
  ∃ t', heap (tratar_confidencial 0 None "cero" valor_bajo_defecto st_pop).2 !! 1
          = Some t' ∧
        columnas t' = columnas tabla_pop.
Proof.
  assert (NoDup (columnas tabla_pop)) as Hnd.
  { apply NoDup_singleton. }
  destruct (C6_marco (Confidencial "cero" valor_bajo_defecto) 0 None st_pop
              tabla_pop (Ok 1)
              (tratar_confidencial 0 None "cero" valor_bajo_defecto st_pop).2
              eq_refl Hnd) as [_ H].
  - por_calculo.
  - destruct (H 1 eq_refl) as (_ & t' & Ht' & Hc & _). exists t'. by split.
Defined.

(** A text column that holds the number -6 in one cell is rewritten when
    the selection names it. *)
Lemma C6_contraejemplo :
  ∃ r st' s s',
    ejecutar (NoAplica reemplazo_defecto) 0 (Some ["nombre"]) st_obj = (Ok r, st') ∧
    get_col "nombre" tabla_obj = Some s ∧
    es_numerica s = false ∧
    get_col "nombre" (heap st' !!! r) = Some s' ∧
    s' ≠ s.
Proof.
  exists 1, (tratar_no_aplica 0 (Some ["nombre"]) reemplazo_defecto st_obj).2.
  exists (ObjCol [OStr "a"; ONum (Fin menos_6)]).
  exists (ObjCol [OStr "a"; ONum reemplazo_defecto]).
  split; [por_calculo |]. split; [reflexivity |]. split; [reflexivity |].
  split; [por_calculo | por_calculo_no].
Qed.

(** ** C7 *)

(** C7, as amended.  When the flag names of the selection are pairwise
    distinct and none is already a column name, the flag marker returns
    the input's columns followed by the flags, in the order the source
    columns were scanned, the flag for -6 before the flag for -8; each
    flag is true exactly where the source column holds the code.  On
    [pop = [-6, -8, 10, -6, 5]] with the default suffixes the result is
    [pop], [pop_flag_na = [T,F,F,T,F]], [pop_flag_conf = [F,T,F,F,F]]. *)
Theorem C7_banderas :
  (∀ (df : nat) (cols : option (list string)) (sufijo_6 sufijo_8 : string)
     (st : state) (t : table),
     heap st !! df = Some t →
     (∀ c, c ∈ default (numericas t) cols → c ∈ columnas t) →
     NoDup (columnas t ++
            (banderas sufijo_6 sufijo_8 t (default (numericas t) cols)).*1) →
     ∃ st',
       marcar_censurados df cols sufijo_6 sufijo_8 st
         = (Ok (length (heap st)), st') ∧
       heap st' !! length (heap st)
         = Some (t ++ banderas sufijo_6 sufijo_8 t (default (numericas t) cols))) ∧
  ∃ st',
    marcar_censurados 0 None sufijo_6_defecto sufijo_8_defecto st_pop = (Ok 1, st') ∧
    heap st' !! 1 =
      Some [("pop", pop);
            ("pop_flag_na", BoolCol [true; false; false; true; false]);
            ("pop_flag_conf", BoolCol [false; true; false; false; false])].
Proof.
  split.
  - intros df cols sufijo_6 sufijo_8 st t Hdf Hsel Hnd.
    rewrite (marcar_censurados_run _ _ _ _ _ t Hdf). unfold marcar_tabla.
    destruct (marcar_bucle_fresco sufijo_6 sufijo_8 (length (heap st)) t
                (default (numericas t) cols) [] (log st) Hsel Hnd)
      as (n & lg' & Hb).
    rewrite app_nil_r in Hb. rewrite Hb. unfold con_nueva. simpl.
    eexists. split; [done |]. simpl. by apply list_lookup_middle.
  - exists (marcar_censurados 0 None sufijo_6_defecto sufijo_8_defecto st_pop).2.
    split; por_calculo.
Qed.

Lemma C7_banderas_witness :
  ∃ st',
    marcar_censurados 0 None sufijo_6_defecto sufijo_8_defecto st_pop = (Ok 1, st') ∧
    heap st' !! 1
      = Some (tabla_pop ++ banderas sufijo_6_defecto sufijo_8_defecto tabla_pop ["pop"]).
Proof.
  apply (proj1 C7_banderas 0 None sufijo_6_defecto sufijo_8_defecto st_pop
           tabla_pop eq_refl).
  - intros c Hc. exact Hc.
  - por_calculo.
Defined.

(** When a flag name is already a column, the flag replaces that column
    where it stands, before an original column. *)
Lemma C7_contraejemplo :
  ∃ r st',
    marcar_censurados 0 None sufijo_6_defecto sufijo_8_defecto
      (State [tabla_choque] []) = (Ok r, st') ∧
    columnas (heap st' !!! r) = ["pop"; "pop_flag_na"; "z"; "pop_flag_conf"] ∧
    get_col "pop_flag_na" (heap st' !!! r)
      = Some (BoolCol [true; false; false; true; false]).
Proof.
  exists 1, (marcar_censurados 0 None sufijo_6_defecto sufijo_8_defecto
               (State [tabla_choque] [])).2.
  split; [por_calculo |]. split; por_calculo.
Qed.

(** ** C8 *)

(** C8, as amended.  On a table without rows the summary raises nothing
    and returns an empty report, the store and the log untouched.  The
    percentages it computes on the way, one row per numeric column, are
    NaN (0/0), not 0; their rows have a combined count of 0 and are
    filtered out. *)
Theorem C8_tabla_vacia (df : nat) (st : state) (t : table) :
  heap st !! df = Some t →
  (∀ c s, (c, s) ∈ t → col_len s = 0) →
  diagnostico_censurados df st = (Ok [], st) ∧
  ∀ c f, (c, f) ∈ resumen_de t →
         n_especiales f = 0 ∧
         pct_menos_6 f = NaN ∧ pct_menos_8 f = NaN ∧ pct_especiales f = NaN.
Proof.
  intros Hdf Hvacia.
  assert (len t = 0) as Hlen.
  { destruct t as [|[c s] t']; [done |]. simpl. apply (Hvacia c). left. }
  assert (∀ c f, (c, f) ∈ resumen_de t →
                 n_especiales f = 0 ∧
                 pct_menos_6 f = NaN ∧ pct_menos_8 f = NaN ∧ pct_especiales f = NaN)
    as Hfilas.
  { intros c f Hf. unfold resumen_de in Hf. rewrite Hlen in Hf.
    apply list_elem_of_fmap in Hf as [[c' s] [[= -> ->] Hs]].
    apply list_elem_of_filter in Hs as [_ Hs]. simpl.
    rewrite !(cuenta_sin_filas _ s) by by apply (Hvacia c'). done. }
  split; [| done].
  unfold diagnostico_censurados.
  rewrite (list_lookup_total_correct _ _ _ Hdf). f_equal. f_equal.
  apply filter_vacio. intros [c f] Hf. simpl.
  destruct (Hfilas c f Hf) as [-> _]. lia.
Qed.

Lemma C8_tabla_vacia_witness :
  diagnostico_censurados 0 (State [tabla_sin_filas] []) =
    (Ok [], State [tabla_sin_filas] []).
Proof.
  apply (C8_tabla_vacia 0 (State [tabla_sin_filas] []) tabla_sin_filas eq_refl).
  intros c s Hs. apply list_elem_of_singleton in Hs. by injection Hs as -> ->.
Defined.

(** The percentage of -6 the summary computes for the column of a table
    without rows is NaN, not 0. *)
Lemma C8_contraejemplo :
  ∃ f, resumen_de tabla_sin_filas = [("pop", f)] ∧
       pct_menos_6 f = NaN ∧ pct_menos_6 f ≠ Fin 0%Qc.
Proof.
  eexists. split; [reflexivity |]. split; [reflexivity | discriminate].
Qed.

(** ** C9 *)

(** C9, as amended.  On a table whose names are distinct, when an
    explicit selection holds a name that is not a column of the input,
    each resolver raises the lookup error of the
    first such name from its scan of the columns: the copy has been made
    by then (the store holds it, still equal to the input), nothing has
    been reported, and the input is untouched; the method string, by
    contrast, is checked before anything else, with the store as it was.
    The flag marker raises the same error, from its loop and after the
    copy, provided no missing name of the selection is the flag name of
    a name of the selection. *)
Theorem C9_columna_ausente (df : nat) (l : list string) (st : state) (t : table)
    (c0 : string) :
  heap st !! df = Some t →
  NoDup (columnas t) →
  c0 ∈ l → c0 ∉ columnas t →
  ∃ c, c ∈ l ∧ (c ∉ columnas t) ∧
    (∀ reemplazo,
       tratar_no_aplica df (Some l) reemplazo st
         = (Raise (KeyError c), State (heap st ++ [t]) (log st))) ∧
    (∀ metodo valor_bajo, metodo ∈ METODOS_CONF →
       tratar_confidencial df (Some l) metodo valor_bajo st
         = (Raise (KeyError c), State (heap st ++ [t]) (log st))) ∧
    (∀ metodo valor_bajo, metodo ∉ METODOS_CONF →
       tratar_confidencial df (Some l) metodo valor_bajo st
         = (Raise (ValueError metodo), st)) ∧
    (∀ metodo valor_bajo reemplazo,
       tratar_censurados df (Some l) metodo valor_bajo reemplazo st
         = (Raise (KeyError c),
            State (heap st ++ [t]) (log st ++ [EvPrint RepCabecera]))) ∧
    (∀ sufijo_6 sufijo_8,
       (∀ c' x, c' ∈ l → x ∈ l → x ∉ columnas t →
                x ≠ c' +:+ sufijo_6 ∧ x ≠ c' +:+ sufijo_8) →
       ∃ t' lg',
         marcar_censurados df (Some l) sufijo_6 sufijo_8 st
           = (Raise (KeyError c), State (heap st ++ [t']) lg')).
Proof.
  intros Hdf _ Hl Hc0.
  destruct (primera_ausente_existe t l c0 Hl Hc0) as [c Hc].
  destruct (primera_ausente_Some t l c Hc) as [Hcl Hct].
  exists c. split; [done |]. split; [done |].
  split; [| split; [| split; [| split]]].
  - intros reemplazo. rewrite (tratar_no_aplica_run _ _ _ _ t Hdf).
    unfold no_aplica_tabla. by erewrite resolver_ausente by exact Hc.
  - intros metodo vb Hm. rewrite (tratar_confidencial_run _ _ _ _ _ t Hdf Hm).
    unfold confidencial_tabla. by erewrite resolver_ausente by exact Hc.
  - intros metodo vb Hm. by apply tratar_confidencial_invalido.
  - intros metodo vb reemplazo. unfold tratar_censurados.
    rewrite bind_run, print_run, bind_run.
    rewrite (tratar_no_aplica_run df (Some l) reemplazo (State (heap st) _) t Hdf).
    unfold no_aplica_tabla. by erewrite resolver_ausente by exact Hc.
  - intros sufijo_6 sufijo_8 Hflag.
    rewrite (marcar_censurados_run _ _ _ _ _ t Hdf). unfold marcar_tabla.
    destruct (primera_ausente_partes t l c Hc) as (pre & post & -> & Hpre).
    simpl default.
    destruct (marcar_bucle_ausente sufijo_6 sufijo_8 (length (heap st)) c post
                pre t (log st) Hpre Hct) as (t1 & lg1 & ->).
    + intros c' Hc'. apply Hflag; [| done | done].
      apply elem_of_app. by left.
    + unfold con_nueva. simpl. eauto.
Qed.

Lemma C9_columna_ausente_witness :
  ∃ c, c ∈ ["pop"; "edad"] ∧ (c ∉ columnas tabla_pop) ∧
       tratar_no_aplica 0 (Some ["pop"; "edad"]) reemplazo_defecto st_pop
         = (Raise (KeyError c), State [tabla_pop; tabla_pop] []).
Proof.
  assert ("edad" ∈ ["pop"; "edad"]) as Hl by por_calculo.
  assert ("edad" ∉ columnas tabla_pop) as Hc by por_calculo.
  assert (NoDup (columnas tabla_pop)) as Hnd by apply NoDup_singleton.
  destruct (C9_columna_ausente 0 ["pop"; "edad"] st_pop tabla_pop "edad"
              eq_refl Hnd Hl Hc) as (c & H1 & H2 & H3 & _).
  exists c. split; [exact H1 |]. split; [exact H2 |].
  exact (H3 reemplazo_defecto).
Defined.

(** The flag marker returns when the missing name is the name of a flag
    it has created by the time it reaches it. *)
Lemma C9_contraejemplo :
  ("pop_flag_na" ∉ columnas tabla_pop) ∧
  ∃ st',
    marcar_censurados 0 (Some ["pop"; "pop_flag_na"]) sufijo_6_defecto
      sufijo_8_defecto st_pop = (Ok 1, st').
Proof.
  split; [por_calculo |].
  exists (marcar_censurados 0 (Some ["pop"; "pop_flag_na"]) sufijo_6_defecto
            sufijo_8_defecto st_pop).2.
  por_calculo.
Qed.

(** ** C10 *)

(** C10.  What a resolver returns in a selected column depends on that
    column of the input and on the parameters only: two calls with the
    same parameters on tables that agree on column [c] return the same
    column [c], whatever else the tables hold. *)
Theorem C10_columna_sola (R : llamada) (cols : option (list string)) (c : string)
    (s : column) (df1 df2 : nat) (st1 st2 : state) (t1 t2 : table)
    (r1 r2 : nat) (st1' st2' : state) :
  heap st1 !! df1 = Some t1 →
  heap st2 !! df2 = Some t2 →
  get_col c t1 = Some s →
  get_col c t2 = Some s →
  c ∈ default (numericas t1) cols →
  c ∈ default (numericas t2) cols →
  ejecutar R df1 cols st1 = (Ok r1, st1') →
  ejecutar R df2 cols st2 = (Ok r2, st2') →
  ∃ s', get_col c (heap st1' !!! r1) = Some s' ∧
        get_col c (heap st2' !!! r2) = Some s'.
Proof.
  intros Hdf1 Hdf2 Hs1 Hs2 Hc1 Hc2 Hrun1 Hrun2.
  destruct (ejecutar_resultado R df1 cols st1 t1 r1 st1' Hdf1 Hrun1)
    as (_ & t1' & Ht1' & _ & _ & Hcol1).
  destruct (ejecutar_resultado R df2 cols st2 t2 r2 st2' Hdf2 Hrun2)
    as (_ & t2' & Ht2' & _ & _ & Hcol2).
  destruct (Hcol1 c s Hs1) as (s1' & Hg1 & Htr1).
  destruct (Hcol2 c s Hs2) as (s2' & Hg2 & Htr2).
  rewrite (columna_tratada_sel R _ _ c s Hc1 Hc2) in Htr1.
  rewrite Htr2 in Htr1. injection Htr1 as <-.
  exists s2'. by rewrite (list_lookup_total_correct _ _ _ Ht1'),
    (list_lookup_total_correct _ _ _ Ht2').
Qed.

(** A second table with the same column [pop] beside another column. *)
Lemma C10_columna_sola_witness :
  ∃ s', get_col "pop"
          (heap (tratar_censurados 0 None "media" valor_bajo_defecto
                   reemplazo_defecto st_pop).2 !!! 2) = Some s' ∧
        get_col "pop"
          (heap (tratar_censurados 0 None "media" valor_bajo_defecto
                   reemplazo_defecto
                   (State [[("otra", NumCol [Fin menos_8; NaN; NaN; NaN; NaN]);
                            ("pop", pop)]] [])).2 !!! 2) = Some s'.
Proof.
  apply (C10_columna_sola (Censurados "media" valor_bajo_defecto reemplazo_defecto)
           None "pop" pop 0 0 st_pop
           (State [[("otra", NumCol [Fin menos_8; NaN; NaN; NaN; NaN]);
                    ("pop", pop)]] [])
           tabla_pop
           [("otra", NumCol [Fin menos_8; NaN; NaN; NaN; NaN]); ("pop", pop)]);
    try reflexivity; por_calculo.
Defined.

(** * Further properties of the module *)

(** ** Signs and bounds of the statistics *)

Lemma insertar_elem (x q : Qc) (l : list Qc) :
  x ∈ insertar q l ↔ x = q ∨ x ∈ l.
Proof.
  induction l as [|p l IH]; simpl.
  - rewrite list_elem_of_singleton. split; [by left | intros [? | H]; [done |]].
    inversion H.
  - case_bool_decide.
    + by rewrite elem_of_cons.
    + rewrite !elem_of_cons, IH. tauto.
Qed.

Lemma ordenar_elem (x : Qc) (l : list Qc) : x ∈ ordenar l ↔ x ∈ l.
Proof.
  unfold ordenar. induction l as [|q l IH]; simpl; [done |].
  by rewrite insertar_elem, IH, elem_of_cons.
Qed.

Lemma nth_no_negativo (i : nat) (l : list Qc) :
  Forall (λ q, (0 ≤ q)%Qc) l → (0 ≤ nth i l 0%Qc)%Qc.
Proof.
  intros H. revert i. induction H as [|q l Hq _ IH]; intros [|i]; simpl;
    try done; apply IH.
Qed.

Lemma Qcdiv_no_negativo (a b : Qc) :
  (0 ≤ a)%Qc → (0 ≤ b)%Qc → (0 ≤ a / b)%Qc.
Proof.
  intros Ha Hb. unfold Qcdiv. apply Qcmult_nonneg_nonneg; [done |].
  apply Qcle_lt_or_eq in Hb as [Hb | <-].
  - by apply Qclt_le_weak, Qcinv_pos.
  - done.
Qed.

Lemma entero_no_negativo (z : Z) : (0 ≤ z)%Z → (0 ≤ entero z)%Qc.
Proof. intros H. unfold entero. by apply (Z2Qc_inj_le 0 z). Qed.

Lemma mediana_no_negativa (l : list Qc) (v : Qc) :
  Forall (λ q, (0 ≤ q)%Qc) l → mediana_de l = Fin v → (0 ≤ v)%Qc.
Proof.
  intros Hl. unfold mediana_de.
  assert (Forall (λ q, (0 ≤ q)%Qc) (ordenar l)) as Ho.
  { apply Forall_forall. intros x Hx.
    apply (proj1 (ordenar_elem x l)) in Hx.
    by apply (proj1 (Forall_forall _ _) Hl). }
  destruct (length (ordenar l)) as [|n] eqn:En; [done |].
  destruct (Nat.odd (S n)); intros [= <-].
  - by apply nth_no_negativo.
  - apply Qcdiv_no_negativo; [| by apply entero_no_negativo].
    apply Qcplus_nonneg_nonneg; by apply nth_no_negativo.
Qed.

Lemma suma_no_negativa (l : list Qc) :
  Forall (λ q, (0 ≤ q)%Qc) l → (0 ≤ suma l)%Qc.
Proof.
  unfold suma. induction 1 as [|q l Hq _ IH]; simpl; [done |].
  by apply Qcplus_nonneg_nonneg.
Qed.

Lemma media_no_negativa (l : list Qc) (v : Qc) :
  Forall (λ q, (0 ≤ q)%Qc) l → media_de l = Fin v → (0 ≤ v)%Qc.
Proof.
  intros Hl. unfold media_de. destruct l as [|q l]; [done |].
  intros [= <-].
  apply Qcdiv_no_negativo; [exact (suma_no_negativa (q :: l) Hl) |].
  apply entero_no_negativo. lia.
Qed.

(** Rounding to the nearest integer stays between integer bounds. *)
Lemma redondeo_par_cotas (a b : Z) (q : Qc) :
  (entero a ≤ q)%Qc → (q ≤ entero b)%Qc →
  (a ≤ redondeo_par q ≤ b)%Z.
Proof.
  intros Ha Hb.
  assert (a ≤ Qfloor q)%Z as Hfa.
  { rewrite <- (Qfloor_Z a). by apply Qfloor_resp_le. }
  assert (Qfloor q ≤ b)%Z as Hfb.
  { rewrite <- (Qfloor_Z b). by apply Qfloor_resp_le. }
  assert (Qfloor q = b → (q - entero (Qfloor q) < Q2Qc (1 # 2))%Qc) as Hd.
  { intros Hf. assert (q = entero b) as ->.
    { apply Qcle_antisym; [done |]. rewrite <- Hf. apply Qfloor_le. }
    rewrite Hf. unfold Qcminus. by rewrite Qcplus_opp_r. }
  unfold redondeo_par.
  repeat case_bool_decide; try destruct (Z.even _); try lia;
    (destruct (decide (Qfloor q = b)) as [Hf|Hf]; [by apply Hd in Hf | lia]).
Qed.

Lemma round1_cotas (a b : Z) (q v : Qc) :
  (entero a ≤ q)%Qc → (q ≤ entero b)%Qc →
  round1 (Fin q) = Fin v →
  (entero a ≤ v)%Qc ∧ (v ≤ entero b)%Qc.
Proof.
  intros Ha Hb [= <-].
  assert (0 < / entero 10)%Qc as H10 by done.
  assert (∀ z : Z, (entero (z * 10) / entero 10)%Qc = entero z) as Hz.
  { intros z. unfold entero, Qcdiv. rewrite Z2Qc_inj_mul, <- Qcmult_assoc.
    rewrite Qcmult_inv_r by done. apply Qcmult_1_r. }
  destruct (redondeo_par_cotas (a * 10) (b * 10) (q * entero 10)) as [Hl Hu].
  - unfold entero at 1. rewrite Z2Qc_inj_mul.
    by apply Qcmult_le_mono_nonneg_r.
  - unfold entero at 2. rewrite Z2Qc_inj_mul.
    by apply Qcmult_le_mono_nonneg_r.
  - split.
    + rewrite <- (Hz a). unfold Qcdiv.
      apply Qcmult_le_mono_nonneg_r; [by apply Qclt_le_weak |].
      unfold entero. by apply (proj1 (Z2Qc_inj_le _ _)).
    + rewrite <- (Hz b). unfold Qcdiv.
      apply Qcmult_le_mono_nonneg_r; [by apply Qclt_le_weak |].
      unfold entero. by apply (proj1 (Z2Qc_inj_le _ _)).
Qed.

Lemma mediana_fin (l : list Qc) : l ≠ [] → ∃ v, mediana_de l = Fin v.
Proof.
  intros Hl. unfold mediana_de.
  destruct (length (ordenar l)) as [|n] eqn:En.
  - destruct l as [|q l]; [done |]. exfalso.
    assert (q ∈ ordenar (q :: l)) as Hq by (apply ordenar_elem; left).
    destruct (ordenar (q :: l)); [inversion Hq | done].
  - destruct (Nat.odd (S n)); eauto.
Qed.

Lemma elegibles_no_negativos (s : column) :
  Forall (λ q, (0 ≤ q)%Qc) (elegibles s).
Proof.
  apply Forall_forall. intros q Hq. unfold elegibles in Hq.
  apply list_elem_of_filter in Hq as [(_ & _ & H) _]. by apply Qcnot_lt_le.
Qed.

Lemma no_negativo_no_codigo (q : Qc) :
  (0 ≤ q)%Qc → num_eq menos_6 (Fin q) = false ∧ num_eq menos_8 (Fin q) = false.
Proof.
  intros H. simpl. split; apply bool_decide_eq_false; intros ->;
    by apply H.
Qed.

(** The mean and the median the resolver writes are numbers, and not
    negative. *)
Lemma imputacion_no_negativa (metodo : string) (valor_bajo : num)
    (s : column) (v : num) :
  metodo = "mediana" ∨ metodo = "media" →
  imputacion metodo valor_bajo s = Ok v →
  ∃ q, v = Fin q ∧ (0 ≤ q)%Qc.
Proof.
  intros Hm Hv. apply (imputacion_spec _ _ _ _ Hm) in Hv. subst v.
  unfold imputacion_segun_spec.
  pose proof (elegibles_no_negativos s) as Hpos.
  destruct (elegibles s) as [|q0 l] eqn:El; [by exists 0%Qc |].
  destruct (decide (metodo = "media")).
  - destruct (media_de (q0 :: l)) as [w|] eqn:Ew; [| done].
    pose proof (media_no_negativa _ _ Hpos Ew) as Hw.
    destruct (round1 (Fin w)) as [v|] eqn:Ev; [| done].
    exists v. split; [done |].
    by apply (round1_cotas 0 (Qceiling w) w v Hw (Qle_ceiling w) Ev).
  - destruct (mediana_fin (q0 :: l)) as [w Ew]; [done |].
    exists w. split; [done |]. by apply (mediana_no_negativa _ _ Hpos Ew).
Qed.

(** No accepted method writes a code, unless the caller passes one as
    the fixed low value. *)
Lemma imputacion_no_codigo (metodo : string) (valor_bajo : num)
    (s : column) (v : num) :
  metodo ∈ METODOS_CONF →
  (metodo = "valor_bajo" →
   num_eq menos_6 valor_bajo = false ∧ num_eq menos_8 valor_bajo = false) →
  imputacion metodo valor_bajo s = Ok v →
  num_eq menos_6 v = false ∧ num_eq menos_8 v = false.
Proof.
  intros Hm Hvb Hv. unfold METODOS_CONF in Hm.
  repeat (apply elem_of_cons in Hm as [-> | Hm]); [..| inversion Hm].
  - by injection Hv as <-.
  - by injection Hv as <-.
  - destruct (imputacion_no_negativa "mediana" valor_bajo s v) as (q & -> & Hq);
      [by left | done |]. by apply no_negativo_no_codigo.
  - destruct (imputacion_no_negativa "media" valor_bajo s v) as (q & -> & Hq);
      [by right | done |]. by apply no_negativo_no_codigo.
  - injection Hv as <-. by apply Hvb.
Qed.

(** ** Counts and masks *)

Lemma cuenta_any (m : list bool) : 0 < cuenta m ↔ any m = true.
Proof.
  unfold cuenta, any. induction m as [|b m IH]; simpl; [split; [lia | done] |].
  rewrite filter_cons. destruct b; simpl.
  - split; [done | lia].
  - by rewrite IH.
Qed.

Lemma get_col_elem (c : string) (s : column) (t : table) :
  NoDup (columnas t) → (c, s) ∈ t → get_col c t = Some s.
Proof.
  induction t as [|[n s0] t IH]; simpl; intros Hnd H; [inversion H |].
  apply NoDup_cons in Hnd as [Hn Hnd].
  apply elem_of_cons in H as [[= -> ->] | H].
  - by rewrite decide_True.
  - rewrite decide_False; [by apply IH |].
    intros ->. apply Hn. apply list_elem_of_fmap. by exists (c, s).
Qed.

Lemma get_col_elem_of (c : string) (s : column) (t : table) :
  get_col c t = Some s → (c, s) ∈ t.
Proof.
  induction t as [|[n s0] t IH]; simpl; [done |].
  destruct (decide (n = c)) as [->|Hne].
  - intros [= ->]. left.
  - intros H. right. by apply IH.
Qed.

(** ** The summary *)

Lemma resumen_claves (t : table) (l : list (string * column)) :
  (∀ c s, (c, s) ∈ l → get_col c t = Some s) →
  (filter (λ r : string * fila, 0 < n_especiales r.2)
     (map (λ p : string * column,
             let n6 := cuenta (eq_mask menos_6 p.2) in
             let n8 := cuenta (eq_mask menos_8 p.2) in
             (p.1, {| n_menos_6 := n6; pct_menos_6 := pct n6 (len t);
                      n_menos_8 := n8; pct_menos_8 := pct n8 (len t);
                      n_especiales := n6 + n8;
                      pct_especiales := pct (n6 + n8) (len t) |})) l)).*1
  = filter (λ c, tiene menos_6 t c = true ∨ tiene menos_8 t c = true) l.*1.
Proof.
  induction l as [|[c s] l IH]; intros Hl; [done |].
  assert (tiene menos_6 t c = any (eq_mask menos_6 s) ∧
          tiene menos_8 t c = any (eq_mask menos_8 s)) as [E6 E8].
  { unfold tiene. rewrite (Hl c s) by left. done. }
  specialize (IH (λ c' s' H, Hl c' s' (proj2 (elem_of_cons _ _ _) (or_intror H)))).
  simpl in IH |- *. rewrite !filter_cons. simpl. rewrite E6, E8.
  pose proof (cuenta_any (eq_mask menos_6 s)) as H6.
  pose proof (cuenta_any (eq_mask menos_8 s)) as H8.
  destruct (decide (0 < _ + _)) as [Hp|Hp], (decide (_ ∨ _)) as [Ha|Ha].
  - simpl. f_equal. exact IH.
  - exfalso. apply Ha.
    destruct (decide (0 < cuenta (eq_mask menos_6 s))) as [H|H];
      [left; by apply H6 | right; apply H8; lia].
  - exfalso. apply Hp. destruct Ha as [Ha | Ha];
      [apply H6 in Ha | apply H8 in Ha]; lia.
  - exact IH.
Qed.

(** X1.  The summary reads the table and changes nothing.  Its report
    has one row for each numeric column that holds -6 or -8 at least
    once, in the order of the table's columns, and no other row; the row
    counts the cells equal to -6 and those equal to -8, and its combined
    count is their sum, which is positive. *)
Theorem X1_diagnostico_filas (df : nat) (st : state) (t : table) :
  heap st !! df = Some t →
  NoDup (columnas t) →
  ∃ rep,
    diagnostico_censurados df st = (Ok rep, st) ∧
    rep.*1 = filter (λ c, tiene menos_6 t c = true ∨ tiene menos_8 t c = true)
               (numericas t) ∧
    ∀ c f, (c, f) ∈ rep →
      ∃ xs, get_col c t = Some (NumCol xs) ∧
            n_menos_6 f = cuenta (eq_mask menos_6 (NumCol xs)) ∧
            n_menos_8 f = cuenta (eq_mask menos_8 (NumCol xs)) ∧
            n_especiales f = n_menos_6 f + n_menos_8 f ∧
            0 < n_especiales f.
Proof.
  intros Hdf Hnd. eexists. split; [reflexivity |].
  rewrite (list_lookup_total_correct _ _ _ Hdf). split.
  - unfold resumen_de, numericas. apply resumen_claves.
    intros c s H. apply list_elem_of_filter in H as [_ H].
    by apply get_col_elem.
  - intros c f Hf. apply list_elem_of_filter in Hf as [Hpos Hf].
    unfold resumen_de in Hf.
    apply list_elem_of_fmap in Hf as [[c' s] [[= -> ->] Hs]].
    apply list_elem_of_filter in Hs as [Hnum Hs]. simpl in *.
    destruct s as [xs| |]; try done.
    exists xs. split; [by apply get_col_elem | done].
Qed.

Lemma X1_diagnostico_filas_witness :
  ∃ rep,
    diagnostico_censurados 0 (State [tabla_choque] []) = (Ok rep, State [tabla_choque] []) ∧
    rep.*1 = ["pop"].
Proof.
  destruct (X1_diagnostico_filas 0 (State [tabla_choque] []) tabla_choque eq_refl)
    as (rep & Hrun & Hkeys & _).
  - por_calculo.
  - exists rep. split; [exact Hrun |]. rewrite Hkeys. por_calculo.
Defined.

(** ** The combined treatment, step by step *)

Lemma tratar_censurados_run (df : nat) (cols : option (list string))
    (metodo : string) (valor_bajo reemplazo : num) (st : state) (t : table) :
  heap st !! df = Some t →
  tratar_censurados df cols metodo valor_bajo reemplazo st =
  match no_aplica_tabla cols reemplazo (length (heap st)) t
          (log st ++ [EvPrint RepCabecera]) with
  | (Raise e, t1, lg1) => (Raise e, State (heap st ++ [t1]) lg1)
  | (Ok _, t1, lg1) =>
      if decide (metodo ∈ METODOS_CONF) then
        match confidencial_tabla cols metodo valor_bajo (S (length (heap st)))
                t1 lg1 with
        | (Raise e, t2, lg2) => (Raise e, State (heap st ++ [t1; t2]) lg2)
        | (Ok _, t2, lg2) =>
            (Ok (S (length (heap st))),
             State (heap st ++ [t1; t2]) (lg2 ++ [EvPrint RepPie]))
        end
      else (Raise (ValueError metodo), State (heap st ++ [t1]) lg1)
  end.
Proof.
  intros Hdf. unfold tratar_censurados.
  rewrite bind_run, print_run, bind_run.
  rewrite (tratar_no_aplica_run df cols reemplazo (State (heap st) _) t Hdf).
  simpl heap. simpl log.
  destruct (no_aplica_tabla _ _ _ _ _) as [[[r1|e] t1] lg1] eqn:E1;
    unfold con_nueva; simpl; [| done].
  apply no_aplica_col in E1 as (-> & _). rewrite bind_run.
  assert (length (heap st ++ [t1]) = S (length (heap st))) as Hlen
    by (rewrite length_app; simpl; lia).
  destruct (decide (metodo ∈ METODOS_CONF)) as [Hm|Hm].
  - rewrite (tratar_confidencial_run _ _ _ _ _ t1); simpl;
      [| by apply list_lookup_middle | done].
    rewrite Hlen.
    destruct (confidencial_tabla _ _ _ _ _ _) as [[[r2|e] t2] lg2] eqn:E2;
      unfold con_nueva; simpl; rewrite <- app_assoc; simpl; [| done].
    apply confidencial_tabla_col in E2 as (-> & _).
    by rewrite bind_run, print_run.
  - by rewrite tratar_confidencial_invalido.
Qed.

Lemma replace_conserva_sin (k k' : Qc) (v : num) (s : column) :
  any (eq_mask k' s) = false → num_eq k' v = false →
  any (eq_mask k' (replace k v s)) = false.
Proof.
  intros Hs Hv. apply any_false in Hs. apply any_false.
  destruct s as [xs|bs|os]; simpl in *.
  - induction xs as [|x xs IH]; simpl in *; [constructor |].
    apply Forall_cons in Hs as [Hx Hs].
    constructor; [| by apply IH]. by destruct (num_eq k x).
  - destruct (any _); simpl; [| done].
    induction bs as [|b bs IH]; simpl in *; [constructor |].
    apply Forall_cons in Hs as [Hb Hs].
    constructor; [| by apply IH].
    by destruct (bool_decide (Qc_of_bool b = k)).
  - induction os as [|o os IH]; simpl in *; [constructor |].
    apply Forall_cons in Hs as [Ho Hs].
    constructor; [| by apply IH]. by destruct (obj_eq k o).
Qed.

Lemma paso_6_sin_6 (reemplazo : num) (sel : list string) (c : string) (s : column) :
  c ∈ sel → reemplazo ≠ Fin menos_6 →
  any (eq_mask menos_6 (paso_6 reemplazo sel c s)) = false.
Proof.
  intros Hc Hr. unfold paso_6. case_decide as Hd.
  - apply replace_quita. destruct reemplazo as [q|]; [| done]. simpl.
    apply bool_decide_eq_false. congruence.
  - destruct (any (eq_mask menos_6 s)); [| done]. exfalso. by apply Hd.
Qed.

Lemma paso_8_sin_codigos (metodo : string) (valor_bajo : num)
    (sel : list string) (c : string) (s s' : column) :
  c ∈ sel → metodo ∈ METODOS_CONF →
  (metodo = "valor_bajo" →
   num_eq menos_6 valor_bajo = false ∧ num_eq menos_8 valor_bajo = false) →
  any (eq_mask menos_6 s) = false →
  paso_8 metodo valor_bajo sel c s = Ok s' →
  any (eq_mask menos_6 s') = false ∧ any (eq_mask menos_8 s') = false.
Proof.
  intros Hc Hm Hvb H6. unfold paso_8. case_decide as Hd.
  - intros H. apply tratar_col_replace in H as (v & Hv & ->).
    destruct (imputacion_no_codigo _ _ _ _ Hm Hvb Hv) as [Hv6 Hv8].
    split; [by apply replace_conserva_sin | by apply replace_quita].
  - intros [= <-]. split; [done |].
    destruct (any (eq_mask menos_8 s)); [| done]. exfalso. by apply Hd.
Qed.

Lemma limpia_diagnostico (df : nat) (st : state) (t : table) :
  heap st !! df = Some t → limpia t →
  diagnostico_censurados df st = (Ok [], st).
Proof.
  intros Hdf Hl. unfold diagnostico_censurados.
  rewrite (list_lookup_total_correct _ _ _ Hdf). f_equal. f_equal.
  apply filter_vacio. intros [c f] Hf. unfold resumen_de in Hf.
  apply list_elem_of_fmap in Hf as [[c' s] [[= -> ->] Hs]].
  apply list_elem_of_filter in Hs as [Hnum Hs]. simpl in *.
  destruct (Hl c' s Hs Hnum) as [H6 H8].
  pose proof (cuenta_any (eq_mask menos_6 s)) as E6.
  pose proof (cuenta_any (eq_mask menos_8 s)) as E8.
  intros Hpos.
  destruct (decide (0 < cuenta (eq_mask menos_6 s))) as [H|H];
    [apply E6 in H; congruence |].
  assert (0 < cuenta (eq_mask menos_8 s)) as H' by lia.
  apply E8 in H'. congruence.
Qed.

(** After the combined treatment under the default selection, no numeric
    column holds a code. *)
Lemma censurados_limpia (df : nat) (metodo : string)
    (valor_bajo reemplazo : num) (st : state) (t : table) (r : nat)
    (st' : state) :
  heap st !! df = Some t →
  NoDup (columnas t) →
  reemplazo ≠ Fin menos_6 →
  (metodo = "valor_bajo" →
   valor_bajo ≠ Fin menos_6 ∧ valor_bajo ≠ Fin menos_8) →
  tratar_censurados df None metodo valor_bajo reemplazo st = (Ok r, st') →
  ∃ t', heap st' !! r = Some t' ∧ columnas t' = columnas t ∧
        numericas t' = numericas t ∧ limpia t'.
Proof.
  intros Hdf Hnd Hr Hvb Hrun.
  assert (metodo ∈ METODOS_CONF) as Hm.
  { rewrite (tratar_censurados_run _ _ _ _ _ _ t Hdf) in Hrun.
    destruct (no_aplica_tabla _ _ _ _ _) as [[[r1|e] t1] lg1]; [| done].
    by destruct (decide (metodo ∈ METODOS_CONF)). }
  assert (metodo = "valor_bajo" →
          num_eq menos_6 valor_bajo = false ∧ num_eq menos_8 valor_bajo = false)
    as Hvb'.
  { intros E. destruct (Hvb E) as [H6 H8].
    destruct valor_bajo as [q|]; [| done]. simpl.
    split; apply bool_decide_eq_false; congruence. }
  destruct (ejecutar_resultado (Censurados metodo valor_bajo reemplazo) df None
              st t r st' Hdf Hrun) as (_ & t' & Ht' & Hc & Hn & Hcol).
  exists t'. repeat (split; [done |]).
  intros c s' Hs' Hnum.
  assert (NoDup (columnas t')) as Hnd' by by rewrite Hc.
  assert (c ∈ numericas t) as Hsel.
  { rewrite <- Hn. apply (numericas_elem c t' Hnd').
    destruct s' as [xs| |]; try done. exists xs. by apply get_col_elem. }
  destruct (proj2 (get_col_Some_elem c t) (numericas_columnas c t Hsel))
    as [s Hs].
  destruct (Hcol c s Hs) as (s'' & Hs'' & Htr).
  rewrite (get_col_elem c s' t' Hnd' Hs') in Hs''. injection Hs'' as <-.
  simpl in Htr.
  apply (paso_8_sin_codigos _ _ _ _ _ _ Hsel Hm Hvb'
           (paso_6_sin_6 reemplazo _ c s Hsel Hr) Htr).
Qed.

(** X2.  After the combined treatment under the default selection, with
    a replacement other than -6 and a fixed low value that is not a
    code, the summary of the result is empty: no numeric column holds -6
    or -8 any more. *)
Theorem X2_censurados_sin_codigos (df : nat) (metodo : string)
    (valor_bajo reemplazo : num) (st : state) (t : table) (r : nat)
    (st' : state) :
  heap st !! df = Some t →
  NoDup (columnas t) →
  reemplazo ≠ Fin menos_6 →
  (metodo = "valor_bajo" →
   valor_bajo ≠ Fin menos_6 ∧ valor_bajo ≠ Fin menos_8) →
  tratar_censurados df None metodo valor_bajo reemplazo st = (Ok r, st') →
  diagnostico_censurados r st' = (Ok [], st').
Proof.
  intros Hdf Hnd Hr Hvb Hrun.
  destruct (censurados_limpia _ _ _ _ _ _ _ _ Hdf Hnd Hr Hvb Hrun)
    as (t' & Ht' & _ & _ & Hl).
  by apply (limpia_diagnostico r st' t').
Qed.

Lemma X2_censurados_sin_codigos_witness :
  diagnostico_censurados 2
    (tratar_censurados 0 None "media" valor_bajo_defecto reemplazo_defecto
       (State [tabla_choque] [])).2
  = (Ok [],
     (tratar_censurados 0 None "media" valor_bajo_defecto reemplazo_defecto
        (State [tabla_choque] [])).2).
Proof.
  assert (tratar_censurados 0 None "media" valor_bajo_defecto reemplazo_defecto
            (State [tabla_choque] [])
          = (Ok 2, (tratar_censurados 0 None "media" valor_bajo_defecto
                      reemplazo_defecto (State [tabla_choque] [])).2)) as Hrun
    by por_calculo.
  apply (X2_censurados_sin_codigos 0 "media" valor_bajo_defecto
           reemplazo_defecto (State [tabla_choque] []) tabla_choque 2 _ eq_refl).
  - por_calculo.
  - discriminate.
  - discriminate.
  - exact Hrun.
Defined.

(** ** When the resolvers return *)

Lemma imputacion_fija (metodo : string) (valor_bajo : num) (s : column) :
  metodo ≠ "mediana" → metodo ≠ "media" →
  ∃ v, imputacion metodo valor_bajo s = Ok v.
Proof.
  intros H1 H2. unfold imputacion.
  repeat (destruct (decide _); [by eauto |]). eauto.
Qed.

Lemma tratar_col_total (metodo : string) (valor_bajo : num) (s : column) :
  (metodo = "mediana" ∨ metodo = "media" → sin_texto s = true) →
  ∃ s', tratar_col metodo valor_bajo s = Ok s'.
Proof.
  intros Hs.
  assert (∃ v, imputacion metodo valor_bajo s = Ok v) as [v Hv].
  { destruct (decide (metodo = "mediana")) as [Hm|Hm];
      [by apply imputacion_total, Hs; left |].
    destruct (decide (metodo = "media")) as [Hm'|Hm'];
      [by apply imputacion_total, Hs; right |].
    by apply imputacion_fija. }
  exists (replace menos_8 v s). apply tratar_col_replace. eauto.
Qed.

Lemma confidencial_tabla_total (cols : option (list string)) (metodo : string)
    (valor_bajo : num) (r : nat) (t : table) (lg : list event) :
  (∀ c, c ∈ default (numericas t) cols →
        ∃ s, get_col c t = Some s ∧
             (metodo = "mediana" ∨ metodo = "media" → sin_texto s = true)) →
  ∃ t' lg', confidencial_tabla cols metodo valor_bajo r t lg = (Ok r, t', lg').
Proof.
  intros Hsel. unfold confidencial_tabla. apply resolver_total.
  - apply tratar_col_idem.
  - intros c Hc. destruct (Hsel c Hc) as (s & Hs & _).
    apply get_col_Some_elem. by rewrite Hs.
  - intros c s Hc Hs _. destruct (Hsel c Hc) as (s0 & Hs0 & Ht).
    rewrite Hs in Hs0. injection Hs0 as <-. by apply tratar_col_total.
Qed.

Lemma no_aplica_tabla_total (cols : option (list string)) (reemplazo : num)
    (r : nat) (t : table) (lg : list event) :
  (∀ c, c ∈ default (numericas t) cols → c ∈ columnas t) →
  ∃ t' lg', no_aplica_tabla cols reemplazo r t lg = (Ok r, t', lg').
Proof.
  intros Hsel. unfold no_aplica_tabla.
  apply resolver_total;
    [intros s s'; apply replace_ok_idem; by left | done | eauto].
Qed.

Lemma ejecutar_total (R : llamada) (df : nat) (cols : option (list string))
    (st : state) (t : table) :
  heap st !! df = Some t →
  (∀ m, metodo_de R = Some m → m ∈ METODOS_CONF) →
  (∀ c, c ∈ default (numericas t) cols →
        ∃ s, get_col c t = Some s ∧ (usa_estadistica R → sin_texto s = true)) →
  ∃ r st', ejecutar R df cols st = (Ok r, st').
Proof.
  intros Hdf Hm Hsel.
  assert (∀ c, c ∈ default (numericas t) cols → c ∈ columnas t) as Hcols.
  { intros c Hc. destruct (Hsel c Hc) as (s & Hs & _).
    apply get_col_Some_elem. by rewrite Hs. }
  destruct R as [reemplazo|metodo vb|metodo vb reemplazo]; simpl in *.
  - rewrite (tratar_no_aplica_run _ _ _ _ t Hdf).
    destruct (no_aplica_tabla_total cols reemplazo (length (heap st)) t (log st)
                Hcols) as (t' & lg' & ->).
    unfold con_nueva. simpl. eauto.
  - rewrite (tratar_confidencial_run _ _ _ _ _ t Hdf) by by apply Hm.
    destruct (confidencial_tabla_total cols metodo vb (length (heap st)) t
                (log st)) as (t' & lg' & ->).
    + intros c Hc. destruct (Hsel c Hc) as (s & Hs & Ht). exists s.
      split; [done |]. intros [-> | ->]; apply Ht; [by left | by right].
    + unfold con_nueva. simpl. eauto.
  - rewrite (tratar_censurados_run _ _ _ _ _ _ t Hdf).
    destruct (no_aplica_tabla_total cols reemplazo (length (heap st)) t
                (log st ++ [EvPrint RepCabecera]) Hcols) as (t1 & lg1 & E1).
    rewrite E1. apply no_aplica_col in E1 as (_ & Hc1 & Hn1 & _ & Hcol).
    rewrite decide_True by by apply Hm.
    destruct (confidencial_tabla_total cols metodo vb (S (length (heap st))) t1
                lg1) as (t2 & lg2 & ->); [| by eauto].
    rewrite Hn1. intros c Hc. destruct (Hsel c Hc) as (s & Hs & Ht).
    rewrite (Hcol c s Hs). eexists. split; [done |].
    intros Hmm. assert (sin_texto s = true) as Hst.
    { apply Ht. unfold usa_estadistica. simpl.
      destruct Hmm as [-> | ->]; [by left | by right]. }
    case_decide; [by apply sin_texto_replace | done].
Qed.

Lemma numericas_sin_texto (t : table) :
  NoDup (columnas t) →
  ∀ c, c ∈ numericas t → ∃ s, get_col c t = Some s ∧ sin_texto s = true.
Proof.
  intros Hnd c Hc. apply (numericas_elem c t Hnd) in Hc as [xs Hxs].
  by exists (NumCol xs).
Qed.

(** ** The log of a call does not depend on what was logged before *)

Lemma bucle_prefijo (g : column → result column) (r : nat) (l : list string) :
  ∀ t lg,
    bucle g r l t lg =
    ((bucle g r l t []).1.1, (bucle g r l t []).1.2, lg ++ (bucle g r l t []).2).
Proof.
  induction l as [|c l IH]; intros t lg; simpl.
  - by rewrite app_nil_r.
  - destruct (get_col c t) as [s|]; simpl; [| by rewrite app_nil_r].
    destruct (g s) as [s'|e]; simpl; [| by rewrite app_nil_r].
    rewrite (IH _ (lg ++ _)), (IH _ [EvSet r c s']). simpl.
    by rewrite <- app_assoc.
Qed.

Lemma resolver_prefijo (k : Qc) (g : column → result column)
    (rep : nat → nat → report) (cols : option (list string)) (r : nat)
    (t : table) (lg : list event) :
  resolver k g rep cols r t lg =
  ((resolver k g rep cols r t []).1.1, (resolver k g rep cols r t []).1.2,
   lg ++ (resolver k g rep cols r t []).2).
Proof.
  unfold resolver.
  destruct (primera_ausente _ _); simpl; [by rewrite app_nil_r |].
  rewrite (bucle_prefijo g r _ t lg).
  destruct (bucle g r _ t []) as [[[u|e] t'] lg']; simpl; [| done].
  by rewrite <- app_assoc.
Qed.

(** X4.  The combined treatment checks the method only in its second
    pass.  With a method that is not accepted and a selection of existing
    columns of a table whose names are distinct, it raises the method
    error after the not-applicable pass has run in full: the state it
    leaves is the one [tratar_no_aplica] leaves, table and report, with
    the header printed before and no closing line. *)
Theorem X4_censurados_metodo_tardio (df : nat) (cols : option (list string))
    (metodo : string) (valor_bajo reemplazo : num) (st : state) (t : table) :
  heap st !! df = Some t →
  NoDup (columnas t) →
  metodo ∉ METODOS_CONF →
  (∀ c, c ∈ default (numericas t) cols → c ∈ columnas t) →
  ∃ t1 evs,
    tratar_no_aplica df cols reemplazo st
      = (Ok (length (heap st)), State (heap st ++ [t1]) (log st ++ evs)) ∧
    tratar_censurados df cols metodo valor_bajo reemplazo st
      = (Raise (ValueError metodo),
         State (heap st ++ [t1]) (log st ++ [EvPrint RepCabecera] ++ evs)).
Proof.
  intros Hdf _ Hm Hsel.
  destruct (no_aplica_tabla_total cols reemplazo (length (heap st)) t [] Hsel)
    as (t1 & evs & E).
  exists t1, evs.
  rewrite (tratar_no_aplica_run _ _ _ _ t Hdf),
    (tratar_censurados_run _ _ _ _ _ _ t Hdf).
  unfold no_aplica_tabla in *.
  rewrite (resolver_prefijo _ _ _ _ _ _ (log st)),
    (resolver_prefijo _ _ _ _ _ _ (log st ++ _)), E. simpl.
  rewrite decide_False by done. unfold con_nueva. simpl.
  by rewrite <- app_assoc.
Qed.

Lemma X4_censurados_metodo_tardio_witness :
  ∃ t1 evs,
    tratar_no_aplica 0 None reemplazo_defecto st_pop
      = (Ok 1, State [tabla_pop; t1] evs) ∧
    tratar_censurados 0 None "moda" valor_bajo_defecto reemplazo_defecto st_pop
      = (Raise (ValueError "moda"),
         State [tabla_pop; t1] (EvPrint RepCabecera :: evs)).
Proof.
  apply (X4_censurados_metodo_tardio 0 None "moda" valor_bajo_defecto
           reemplazo_defecto st_pop tabla_pop eq_refl).
  - por_calculo.
  - intros H. repeat (apply elem_of_cons in H as [H | H]; [discriminate H |]).
    inversion H.
  - intros c. apply numericas_columnas.
Defined.

(** ** A second confidential pass *)

Lemma imputacion_no_8 (metodo : string) (valor_bajo : num)
    (s : column) (v : num) :
  metodo ∈ METODOS_CONF →
  (metodo = "valor_bajo" → valor_bajo ≠ Fin menos_8) →
  imputacion metodo valor_bajo s = Ok v →
  num_eq menos_8 v = false.
Proof.
  intros Hm Hvb Hv. unfold METODOS_CONF in Hm.
  repeat (apply elem_of_cons in Hm as [-> | Hm]); [..| inversion Hm].
  - by injection Hv as <-.
  - by injection Hv as <-.
  - destruct (imputacion_no_negativa "mediana" valor_bajo s v) as (q & -> & Hq);
      [by left | done |]. by apply no_negativo_no_codigo.
  - destruct (imputacion_no_negativa "media" valor_bajo s v) as (q & -> & Hq);
      [by right | done |]. by apply no_negativo_no_codigo.
  - injection Hv as <-. destruct valor_bajo as [q|]; [| done]. simpl.
    apply bool_decide_eq_false. intros E. apply Hvb; [done | by rewrite E].
Qed.

(** A loop over columns that [g] returns as they are leaves the table as
    it is. *)
Lemma bucle_identidad_en (g : column → result column) (r : nat)
    (l : list string) :
  ∀ t lg, (∀ c, c ∈ l → ∃ s, get_col c t = Some s ∧ g s = Ok s) →
          ∃ lg', bucle g r l t lg = (Ok tt, t, lg').
Proof.
  induction l as [|c0 l IH]; intros t lg Hl; simpl; [by eauto |].
  destruct (Hl c0) as (s0 & Hs0 & Hg); [left |].
  rewrite Hs0, Hg, (set_col_id _ _ _ Hs0). apply IH.
  intros c Hc. apply Hl. by right.
Qed.

Lemma confidencial_tabla_idem (cols : option (list string)) (metodo : string)
    (valor_bajo : num) (r : nat) (t : table) (lg : list event) (r1 : nat)
    (t1 : table) (lg1 : list event) (r2 : nat) (lg2 : list event) :
  confidencial_tabla cols metodo valor_bajo r t lg = (Ok r1, t1, lg1) →
  (∃ lg3, confidencial_tabla cols metodo valor_bajo r2 t1 lg2 = (Ok r2, t1, lg3)) ∧
  (metodo ∈ METODOS_CONF →
   (metodo = "valor_bajo" → valor_bajo ≠ Fin menos_8) →
   confidencial_tabla cols metodo valor_bajo r2 t1 lg2
     = (Ok r2, t1, lg2 ++ [EvPrint (RepConfidencial 0 0 metodo)])).
Proof.
  intros H. pose proof H as H0.
  apply confidencial_tabla_col in H0 as (_ & Hc & Hn & Hcol).
  assert (∀ c, c ∈ default (numericas t) cols → c ∈ columnas t) as Hp.
  { unfold confidencial_tabla in H.
    apply resolver_ok in H as (_ & _ & Hp & _); [done | apply tratar_col_idem]. }
  unfold confidencial_tabla, resolver. rewrite Hn.
  rewrite (proj2 (primera_ausente_None t1 _)); [| by rewrite Hc].
  set (l := filter _ _).
  assert (∀ c, c ∈ l →
            ∃ s s', get_col c t = Some s ∧ get_col c t1 = Some s' ∧
                    any (eq_mask menos_8 s') = true ∧
                    tratar_col metodo valor_bajo s = Ok s') as Hl.
  { intros c Hcl. apply list_elem_of_filter in Hcl as [Hk Hsel].
    destruct (proj2 (get_col_Some_elem c t) (Hp c Hsel)) as [s Hs].
    destruct (Hcol c s Hs) as (s' & Hs' & Hpaso).
    unfold tiene in Hk. rewrite Hs' in Hk.
    exists s, s'. repeat (split; [done |]).
    unfold paso_8 in Hpaso. case_decide as Hd; [done |].
    injection Hpaso as <-. exfalso. by apply Hd. }
  split.
  - destruct (bucle_identidad_en (tratar_col metodo valor_bajo) r2 l t1 lg2)
      as [lg3 ->]; [| by eauto].
    intros c Hcl. destruct (Hl c Hcl) as (s & s' & _ & Hs' & _ & Htr).
    exists s'. split; [done |]. by apply (tratar_col_idem _ _ s).
  - intros Hm Hvb. assert (l = []) as ->; [| done].
    destruct l as [|c l'] eqn:El; [done |]. exfalso.
    destruct (Hl c) as (s & s' & _ & _ & Hk & Htr); [left |].
    apply tratar_col_replace in Htr as (v & Hv & ->).
    rewrite replace_quita in Hk; [done |].
    by apply (imputacion_no_8 metodo valor_bajo s).
Qed.

(** X5.  The confidential resolver is idempotent: called on its own
    result with the same arguments it returns a table equal to that
    result.  Unless the caller passes -8 as the fixed low value, the
    second call treats nothing and reports 0 columns and 0 cells. *)
Theorem X5_confidencial_idempotente (df : nat) (cols : option (list string))
    (metodo : string) (valor_bajo : num) (st : state) (t : table) (r1 : nat)
    (st1 : state) :
  heap st !! df = Some t →
  tratar_confidencial df cols metodo valor_bajo st = (Ok r1, st1) →
  ∃ r2 st2,
    tratar_confidencial r1 cols metodo valor_bajo st1 = (Ok r2, st2) ∧
    heap st2 !! r2 = heap st1 !! r1 ∧
    ((metodo = "valor_bajo" → valor_bajo ≠ Fin menos_8) →
     log st2 = log st1 ++ [EvPrint (RepConfidencial 0 0 metodo)]).
Proof.
  intros Hdf Hrun.
  apply (confidencial_resultado _ _ _ _ _ t) in Hrun
    as (Hm & t1 & lg1 & -> & H); [| done].
  pose proof H as H0. apply confidencial_tabla_col in H0 as (-> & _).
  assert (heap (State (heap st ++ [t1]) lg1) !! length (heap st) = Some t1)
    as Hdf1 by by apply list_lookup_middle.
  rewrite (tratar_confidencial_run _ _ _ _ _ t1 Hdf1 Hm). simpl.
  destruct (confidencial_tabla_idem _ _ _ _ _ _ _ _ _
              (length (heap st ++ [t1])) lg1 H) as [[lg3 E] Hcero].
  eexists _, _. split; [by rewrite E |]. simpl. split.
  - simpl in Hdf1. rewrite Hdf1. by apply list_lookup_middle.
  - intros Hvb. rewrite (Hcero Hm Hvb) in E. by injection E as <-.
Qed.

Lemma X5_confidencial_idempotente_witness :
  ∃ r2 st2,
    tratar_confidencial 1 None "media" valor_bajo_defecto
      (tratar_confidencial 0 None "media" valor_bajo_defecto st_pop).2
      = (Ok r2, st2) ∧
    heap st2 !! r2
      = heap (tratar_confidencial 0 None "media" valor_bajo_defecto st_pop).2 !! 1.
Proof.
  assert (tratar_confidencial 0 None "media" valor_bajo_defecto st_pop
          = (Ok 1, (tratar_confidencial 0 None "media" valor_bajo_defecto
                      st_pop).2)) as Hrun by por_calculo.
  destruct (X5_confidencial_idempotente 0 None "media" valor_bajo_defecto
              st_pop tabla_pop 1 _ eq_refl Hrun) as (r2 & st2 & H1 & H2 & _).
  by exists r2, st2.
Defined.

(** ** The cells the confidential pass writes *)

Lemma eq_mask_vista (k : Qc) (s : column) :
  eq_mask k s = map (obj_eq k) (vista s).
Proof. destruct s as [xs|bs|os]; simpl; by rewrite ?map_map. Qed.

Lemma vista_sin_codigo (k : Qc) (s : column) (i : nat) (o : obj) :
  any (eq_mask k s) = false → vista s !! i = Some o → obj_eq k o = false.
Proof.
  rewrite eq_mask_vista. intros H Ho. apply any_false in H.
  rewrite Forall_forall in H. apply H.
  apply list_elem_of_fmap. exists o. split; [done |].
  by apply list_elem_of_lookup_2 in Ho.
Qed.

Lemma vista_replace_codigo (k : Qc) (v : num) (s : column) (i : nat) (o : obj) :
  vista s !! i = Some o → obj_eq k o = true →
  vista (replace k v s) !! i = Some (ONum v).
Proof.
  intros Ho Hk. rewrite vista_replace.
  change (map ?f ?l) with (f <$> l). by rewrite list_lookup_fmap, Ho; simpl; rewrite Hk.
Qed.

(** X6.  With method "mediana" or "media" every confidential cell of a
    selected column receives one and the same value for the column, and
    that value is a number that is not negative: never the
    missing-value marker, never a code. *)
Theorem X6_estadistica_no_negativa (df : nat) (cols : option (list string))
    (metodo : string) (valor_bajo : num) (st : state) (t : table) (r : nat)
    (st' : state) :
  heap st !! df = Some t →
  metodo = "mediana" ∨ metodo = "media" →
  tratar_confidencial df cols metodo valor_bajo st = (Ok r, st') →
  ∀ c s, c ∈ default (numericas t) cols → get_col c t = Some s →
    ∃ s' q, get_col c (heap st' !!! r) = Some s' ∧ (0 ≤ q)%Qc ∧
      ∀ i o, vista s !! i = Some o → obj_eq menos_8 o = true →
             vista s' !! i = Some (ONum (Fin q)).
Proof.
  intros Hdf Hm Hrun c s Hc Hs.
  destruct (ejecutar_resultado (Confidencial metodo valor_bajo) df cols st t r
              st' Hdf Hrun) as (_ & t' & Ht' & _ & _ & Hcol).
  rewrite (list_lookup_total_correct _ _ _ Ht').
  destruct (Hcol c s Hs) as (s' & Hs' & Hp). simpl in Hp. unfold paso_8 in Hp.
  exists s'. case_decide as Hd.
  - apply tratar_col_replace in Hp as (v & Hv & ->).
    destruct (imputacion_no_negativa _ _ _ _ Hm Hv) as (q & -> & Hq).
    exists q. repeat (split; [done |]). intros i o. apply vista_replace_codigo.
  - injection Hp as <-. exists 0%Qc. repeat (split; [done |]).
    intros i o Ho Hk.
    assert (any (eq_mask menos_8 s) = false) as Hno.
    { destruct (any (eq_mask menos_8 s)); [| done]. exfalso. by apply Hd. }
    by rewrite (vista_sin_codigo _ _ _ _ Hno Ho) in Hk.
Qed.

Lemma X6_estadistica_no_negativa_witness :
  ∃ s' q,
    get_col "pop"
      (heap (tratar_confidencial 0 None "media" valor_bajo_defecto st_pop).2 !!! 1)
      = Some s' ∧ (0 ≤ q)%Qc ∧
    ∀ i o, vista pop !! i = Some o → obj_eq menos_8 o = true →
           vista s' !! i = Some (ONum (Fin q)).
Proof.
  assert (tratar_confidencial 0 None "media" valor_bajo_defecto st_pop
          = (Ok 1, (tratar_confidencial 0 None "media" valor_bajo_defecto
                      st_pop).2)) as Hrun by por_calculo.
  apply (X6_estadistica_no_negativa 0 None "media" valor_bajo_defecto st_pop
           tabla_pop 1 _ eq_refl (or_intror eq_refl) Hrun "pop" pop).
  - por_calculo.
  - reflexivity.
Defined.

(** ** Marking a table that holds no code *)

Lemma marcar_bucle_limpio (r : nat) (sufijo_6 sufijo_8 : string)
    (l : list string) (t : table) (lg : list event) :
  (∀ c, c ∈ l → ∃ s, get_col c t = Some s ∧
                     any (eq_mask menos_6 s) = false ∧
                     any (eq_mask menos_8 s) = false) →
  marcar_bucle r sufijo_6 sufijo_8 l t lg = (Ok 0, t, lg).
Proof.
  induction l as [|c l IH]; intros Hl; simpl; [done |].
  destruct (Hl c) as (s & Hs & H6 & H8); [left |].
  unfold marcar_paso. rewrite Hs. simpl. rewrite H6, H8. simpl.
  rewrite IH; [done |]. intros c' Hc'. apply Hl. by right.
Qed.

Lemma marcar_limpia (df : nat) (sufijo_6 sufijo_8 : string) (st : state)
    (t : table) :
  heap st !! df = Some t → NoDup (columnas t) → limpia t →
  marcar_censurados df None sufijo_6 sufijo_8 st
    = (Ok (length (heap st)),
       State (heap st ++ [t]) (log st ++ [EvPrint (RepMarcar 0)])).
Proof.
  intros Hdf Hnd Hl. rewrite (marcar_censurados_run _ _ _ _ _ t Hdf).
  unfold marcar_tabla. simpl. rewrite marcar_bucle_limpio; [done |].
  intros c Hc. apply (numericas_elem c t Hnd) in Hc as [xs Hxs].
  exists (NumCol xs). split; [done |].
  apply (Hl c (NumCol xs)); [by apply get_col_elem_of | done].
Qed.

(** X7.  Flags have to be taken before the treatment.  After the combined
    treatment under the default selection, with a replacement other than
    -6 and a fixed low value that is not a code, the marker finds nothing
    to flag: it returns an equal copy of the treated table and reports 0
    flag columns, whatever the suffixes. *)
Theorem X7_marcar_tras_tratar (df : nat) (metodo : string)
    (valor_bajo reemplazo : num) (sufijo_6 sufijo_8 : string) (st : state)
    (t : table) (r : nat) (st' : state) :
  heap st !! df = Some t →
  NoDup (columnas t) →
  reemplazo ≠ Fin menos_6 →
  (metodo = "valor_bajo" →
   valor_bajo ≠ Fin menos_6 ∧ valor_bajo ≠ Fin menos_8) →
  tratar_censurados df None metodo valor_bajo reemplazo st = (Ok r, st') →
  ∃ t', heap st' !! r = Some t' ∧
        marcar_censurados r None sufijo_6 sufijo_8 st'
          = (Ok (length (heap st')),
             State (heap st' ++ [t']) (log st' ++ [EvPrint (RepMarcar 0)])).
Proof.
  intros Hdf Hnd Hr Hvb Hrun.
  destruct (censurados_limpia _ _ _ _ _ _ _ _ Hdf Hnd Hr Hvb Hrun)
    as (t' & Ht' & Hc & _ & Hl).
  exists t'. split; [done |]. apply marcar_limpia; [done | by rewrite Hc | done].
Qed.

Lemma X7_marcar_tras_tratar_witness :
  ∃ t',
    heap (tratar_censurados 0 None "nan" valor_bajo_defecto reemplazo_defecto
            st_pop).2 !! 2 = Some t' ∧
    marcar_censurados 2 None sufijo_6_defecto sufijo_8_defecto
      (tratar_censurados 0 None "nan" valor_bajo_defecto reemplazo_defecto
         st_pop).2
    = (Ok (length (heap (tratar_censurados 0 None "nan" valor_bajo_defecto
                           reemplazo_defecto st_pop).2)),
       State (heap (tratar_censurados 0 None "nan" valor_bajo_defecto
                      reemplazo_defecto st_pop).2 ++ [t'])
             (log (tratar_censurados 0 None "nan" valor_bajo_defecto
                     reemplazo_defecto st_pop).2 ++ [EvPrint (RepMarcar 0)])).
Proof.
  assert (tratar_censurados 0 None "nan" valor_bajo_defecto reemplazo_defecto
            st_pop
          = (Ok 2, (tratar_censurados 0 None "nan" valor_bajo_defecto
                      reemplazo_defecto st_pop).2)) as Hrun by por_calculo.
  apply (X7_marcar_tras_tratar 0 "nan" valor_bajo_defecto reemplazo_defecto
           sufijo_6_defecto sufijo_8_defecto st_pop tabla_pop 2 _ eq_refl).
  - por_calculo.
  - discriminate.
  - discriminate.
  - exact Hrun.
Defined.

(** ** Flags, then the treatment *)

Lemma table_ext (t1 t2 : table) :
  columnas t1 = columnas t2 → NoDup (columnas t1) →
  (∀ c, get_col c t1 = get_col c t2) → t1 = t2.
Proof.
  revert t2. induction t1 as [|[n s] t1 IH]; intros [|[n2 s2] t2]; simpl;
    try done.
  intros [= <- Hc] Hnd Hg. apply NoDup_cons in Hnd as [Hn Hnd].
  pose proof (Hg n) as Hs. simpl in Hs. rewrite !decide_True in Hs by done.
  injection Hs as <-. f_equal. apply IH; [done | done |].
  intros c. specialize (Hg c). simpl in Hg.
  destruct (decide (n = c)) as [<-|Hne]; [| done].
  rewrite (proj2 (get_col_None_elem n t1) Hn).
  symmetry. apply get_col_None_elem. unfold columnas in *. by rewrite <- Hc.
Qed.

Lemma get_col_app_r (c : string) (t a : table) :
  c ∉ columnas t → get_col c (t ++ a) = get_col c a.
Proof.
  induction t as [|[n s] t IH]; simpl; intros H; [done |].
  apply not_elem_of_cons in H as [Hne H].
  rewrite decide_False by done. by apply IH.
Qed.

Lemma columnas_app (t a : table) : columnas (t ++ a) = columnas t ++ columnas a.
Proof. unfold columnas. by rewrite fmap_app. Qed.

Lemma numericas_app (t a : table) :
  numericas (t ++ a) = numericas t ++ numericas a.
Proof. unfold numericas. by rewrite filter_app, fmap_app. Qed.

Lemma banderas_bool (sufijo_6 sufijo_8 : string) (t : table) (l : list string)
    (c : string) (s : column) :
  (c, s) ∈ banderas sufijo_6 sufijo_8 t l → ∃ m, s = BoolCol m.
Proof.
  unfold banderas. induction l as [|c0 l IH]; simpl; intros H; [inversion H |].
  apply elem_of_app in H as [H | H]; [| by apply IH].
  unfold banderas_de in H.
  destruct (get_col c0 t) as [s0|]; [| inversion H].
  apply elem_of_app in H as [H | H];
    (destruct (any _); [| inversion H]);
    apply list_elem_of_singleton in H; injection H as -> ->; eauto.
Qed.

Lemma numericas_banderas (sufijo_6 sufijo_8 : string) (t : table)
    (l : list string) :
  numericas (banderas sufijo_6 sufijo_8 t l) = [].
Proof.
  unfold numericas. rewrite filter_vacio; [done |].
  intros [c s] H. apply banderas_bool in H as [m Hm]. simpl in *. by subst s.
Qed.

Lemma marcar_fresco_run (df : nat) (cols : option (list string))
    (sufijo_6 sufijo_8 : string) (st : state) (t : table) :
  heap st !! df = Some t →
  (∀ c, c ∈ default (numericas t) cols → c ∈ columnas t) →
  NoDup (columnas t ++
         (banderas sufijo_6 sufijo_8 t (default (numericas t) cols)).*1) →
  ∃ lg',
    marcar_censurados df cols sufijo_6 sufijo_8 st
      = (Ok (length (heap st)),
         State (heap st ++
                [t ++ banderas sufijo_6 sufijo_8 t (default (numericas t) cols)])
               lg').
Proof.
  intros Hdf Hsel Hnd.
  rewrite (marcar_censurados_run _ _ _ _ _ t Hdf). unfold marcar_tabla.
  destruct (marcar_bucle_fresco sufijo_6 sufijo_8 (length (heap st)) t
              (default (numericas t) cols) [] (log st) Hsel Hnd)
    as (n & lg' & Hb).
  rewrite app_nil_r in Hb. rewrite Hb. unfold con_nueva. simpl. eauto.
Qed.

(** Under the default selection a treatment of a flagged table is the
    treatment of the table, followed by the flags. *)
Lemma tratada_con_banderas (R : llamada) (t B t2 t3 : table) :
  NoDup (columnas t ++ columnas B) →
  numericas B = [] →
  columnas t2 = columnas (t ++ B) →
  columnas t3 = columnas t →
  (∀ c s, get_col c (t ++ B) = Some s →
     ∃ s', get_col c t2 = Some s' ∧
           columna_tratada R (numericas (t ++ B)) c s = Ok s') →
  (∀ c s, get_col c t = Some s →
     ∃ s', get_col c t3 = Some s' ∧
           columna_tratada R (numericas t) c s = Ok s') →
  t2 = t3 ++ B.
Proof.
  intros Hnd HB Hc2 Hc3 H2 H3.
  rewrite numericas_app, HB, app_nil_r in H2.
  apply table_ext.
  - by rewrite Hc2, !columnas_app, Hc3.
  - by rewrite Hc2, columnas_app.
  - intros c. destruct (get_col c (t ++ B)) as [s|] eqn:Es.
    + destruct (H2 c s Es) as (s' & -> & Htr).
      destruct (decide (c ∈ columnas t)) as [Hc|Hc].
      * rewrite get_col_app_l in Es by done.
        destruct (H3 c s Es) as (s'' & Hs'' & Htr').
        rewrite get_col_app_l by by rewrite Hc3. congruence.
      * rewrite get_col_app_r in Es by done.
        rewrite get_col_app_r by by rewrite Hc3.
        apply columna_tratada_fuera in Htr; [by subst s' |].
        intros Hn. by apply Hc, numericas_columnas.
    + apply get_col_None_elem in Es.
      rewrite (proj2 (get_col_None_elem c t2)) by by rewrite Hc2.
      symmetry. apply get_col_None_elem.
      by rewrite columnas_app, Hc3, <- columnas_app.
Qed.

(** X8.  Flagging before the treatment loses nothing.  On a table whose
    names and flag names are all distinct, under the default selection,
    the marker returns; and when a resolver returns both on the marked
    table and on the table itself, the first result is the second
    followed by the flag columns of the untreated table. *)
Theorem X8_marcar_y_tratar (R : llamada) (df : nat)
    (sufijo_6 sufijo_8 : string) (st : state) (t : table) :
  heap st !! df = Some t →
  NoDup (columnas t ++ (banderas sufijo_6 sufijo_8 t (numericas t)).*1) →
  ∃ r1 st1,
    marcar_censurados df None sufijo_6 sufijo_8 st = (Ok r1, st1) ∧
    ∀ r2 st2 r3 st3,
      ejecutar R r1 None st1 = (Ok r2, st2) →
      ejecutar R df None st = (Ok r3, st3) →
      ∃ t3,
        heap st3 !! r3 = Some t3 ∧
        heap st2 !! r2 = Some (t3 ++ banderas sufijo_6 sufijo_8 t (numericas t)).
Proof.
  intros Hdf Hnd.
  set (B := banderas sufijo_6 sufijo_8 t (numericas t)) in *.
  destruct (marcar_fresco_run df None sufijo_6 sufijo_8 st t Hdf
              (λ c, numericas_columnas c t) Hnd) as [lg1 E1].
  simpl in E1. fold B in E1.
  set (st1 := State (heap st ++ [t ++ B]) lg1) in *.
  assert (heap st1 !! length (heap st) = Some (t ++ B)) as Hdf1
    by by apply list_lookup_middle.
  exists (length (heap st)), st1. split; [done |].
  intros r2 st2 r3 st3 E2 E3.
  destruct (ejecutar_resultado R _ None st1 (t ++ B) r2 st2 Hdf1 E2)
    as (_ & t2 & Ht2 & Hc2 & _ & H2).
  destruct (ejecutar_resultado R df None st t r3 st3 Hdf E3)
    as (_ & t3 & Ht3 & Hc3 & _ & H3).
  exists t3. split; [done |]. rewrite Ht2. f_equal.
  apply (tratada_con_banderas R t B t2 t3); try done.
  apply numericas_banderas.
Qed.

Lemma X8_marcar_y_tratar_witness :
  ∃ t3,
    heap (ejecutar (Censurados "mediana" valor_bajo_defecto reemplazo_defecto)
            0 None st_pop).2 !! 2 = Some t3 ∧
    heap (ejecutar (Censurados "mediana" valor_bajo_defecto reemplazo_defecto)
            1 None
            (marcar_censurados 0 None sufijo_6_defecto sufijo_8_defecto
               st_pop).2).2 !! 3
      = Some (t3 ++ banderas sufijo_6_defecto sufijo_8_defecto tabla_pop
                      (numericas tabla_pop)).
Proof.
  assert (NoDup (columnas tabla_pop ++
                 (banderas sufijo_6_defecto sufijo_8_defecto tabla_pop
                    (numericas tabla_pop)).*1)) as Hnd by por_calculo.
  destruct (X8_marcar_y_tratar
              (Censurados "mediana" valor_bajo_defecto reemplazo_defecto) 0
              sufijo_6_defecto sufijo_8_defecto st_pop tabla_pop eq_refl Hnd)
    as (r1 & st1 & E1 & H).
  assert (marcar_censurados 0 None sufijo_6_defecto sufijo_8_defecto st_pop
          = (Ok 1, (marcar_censurados 0 None sufijo_6_defecto sufijo_8_defecto
                      st_pop).2)) as Em by por_calculo.
  rewrite Em in E1. injection E1 as <- <-.
  apply (H 3 _ 2 _).
  - por_calculo.
  - por_calculo.
Defined.

(** ** The percentages of the summary *)

Lemma codigos_distintos (o : obj) :
  obj_eq menos_6 o = true → obj_eq menos_8 o = true → False.
Proof.
  destruct o as [w|x|b]; simpl; try done.
  - destruct x as [q|]; simpl; [| done].
    intros H6 H8. apply bool_decide_eq_true in H6, H8. subst q.
    revert H8. change (menos_6 ≠ menos_8). por_calculo_no.
  - intros H6 H8. apply bool_decide_eq_true in H6, H8.
    rewrite H6 in H8. revert H8. change (menos_6 ≠ menos_8). por_calculo_no.
Qed.

Lemma cuenta_cons (b : bool) (m : list bool) :
  cuenta (b :: m) = (if b then 1 else 0) + cuenta m.
Proof. unfold cuenta. rewrite filter_cons. by destruct b. Qed.

(** A cell holds at most one of the two codes. *)
Lemma cuenta_codigos (s : column) :
  cuenta (eq_mask menos_6 s) + cuenta (eq_mask menos_8 s) ≤ col_len s.
Proof.
  rewrite <- (length_eq_mask menos_6 s), !eq_mask_vista.
  induction (vista s) as [|o os IH]; simpl; [done |].
  rewrite !cuenta_cons. pose proof (codigos_distintos o) as Ho.
  destruct (obj_eq menos_6 o), (obj_eq menos_8 o); simpl;
    first [lia | exfalso; by apply Ho].
Qed.

Lemma pct_cotas (k n : nat) :
  0 < n → k ≤ n →
  ∃ p, pct k n = Fin p ∧ (0 ≤ p)%Qc ∧ (p ≤ entero 100)%Qc.
Proof.
  intros Hn Hk. unfold pct. destruct n as [|n']; [lia |].
  set (n := S n') in *.
  assert (0 < entero (Z.of_nat n))%Qc as Hpos.
  { unfold entero. apply (proj1 (Z2Qc_inj_lt 0 _)). lia. }
  assert (0 ≤ / entero (Z.of_nat n))%Qc as Hinv
    by by apply Qclt_le_weak, Qcinv_pos.
  set (q := (entero (Z.of_nat k) / entero (Z.of_nat n) * entero 100)%Qc).
  assert (entero 0 ≤ q)%Qc as H0.
  { apply Qcmult_nonneg_nonneg; [| done].
    apply Qcdiv_no_negativo; apply entero_no_negativo; lia. }
  assert (q ≤ entero 100)%Qc as H100.
  { rewrite <- (Qcmult_1_l (entero 100)). unfold q.
    apply Qcmult_le_mono_nonneg_r; [done |].
    rewrite <- (Qcmult_inv_r (entero (Z.of_nat n))).
    - unfold Qcdiv. apply Qcmult_le_mono_nonneg_r; [done |].
      unfold entero. apply (proj1 (Z2Qc_inj_le _ _)). lia.
    - intros E. rewrite E in Hpos. by apply Qclt_not_eq in Hpos. }
  destruct (round1 (Fin q)) as [p|] eqn:Ep; [| done].
  exists p. split; [done |].
  exact (round1_cotas 0 100 q p H0 H100 Ep).
Qed.

(** X9.  On a table with rows and distinct names, every percentage of
    the summary is a number between 0 and 100, and no reported column has
    more special cells than the table has rows: a cell holds at most one
    of the two codes. *)
Theorem X9_porcentajes (df : nat) (st : state) (t : table)
    (rep : list (string * fila)) (st' : state) :
  heap st !! df = Some t →
  NoDup (columnas t) →
  0 < len t →
  rectangular (len t) t →
  diagnostico_censurados df st = (Ok rep, st') →
  ∀ c f, (c, f) ∈ rep →
    n_especiales f ≤ len t ∧
    ∃ p6 p8 pe,
      pct_menos_6 f = Fin p6 ∧ pct_menos_8 f = Fin p8 ∧
      pct_especiales f = Fin pe ∧
      Forall (λ p, (0 ≤ p)%Qc ∧ (p ≤ entero 100)%Qc) [p6; p8; pe].
Proof.
  intros Hdf _ Hn Hrect. unfold diagnostico_censurados.
  rewrite (list_lookup_total_correct _ _ _ Hdf). intros [= <- _] c f Hf.
  apply list_elem_of_filter in Hf as [_ Hf]. unfold resumen_de in Hf.
  apply list_elem_of_fmap in Hf as [[c' s] [[= -> ->] Hs]].
  apply list_elem_of_filter in Hs as [_ Hs]. simpl.
  pose proof (cuenta_codigos s) as Hle. rewrite (Hrect c' s Hs) in Hle.
  split; [done |].
  destruct (pct_cotas (cuenta (eq_mask menos_6 s)) (len t) Hn) as (p6 & E6 & B6);
    [lia |].
  destruct (pct_cotas (cuenta (eq_mask menos_8 s)) (len t) Hn) as (p8 & E8 & B8);
    [lia |].
  destruct (pct_cotas (cuenta (eq_mask menos_6 s) + cuenta (eq_mask menos_8 s))
              (len t) Hn Hle) as (pe & Ee & Be).
  exists p6, p8, pe. repeat (split; [done |]).
  repeat constructor; tauto.
Qed.

Lemma X9_porcentajes_witness :
  Forall (λ x : string * fila,
            n_especiales x.2 ≤ len tabla_choque ∧
            ∃ p6 p8 pe,
              pct_menos_6 x.2 = Fin p6 ∧ pct_menos_8 x.2 = Fin p8 ∧
              pct_especiales x.2 = Fin pe ∧
              Forall (λ p, (0 ≤ p)%Qc ∧ (p ≤ entero 100)%Qc) [p6; p8; pe])
         (filter (λ r : string * fila, 0 < n_especiales r.2)
            (resumen_de tabla_choque)).
Proof.
  apply Forall_forall. intros [c f].
  apply (X9_porcentajes 0 (State [tabla_choque] []) tabla_choque _
           (State [tabla_choque] []) eq_refl).
  - por_calculo.
  - simpl. lia.
  - intros c' s H.
    repeat (apply elem_of_cons in H as [[= -> ->] | H]; [reflexivity |]).
    inversion H.
  - reflexivity.
Defined.

(** ** What the resolvers report and what the summary says *)

Lemma resolver_reporte (k : Qc) (g : column → result column)
    (rep : nat → nat → report) (cols : option (list string)) (r : nat)
    (t : table) (lg : list event) (r' : nat) (t' : table) (lg' : list event) :
  resolver k g rep cols r t lg = (Ok r', t', lg') →
  ∃ evs,
    lg' = lg ++ evs ++
          [EvPrint (rep (length (filter (λ c, tiene k t c = true)
                                   (default (numericas t) cols)))
                        (celdas k t (filter (λ c, tiene k t c = true)
                                       (default (numericas t) cols))))].
Proof.
  unfold resolver. destruct (primera_ausente _ _); [done |].
  rewrite bucle_prefijo.
  destruct (bucle g r _ t []) as [[[u|e] t1] evs]; simpl; [| done].
  intros [= _ _ <-]. exists evs. by rewrite <- app_assoc.
Qed.

Lemma cuentas_resumen (k : Qc) (campo : fila → nat) (F : column → fila)
    (t : table) (l : list (string * column)) :
  (∀ s, campo (F s) = cuenta (eq_mask k s)) →
  (∀ s, campo (F s) ≤ n_especiales (F s)) →
  (∀ c s, (c, s) ∈ l → get_col c t = Some s) →
  let rep := filter (λ r : string * fila, 0 < n_especiales r.2)
               (map (λ p : string * column, (p.1, F p.2)) l) in
  let cols_k := filter (λ c, tiene k t c = true) l.*1 in
  length cols_k = afectadas campo rep ∧ celdas k t cols_k = total campo rep.
Proof.
  intros Hcampo Hle. induction l as [|[c s] l IH]; intros Hl; [done |].
  assert (tiene k t c = any (eq_mask k s)) as Ek.
  { unfold tiene. by rewrite (Hl c s) by left. }
  specialize (IH (λ c' s' H, Hl c' s' (proj2 (elem_of_cons _ _ _) (or_intror H)))).
  destruct IH as [IH1 IH2]. simpl in IH1, IH2 |- *.
  rewrite !filter_cons. simpl. rewrite Ek.
  pose proof (cuenta_any (eq_mask k s)) as Hk.
  pose proof (Hcampo s) as Hc. pose proof (Hle s) as Hs.
  unfold afectadas, total in *.
  destruct (any (eq_mask k s)) eqn:Ea.
  - assert (0 < cuenta (eq_mask k s)) as Hpos by by apply Hk.
    rewrite decide_True by done.
    rewrite (decide_True (P := 0 < n_especiales (F s))) by lia.
    simpl. rewrite filter_cons. simpl. rewrite decide_True by lia.
    simpl. rewrite (Hl c s) by left. split; [by f_equal | ].
    rewrite Hc. by f_equal.
  - assert (cuenta (eq_mask k s) = 0) as Hcero.
    { destruct (decide (0 < cuenta (eq_mask k s))) as [H|H]; [| lia].
      apply Hk in H. done. }
    rewrite decide_False by done.
    destruct (decide (0 < n_especiales (F s))); [| done].
    simpl. rewrite filter_cons. simpl. rewrite decide_False by lia.
    split; [done |]. rewrite Hc, Hcero. done.
Qed.

Lemma cuentas_diagnostico (k : Qc) (campo : fila → nat) (df : nat)
    (st st0 : state) (t : table) (rep : list (string * fila)) :
  (k = menos_6 ∧ campo = n_menos_6) ∨ (k = menos_8 ∧ campo = n_menos_8) →
  heap st !! df = Some t →
  NoDup (columnas t) →
  diagnostico_censurados df st = (Ok rep, st0) →
  length (filter (λ c, tiene k t c = true) (numericas t)) = afectadas campo rep ∧
  celdas k t (filter (λ c, tiene k t c = true) (numericas t)) = total campo rep.
Proof.
  intros Hk Hdf Hnd. unfold diagnostico_censurados.
  rewrite (list_lookup_total_correct _ _ _ Hdf). intros [= <- _].
  unfold resumen_de, numericas.
  apply (cuentas_resumen k campo
           (λ s, Fila (cuenta (eq_mask menos_6 s))
                      (pct (cuenta (eq_mask menos_6 s)) (len t))
                      (cuenta (eq_mask menos_8 s))
                      (pct (cuenta (eq_mask menos_8 s)) (len t))
                      (cuenta (eq_mask menos_6 s) + cuenta (eq_mask menos_8 s))
                      (pct (cuenta (eq_mask menos_6 s) +
                            cuenta (eq_mask menos_8 s)) (len t)))).
  - intros s. by destruct Hk as [[-> ->] | [-> ->]].
  - intros s. destruct Hk as [[-> ->] | [-> ->]]; simpl; lia.
  - intros c s H. apply list_elem_of_filter in H as [_ H].
    by apply get_col_elem.
Qed.

(** X10.  The reports of the two resolvers agree with the summary of
    their input.  Under the default selection, on a table whose names
    are distinct, the not-applicable resolver reports as many columns as
    the summary has rows with a positive count of -6, and as many cells
    as these counts add up to; the confidential resolver reports the
    same for -8.  The report is the last line of the log. *)
Theorem X10_reporte_y_resumen (df : nat) (st st0 : state) (t : table)
    (rep : list (string * fila)) :
  heap st !! df = Some t →
  NoDup (columnas t) →
  diagnostico_censurados df st = (Ok rep, st0) →
  (∀ reemplazo r st',
     tratar_no_aplica df None reemplazo st = (Ok r, st') →
     ∃ evs, log st' = log st ++ evs ++
                      [EvPrint (RepNoAplica (afectadas n_menos_6 rep)
                                            (total n_menos_6 rep) reemplazo)]) ∧
  (∀ metodo valor_bajo r st',
     tratar_confidencial df None metodo valor_bajo st = (Ok r, st') →
     ∃ evs, log st' = log st ++ evs ++
                      [EvPrint (RepConfidencial (afectadas n_menos_8 rep)
                                                (total n_menos_8 rep) metodo)]).
Proof.
  intros Hdf Hnd Hrep. split.
  - intros reemplazo r st' Hrun.
    apply (no_aplica_resultado _ _ _ _ t) in Hrun as (t' & lg' & -> & H);
      [| done].
    apply resolver_reporte in H as [evs ->]. exists evs. simpl.
    by destruct (cuentas_diagnostico menos_6 n_menos_6 df st st0 t rep
                   (or_introl (conj eq_refl eq_refl)) Hdf Hnd Hrep) as [-> ->].
  - intros metodo valor_bajo r st' Hrun.
    apply (confidencial_resultado _ _ _ _ _ t) in Hrun
      as (_ & t' & lg' & -> & H); [| done].
    apply resolver_reporte in H as [evs ->]. exists evs. simpl.
    by destruct (cuentas_diagnostico menos_8 n_menos_8 df st st0 t rep
                   (or_intror (conj eq_refl eq_refl)) Hdf Hnd Hrep) as [-> ->].
Qed.

Lemma X10_reporte_y_resumen_witness :
  (∃ evs, log (tratar_no_aplica 0 None reemplazo_defecto
                 (State [tabla_choque] [])).2
          = evs ++ [EvPrint (RepNoAplica 1 2 reemplazo_defecto)]) ∧
  (∃ evs, log (tratar_confidencial 0 None "media" valor_bajo_defecto
                 (State [tabla_choque] [])).2
          = evs ++ [EvPrint (RepConfidencial 1 1 "media")]).
Proof.
  assert (tratar_no_aplica 0 None reemplazo_defecto (State [tabla_choque] [])
          = (Ok 1, (tratar_no_aplica 0 None reemplazo_defecto
                      (State [tabla_choque] [])).2)) as Hrun6 by por_calculo.
  assert (tratar_confidencial 0 None "media" valor_bajo_defecto
            (State [tabla_choque] [])
          = (Ok 1, (tratar_confidencial 0 None "media" valor_bajo_defecto
                      (State [tabla_choque] [])).2)) as Hrun8 by por_calculo.
  destruct (X10_reporte_y_resumen 0 (State [tabla_choque] [])
              (State [tabla_choque] []) tabla_choque
              (filter (λ r : string * fila, 0 < n_especiales r.2)
                 (resumen_de tabla_choque)) eq_refl) as [H6 H8].
  - por_calculo.
  - reflexivity.
  - split.
    + exact (H6 reemplazo_defecto 1 _ Hrun6).
    + exact (H8 "media" valor_bajo_defecto 1 _ Hrun8).
Defined.

(** ** The statistic of the combined treatment *)

Lemma paso_6_replace (reemplazo : num) (sel : list string) (c : string)
    (s : column) :
  c ∈ sel → paso_6 reemplazo sel c s = replace menos_6 reemplazo s.
Proof.
  intros Hc. unfold paso_6. case_decide as Hd; [done |].
  symmetry. apply replace_sin_codigo.
  destruct (any (eq_mask menos_6 s)); [| done]. exfalso. by apply Hd.
Qed.

Lemma replace_6_tiene_8 (v : num) (s : column) :
  any (eq_mask menos_8 s) = true →
  any (eq_mask menos_8 (replace menos_6 v s)) = true.
Proof.
  rewrite !eq_mask_vista, vista_replace.
  induction (vista s) as [|o os IH]; simpl; [done |].
  unfold any in *. simpl.
  destruct (obj_eq menos_8 o) eqn:E8; simpl.
  - intros _. destruct (obj_eq menos_6 o) eqn:E6.
    + exfalso. by apply (codigos_distintos o).
    + by rewrite E8.
  - intros H. rewrite (IH H). apply orb_true_r.
Qed.

(** X11.  In the combined treatment the statistic is taken after the
    first pass: with method "mediana" or "media" a confidential cell of a
    selected column receives the statistic of the column in which -6 has
    already been replaced, so the replaced cells count among the values
    whenever the replacement is eligible. *)
Theorem X11_censurados_estadistica (df : nat) (cols : option (list string))
    (metodo : string) (valor_bajo reemplazo : num) (st : state) (t : table)
    (r : nat) (st' : state) :
  heap st !! df = Some t →
  metodo = "mediana" ∨ metodo = "media" →
  tratar_censurados df cols metodo valor_bajo reemplazo st = (Ok r, st') →
  ∀ c s, c ∈ default (numericas t) cols → get_col c t = Some s →
    any (eq_mask menos_8 s) = true →
    get_col c (heap st' !!! r)
      = Some (replace menos_8
                (imputacion_segun_spec metodo (replace menos_6 reemplazo s))
                (replace menos_6 reemplazo s)).
Proof.
  intros Hdf Hm Hrun c s Hc Hs H8.
  destruct (ejecutar_resultado (Censurados metodo valor_bajo reemplazo) df cols
              st t r st' Hdf Hrun) as (_ & t' & Ht' & _ & _ & Hcol).
  rewrite (list_lookup_total_correct _ _ _ Ht').
  destruct (Hcol c s Hs) as (s' & -> & Hp). simpl in Hp.
  rewrite paso_6_replace in Hp by done. unfold paso_8 in Hp.
  rewrite decide_True in Hp by (split; [done | by apply replace_6_tiene_8]).
  apply tratar_col_replace in Hp as (v & Hv & ->).
  by rewrite (imputacion_spec _ _ _ _ Hm Hv).
Qed.

Lemma X11_censurados_estadistica_witness :
  get_col "pop"
    (heap (tratar_censurados 0 None "mediana" valor_bajo_defecto
             reemplazo_defecto st_pop).2 !!! 2)
  = Some (NumCol [Fin 0%Qc; Fin (entero 5 / entero 2)%Qc; Fin (entero 10);
                  Fin 0%Qc; Fin (entero 5)]).
Proof.
  assert (tratar_censurados 0 None "mediana" valor_bajo_defecto
            reemplazo_defecto st_pop
          = (Ok 2, (tratar_censurados 0 None "mediana" valor_bajo_defecto
                      reemplazo_defecto st_pop).2)) as Hrun by por_calculo.
  rewrite (X11_censurados_estadistica 0 None "mediana" valor_bajo_defecto
             reemplazo_defecto st_pop tabla_pop 2 _ eq_refl
             (or_introl eq_refl) Hrun "pop" pop).
  - por_calculo.
  - por_calculo.
  - reflexivity.
  - reflexivity.
Defined.

(** ** The order of the two passes *)

Lemma imputacion_fija_valor (metodo : string) (valor_bajo : num) :
  metodo ∈ ["nan"; "cero"; "valor_bajo"] →
  ∃ v, (∀ s, imputacion metodo valor_bajo s = Ok v) ∧
       (v = NaN ∨ v = Fin 0%Qc ∨ (metodo = "valor_bajo" ∧ v = valor_bajo)).
Proof.
  intros Hm. repeat (apply elem_of_cons in Hm as [-> | Hm]); [..| inversion Hm].
  - exists NaN. split; [done | by left].
  - exists (Fin 0%Qc). split; [done | by right; left].
  - exists valor_bajo. split; [done | by right; right].
Qed.

Lemma paso_8_fijo (metodo : string) (valor_bajo v : num) (sel : list string)
    (c : string) (s : column) :
  (∀ s, imputacion metodo valor_bajo s = Ok v) →
  paso_8 metodo valor_bajo sel c s
    = Ok (if decide (c ∈ sel) then replace menos_8 v s else s).
Proof.
  intros Hv. unfold paso_8. case_decide as Hd.
  - rewrite decide_True by tauto. apply tratar_col_replace. eauto.
  - case_decide as Hc; [| done]. f_equal. symmetry. apply replace_sin_codigo.
    destruct (any (eq_mask menos_8 s)); [| done]. exfalso. by apply Hd.
Qed.

Lemma paso_6_decide (reemplazo : num) (sel : list string) (c : string)
    (s : column) :
  paso_6 reemplazo sel c s
    = if decide (c ∈ sel) then replace menos_6 reemplazo s else s.
Proof.
  case_decide as Hc; [by apply paso_6_replace |].
  unfold paso_6. rewrite decide_False; [done | tauto].
Qed.

Lemma replace_conmuta (r v : num) (s : column) :
  num_eq menos_8 r = false → num_eq menos_6 v = false →
  replace menos_8 v (replace menos_6 r s)
    = replace menos_6 r (replace menos_8 v s).
Proof.
  intros Hr Hv. destruct s as [xs|bs|os].
  - simpl. f_equal. rewrite !map_map. apply map_ext. intros x.
    destruct (num_eq menos_6 x) eqn:E6, (num_eq menos_8 x) eqn:E8;
      rewrite ?Hr, ?Hv, ?E6, ?E8; try done.
    exfalso. by apply (codigos_distintos (ONum x)).
  - rewrite (replace_sin_codigo menos_6 r (BoolCol bs))
      by (apply eq_mask_bool; by left).
    rewrite (replace_sin_codigo menos_8 v (BoolCol bs))
      by (apply eq_mask_bool; by right).
    symmetry. apply replace_sin_codigo, eq_mask_bool. by left.
  - simpl. f_equal. rewrite !map_map. apply map_ext. intros o.
    destruct (obj_eq menos_6 o) eqn:E6, (obj_eq menos_8 o) eqn:E8;
      simpl; rewrite ?Hr, ?Hv, ?E6, ?E8; try done.
    exfalso. by apply (codigos_distintos o).
Qed.

(** X12.  For the methods that write a fixed value ("nan", "cero",
    "valor_bajo") the order of the two passes does not matter.  On a
    table whose names are distinct, with a replacement other than -8 and
    a low value other than -6, when [tratar_no_aplica] followed by
    [tratar_confidencial] and [tratar_confidencial] followed by
    [tratar_no_aplica] all return, the two final tables are equal. *)
Theorem X12_pasos_conmutan (df : nat) (cols : option (list string))
    (metodo : string) (valor_bajo reemplazo : num) (st : state) (t : table)
    (r1 : nat) (st1 : state) (ra : nat) (sta : state)
    (r2 : nat) (st2 : state) (rb : nat) (stb : state) :
  heap st !! df = Some t →
  NoDup (columnas t) →
  metodo ∈ ["nan"; "cero"; "valor_bajo"] →
  reemplazo ≠ Fin menos_8 →
  (metodo = "valor_bajo" → valor_bajo ≠ Fin menos_6) →
  tratar_no_aplica df cols reemplazo st = (Ok r1, st1) →
  tratar_confidencial r1 cols metodo valor_bajo st1 = (Ok ra, sta) →
  tratar_confidencial df cols metodo valor_bajo st = (Ok r2, st2) →
  tratar_no_aplica r2 cols reemplazo st2 = (Ok rb, stb) →
  ∃ ta, heap sta !! ra = Some ta ∧ heap stb !! rb = Some ta.
Proof.
  intros Hdf Hnd Hm Hr Hvb E1 Ea E2 Eb.
  destruct (imputacion_fija_valor metodo valor_bajo Hm) as (v & Hv & Hcaso).
  assert (num_eq menos_8 reemplazo = false) as Hr'.
  { destruct reemplazo as [q|]; [| done]. simpl.
    apply bool_decide_eq_false. congruence. }
  assert (num_eq menos_6 v = false) as Hv'.
  { destruct Hcaso as [-> | [-> | [Hmv ->]]]; [done | done |].
    destruct valor_bajo as [q|]; [| done]. simpl.
    apply bool_decide_eq_false. intros ->. by apply Hvb. }
  destruct (ejecutar_resultado (NoAplica reemplazo) df cols st t r1 st1 Hdf E1)
    as (_ & t1 & Ht1 & Hc1 & Hn1 & H1).
  destruct (ejecutar_resultado (Confidencial metodo valor_bajo) r1 cols st1 t1
              ra sta Ht1 Ea) as (_ & ta & Hta & Hca & _ & Ha).
  destruct (ejecutar_resultado (Confidencial metodo valor_bajo) df cols st t
              r2 st2 Hdf E2) as (_ & t2 & Ht2 & Hc2 & Hn2 & H2).
  destruct (ejecutar_resultado (NoAplica reemplazo) r2 cols st2 t2 rb stb
              Ht2 Eb) as (_ & tb & Htb & Hcb & _ & Hb).
  exists ta. split; [done |]. rewrite Htb. f_equal.
  apply table_ext; [congruence | congruence |].
  intros c. destruct (get_col c t) as [s|] eqn:Es.
  - destruct (H1 c s Es) as (s1 & Hs1 & P1).
    destruct (Ha c s1 Hs1) as (sa & -> & Pa).
    destruct (H2 c s Es) as (s2 & Hs2 & P2).
    destruct (Hb c s2 Hs2) as (sb & -> & Pb).
    simpl in P1, Pa, P2, Pb. rewrite Hn1 in Pa. rewrite Hn2 in Pb.
    rewrite (paso_8_fijo _ _ v) in Pa, P2 by done.
    rewrite paso_6_decide in P1, Pb.
    injection P1 as <-. injection P2 as <-.
    injection Pa as <-. injection Pb as <-.
    case_decide; [| done]. f_equal. symmetry. by apply replace_conmuta.
  - apply get_col_None_elem in Es.
    rewrite (proj2 (get_col_None_elem c tb)) by congruence.
    symmetry. apply get_col_None_elem. congruence.
Qed.

Lemma X12_pasos_conmutan_witness :
  ∃ ta,
    heap (tratar_confidencial 1 None "valor_bajo" valor_bajo_defecto
            (tratar_no_aplica 0 None reemplazo_defecto st_pop).2).2 !! 2
      = Some ta ∧
    heap (tratar_no_aplica 1 None reemplazo_defecto
            (tratar_confidencial 0 None "valor_bajo" valor_bajo_defecto
               st_pop).2).2 !! 2
      = Some ta.
Proof.
  apply (X12_pasos_conmutan 0 None "valor_bajo" valor_bajo_defecto
           reemplazo_defecto st_pop tabla_pop
           1 (tratar_no_aplica 0 None reemplazo_defecto st_pop).2
           2 (tratar_confidencial 1 None "valor_bajo" valor_bajo_defecto
                (tratar_no_aplica 0 None reemplazo_defecto st_pop).2).2
           1 (tratar_confidencial 0 None "valor_bajo" valor_bajo_defecto
                st_pop).2
           2 (tratar_no_aplica 1 None reemplazo_defecto
                (tratar_confidencial 0 None "valor_bajo" valor_bajo_defecto
                   st_pop).2).2
           eq_refl).
  - por_calculo.
  - por_calculo.
  - discriminate.
  - discriminate.
  - por_calculo.
  - por_calculo.
  - por_calculo.
  - por_calculo.
Defined.

(** ** What the marker always does *)

Lemma columnas_set_col (c : string) (s : column) (t : table) :
  columnas (set_col c s t)
    = if decide (c ∈ columnas t) then columnas t else columnas t ++ [c].
Proof.
  case_decide as Hc; [by apply columnas_set_in |].
  rewrite set_col_notin by done. by rewrite columnas_app.
Qed.

Lemma set_col_prefijo (c : string) (s : column) (t : table) :
  columnas t `prefix_of` columnas (set_col c s t) ∧
  length (columnas (set_col c s t)) ≤ S (length (columnas t)).
Proof.
  rewrite columnas_set_col. case_decide.
  - split; [done | lia].
  - split; [by apply prefix_app_r | rewrite length_app; simpl; lia].
Qed.

Lemma marcar_paso_marcado (r : nat) (sufijo_6 sufijo_8 : string) (c : string)
    (t : table) (lg : list event) :
  marcado r t lg (marcar_paso r sufijo_6 sufijo_8 c t lg).
Proof.
  unfold marcar_paso, marcado.
  destruct (get_col c t) as [s|] eqn:Hs; simpl.
  2:{ exists []. rewrite app_nil_r. split; [done |]. split; [done |].
      split; [simpl; lia |]. split; [constructor | eauto]. }
  set (n6 := c +:+ sufijo_6). set (n8 := c +:+ sufijo_8).
  set (f6 := BoolCol (eq_mask menos_6 s)).
  destruct (set_col_prefijo n6 f6 t) as [P6 L6].
  destruct (any (eq_mask menos_6 s)), (any (eq_mask menos_8 s)); simpl.
  - destruct (get_col c (set_col n6 f6 t)) as [s1|]; simpl.
    + destruct (set_col_prefijo n8 (BoolCol (eq_mask menos_8 s1))
                  (set_col n6 f6 t)) as [P8 L8].
      eexists [_; _]. split; [by rewrite <- app_assoc |].
      split; [by etrans |]. split; [simpl; lia |].
      split; [repeat constructor; eauto | done].
    + eexists [_]. split; [done |]. split; [done |]. split; [simpl; lia |].
      split; [repeat constructor; eauto | eauto].
  - eexists [_]. split; [done |]. split; [done |]. split; [simpl; lia |].
    split; [repeat constructor; eauto | done].
  - rewrite Hs. simpl.
    destruct (set_col_prefijo n8 (BoolCol (eq_mask menos_8 s)) t) as [P8 L8].
    eexists [_]. split; [done |]. split; [done |]. split; [simpl; lia |].
    split; [repeat constructor; eauto | done].
  - exists []. rewrite app_nil_r. split; [done |]. split; [done |].
    split; [simpl; lia |]. split; [constructor | done].
Qed.

Lemma marcar_bucle_marcado (r : nat) (sufijo_6 sufijo_8 : string)
    (l : list string) :
  ∀ t lg, marcado r t lg (marcar_bucle r sufijo_6 sufijo_8 l t lg).
Proof.
  induction l as [|c l IH]; intros t lg; simpl.
  - exists []. rewrite app_nil_r. split; [done |]. split; [done |].
    split; [simpl; lia |]. split; [constructor | done].
  - pose proof (marcar_paso_marcado r sufijo_6 sufijo_8 c t lg) as H1.
    destruct (marcar_paso r sufijo_6 sufijo_8 c t lg) as [[[n|e] t1] lg1];
      [| exact H1].
    destruct H1 as (evs1 & E1 & P1 & L1 & F1 & N1). cbn [fst snd] in *.
    pose proof (IH t1 lg1) as H2.
    destruct (marcar_bucle r sufijo_6 sufijo_8 l t1 lg1) as [[[m|e] t2] lg2];
      destruct H2 as (evs2 & E2 & P2 & L2 & F2 & N2); cbn [fst snd] in *;
      exists (evs1 ++ evs2); subst lg1 lg2; cbn [fst snd];
      (split; [by rewrite <- app_assoc |]);
      (split; [by etrans |]);
      (split; [rewrite length_app; lia |]);
      (split; [by apply Forall_app |]).
    + rewrite length_app. lia.
    + done.
Qed.

(** X13.  On a table whose names are distinct, whatever the selection
    and the suffixes, and whether it returns or raises, the marker leaves
    the tables of the store as they were and allocates one table whose
    first names are the names of the input, in order.  Every assignment it makes writes a boolean column
    to that table and adds at most one name.  When it returns, the number
    it reports is the number of these assignments; the only exception it
    raises is the lookup of a missing name. *)
Theorem X13_marcar_siempre (df : nat) (cols : option (list string))
    (sufijo_6 sufijo_8 : string) (st : state) (t : table)
    (res : result nat) (st' : state) :
  heap st !! df = Some t →
  NoDup (columnas t) →
  marcar_censurados df cols sufijo_6 sufijo_8 st = (res, st') →
  ∃ t' evs,
    heap st' = heap st ++ [t'] ∧
    columnas t `prefix_of` columnas t' ∧
    length (columnas t') ≤ length (columnas t) + length evs ∧
    Forall (λ e, ∃ n m, e = EvSet (length (heap st)) n (BoolCol m)) evs ∧
    match res with
    | Ok r =>
        r = length (heap st) ∧
        log st' = log st ++ evs ++ [EvPrint (RepMarcar (length evs))]
    | Raise e => log st' = log st ++ evs ∧ ∃ c, e = KeyError c
    end.
Proof.
  intros Hdf _. rewrite (marcar_censurados_run _ _ _ _ _ t Hdf).
  unfold marcar_tabla, con_nueva.
  pose proof (marcar_bucle_marcado (length (heap st)) sufijo_6 sufijo_8
                (default (numericas t) cols) t (log st)) as H.
  destruct (marcar_bucle _ _ _ _ t (log st)) as [[[n|e] t1] lg1];
    destruct H as (evs & E & P & L & F & N); simpl in *;
    intros [= <- <-]; exists t1, evs; subst lg1; simpl;
    repeat (split; [done |]).
  - subst n. try (split; [done |]). by rewrite <- app_assoc.
  - done.
Qed.

Lemma X13_marcar_siempre_witness :
  ∃ (t' : table) (evs : list event),
    heap (marcar_censurados 0 None sufijo_6_defecto sufijo_8_defecto
            (State [tabla_choque] [])).2 = [tabla_choque] ++ [t'] ∧
    columnas tabla_choque `prefix_of` columnas t' ∧
    length (columnas t') ≤ length (columnas tabla_choque) + length evs.
Proof.
  assert (NoDup (columnas tabla_choque)) as Hnd by por_calculo.
  destruct (X13_marcar_siempre 0 None sufijo_6_defecto sufijo_8_defecto
              (State [tabla_choque] []) tabla_choque _ _ eq_refl Hnd
              (surjective_pairing _)) as (t' & evs & H1 & H2 & H3 & _).
  by exists t', evs.
Defined.

(** ** Text in a column that needs a statistic *)

Lemma objs_ge0_error (os : list obj) (e : exn) :
  objs_ge0 os = Raise e → e = TypeError.
Proof.
  induction os as [|o os IH]; simpl; [done |].
  destruct o as [w|x|b]; simpl; [by intros [= <-] | |];
    destruct (objs_ge0 os); try done; intros [= <-]; by apply IH.
Qed.

Lemma tratar_col_error (metodo : string) (valor_bajo : num) (s : column)
    (e : exn) :
  tratar_col metodo valor_bajo s = Raise e →
  e = TypeError ∧ sin_texto s = false.
Proof.
  intros H.
  assert (sin_texto s = false) as Hs.
  { destruct (sin_texto s) eqn:E; [| done].
    destruct (tratar_col_total metodo valor_bajo s (λ _, E)) as [s' Hs'].
    congruence. }
  split; [| done].
  assert (∃ e', ge0_mask s = Raise e') as [e' He'].
  { destruct (ge0_mask s) as [m|e'] eqn:E; [| by eauto].
    assert (sin_texto s = true) by (apply ge0_mask_sin_texto; eauto).
    congruence. }
  assert (e' = TypeError) as ->.
  { destruct s as [xs|bs|os]; simpl in He'; [done | done |].
    by apply (objs_ge0_error os). }
  unfold tratar_col, imputacion, estadistica in H. rewrite He' in H.
  repeat (destruct (decide _) in H; [by inversion H |]). done.
Qed.

Lemma tratar_col_texto (metodo : string) (valor_bajo : num) (s : column) :
  metodo = "mediana" ∨ metodo = "media" → sin_texto s = false →
  tratar_col metodo valor_bajo s = Raise TypeError.
Proof.
  intros Hm Hs. destruct (tratar_col metodo valor_bajo s) as [s'|e] eqn:E.
  - apply tratar_col_replace in E as (v & Hv & _).
    apply (imputacion_sin_texto _ _ _ _ Hm) in Hv. congruence.
  - by apply tratar_col_error in E as [-> _].
Qed.

Lemma bucle_log (g : column → result column) (r : nat) (l : list string) :
  ∀ t lg res t' lg',
    bucle g r l t lg = (res, t', lg') →
    ∃ evs, lg' = lg ++ evs ∧ Forall (λ e, ∃ c s, e = EvSet r c s) evs.
Proof.
  induction l as [|c l IH]; intros t lg res t' lg'; simpl.
  - intros [= _ _ <-]. exists []. by rewrite app_nil_r.
  - destruct (get_col c t) as [s|];
      [| intros [= _ _ <-]; exists []; by rewrite app_nil_r].
    destruct (g s) as [s'|e];
      [| intros [= _ _ <-]; exists []; by rewrite app_nil_r].
    intros H. apply IH in H as (evs & -> & F).
    exists (EvSet r c s' :: evs). split; [by rewrite <- app_assoc |].
    constructor; eauto.
Qed.

Lemma bucle_error (g : column → result column) (r : nat) (e : exn)
    (l : list string) :
  (∀ s e', g s = Raise e' → e' = e) →
  ∀ t lg,
    (∀ c, c ∈ l → c ∈ columnas t) →
    (∃ c s, c ∈ l ∧ get_col c t = Some s ∧ g s = Raise e) →
    ∃ t' lg', bucle g r l t lg = (Raise e, t', lg').
Proof.
  intros Hg. induction l as [|c0 l IH]; intros t lg Hl (c & s & Hc & Hs & He).
  - inversion Hc.
  - simpl.
    destruct (proj2 (get_col_Some_elem c0 t)) as [s0 Hs0]; [apply Hl; left |].
    rewrite Hs0. destruct (g s0) as [s0'|e'] eqn:G0.
    + apply IH.
      * intros x Hx. apply columnas_set. right. apply Hl. by right.
      * assert (c ≠ c0) as Hne by (intros ->; congruence).
        exists c, s. apply elem_of_cons in Hc as [Hc | Hc]; [done |].
        split; [done |]. split; [| done]. by rewrite get_set_ne.
    + apply Hg in G0 as ->. eauto.
Qed.

(** X14.  On a table whose names are distinct, with method "mediana" or
    "media", a selected column that holds -8 and a text cell stops the
    confidential resolver: it raises a type error, prints no report and
    leaves the tables of the store as they were; what it logged are
    assignments to the copy. *)
Theorem X14_texto (df : nat) (cols : option (list string)) (metodo : string)
    (valor_bajo : num) (st : state) (t : table) (c : string) (s : column) :
  heap st !! df = Some t →
  NoDup (columnas t) →
  metodo = "mediana" ∨ metodo = "media" →
  (∀ x, x ∈ default (numericas t) cols → x ∈ columnas t) →
  c ∈ default (numericas t) cols →
  get_col c t = Some s →
  any (eq_mask menos_8 s) = true →
  sin_texto s = false →
  ∃ t' evs,
    tratar_confidencial df cols metodo valor_bajo st
      = (Raise TypeError, State (heap st ++ [t']) (log st ++ evs)) ∧
    Forall (λ e, ∃ x s', e = EvSet (length (heap st)) x s') evs.
Proof.
  intros Hdf _ Hm Hsel Hc Hs H8 Ht.
  assert (metodo ∈ METODOS_CONF) as Hm'
    by (destruct Hm as [-> | ->]; por_calculo).
  rewrite (tratar_confidencial_run _ _ _ _ _ t Hdf Hm').
  unfold confidencial_tabla, resolver, con_nueva.
  rewrite (proj2 (primera_ausente_None _ _) Hsel).
  set (l := filter _ _).
  destruct (bucle_error (tratar_col metodo valor_bajo) (length (heap st))
              TypeError l) with (t := t) (lg := log st) as (t' & lg' & E).
  - intros s0 e' H. by apply tratar_col_error in H as [-> _].
  - intros x Hx. apply list_elem_of_filter in Hx as [_ Hx]. by apply Hsel.
  - exists c, s. split; [| split; [done | by apply tratar_col_texto]].
    apply list_elem_of_filter. split; [| done]. unfold tiene. by rewrite Hs.
  - rewrite E. simpl. apply bucle_log in E as (evs & -> & F). eauto.
Qed.

Lemma X14_texto_witness :
  ∃ t' evs,
    tratar_confidencial 0 (Some ["nombre"]) "mediana" valor_bajo_defecto
      (State [[("nombre", ObjCol [OStr "a"; ONum (Fin menos_8)])]] [])
      = (Raise TypeError,
         State ([[("nombre", ObjCol [OStr "a"; ONum (Fin menos_8)])]] ++ [t'])
               ([] ++ evs)) ∧
    Forall (λ e, ∃ x s', e = EvSet 1 x s') evs.
Proof.
  apply (X14_texto 0 (Some ["nombre"]) "mediana" valor_bajo_defecto
           (State [[("nombre", ObjCol [OStr "a"; ONum (Fin menos_8)])]] [])
           [("nombre", ObjCol [OStr "a"; ONum (Fin menos_8)])] "nombre"
           (ObjCol [OStr "a"; ONum (Fin menos_8)]) eq_refl).
  - apply NoDup_singleton.
  - by left.
  - intros x Hx. exact Hx.
  - por_calculo.
  - reflexivity.
  - por_calculo.
  - reflexivity.
Defined.

(** ** A second combined treatment, a second marking *)

(** On a table that holds no code in its numeric columns, a resolver
    under the default selection returns an equal table. *)
Lemma ejecutar_limpia (R : llamada) (df : nat) (st : state) (t : table) :
  heap st !! df = Some t →
  NoDup (columnas t) →
  limpia t →
  (∀ m, metodo_de R = Some m → m ∈ METODOS_CONF) →
  ∃ r st', ejecutar R df None st = (Ok r, st') ∧ heap st' !! r = Some t.
Proof.
  intros Hdf Hnd Hl Hm.
  destruct (ejecutar_total R df None st t Hdf Hm) as (r & st' & E).
  { intros c Hc. destruct (numericas_sin_texto t Hnd c Hc) as (s & Hs & Ht).
    eauto. }
  exists r, st'. split; [done |].
  destruct (ejecutar_resultado R df None st t r st' Hdf E)
    as (_ & t' & Ht' & Hc' & _ & Hcol).
  rewrite Ht'. f_equal. apply table_ext; [done | by rewrite Hc' |].
  intros c. destruct (get_col c t) as [s|] eqn:Es.
  - destruct (Hcol c s Es) as (s' & -> & Htr). f_equal. simpl in Htr.
    destruct (decide (c ∈ numericas t)) as [Hn|Hn].
    + apply (columna_tratada_sin_codigo R _ c s s' Htr).
      apply (numericas_elem c t Hnd) in Hn as [xs Hxs].
      rewrite Es in Hxs. injection Hxs as ->.
      destruct (Hl c (NumCol xs)) as [H6 H8];
        [by apply get_col_elem_of | done |].
      intros k Hk. destruct R; simpl in Hk;
        repeat (apply elem_of_cons in Hk as [-> | Hk]; [done |]);
        inversion Hk.
    + by apply (columna_tratada_fuera R _ c s s' Htr).
  - apply get_col_None_elem. rewrite Hc'. by apply get_col_None_elem.
Qed.

(** X15.  The combined treatment is idempotent under the default
    selection when it leaves no code behind: with a replacement other
    than -6 and a fixed low value that is not a code, treating the
    treated table again returns an equal table. *)
Theorem X15_censurados_idempotente (df : nat) (metodo : string)
    (valor_bajo reemplazo : num) (st : state) (t : table) (r : nat)
    (st' : state) :
  heap st !! df = Some t →
  NoDup (columnas t) →
  reemplazo ≠ Fin menos_6 →
  (metodo = "valor_bajo" →
   valor_bajo ≠ Fin menos_6 ∧ valor_bajo ≠ Fin menos_8) →
  tratar_censurados df None metodo valor_bajo reemplazo st = (Ok r, st') →
  ∃ r2 st2,
    tratar_censurados r None metodo valor_bajo reemplazo st' = (Ok r2, st2) ∧
    heap st2 !! r2 = heap st' !! r.
Proof.
  intros Hdf Hnd Hr Hvb Hrun.
  destruct (censurados_limpia _ _ _ _ _ _ _ _ Hdf Hnd Hr Hvb Hrun)
    as (t' & Ht' & Hc & _ & Hl).
  assert (metodo ∈ METODOS_CONF) as Hm.
  { rewrite (tratar_censurados_run _ _ _ _ _ _ t Hdf) in Hrun.
    destruct (no_aplica_tabla _ _ _ _ _) as [[[r1|e] t1] lg1]; [| done].
    by destruct (decide (metodo ∈ METODOS_CONF)). }
  destruct (ejecutar_limpia (Censurados metodo valor_bajo reemplazo) r st' t'
              Ht') as (r2 & st2 & E & H2);
    [by rewrite Hc | done | by intros m [= <-] |].
  exists r2, st2. split; [done | congruence].
Qed.

Lemma X15_censurados_idempotente_witness :
  ∃ r2 st2,
    tratar_censurados 2 None "media" valor_bajo_defecto reemplazo_defecto
      (tratar_censurados 0 None "media" valor_bajo_defecto reemplazo_defecto
         st_pop).2 = (Ok r2, st2) ∧
    heap st2 !! r2
      = heap (tratar_censurados 0 None "media" valor_bajo_defecto
                reemplazo_defecto st_pop).2 !! 2.
Proof.
  assert (tratar_censurados 0 None "media" valor_bajo_defecto
            reemplazo_defecto st_pop
          = (Ok 2, (tratar_censurados 0 None "media" valor_bajo_defecto
                      reemplazo_defecto st_pop).2)) as Hrun by por_calculo.
  apply (X15_censurados_idempotente 0 "media" valor_bajo_defecto
           reemplazo_defecto st_pop tabla_pop 2 _ eq_refl).
  - por_calculo.
  - discriminate.
  - discriminate.
  - exact Hrun.
Defined.

Lemma banderas_elem (sufijo_6 sufijo_8 : string) (t : table) (l : list string)
    (c : string) (s : column) :
  c ∈ l → get_col c t = Some s →
  (any (eq_mask menos_6 s) = true →
   (c +:+ sufijo_6, BoolCol (eq_mask menos_6 s)) ∈ banderas sufijo_6 sufijo_8 t l) ∧
  (any (eq_mask menos_8 s) = true →
   (c +:+ sufijo_8, BoolCol (eq_mask menos_8 s)) ∈ banderas sufijo_6 sufijo_8 t l).
Proof.
  intros Hc Hs. unfold banderas.
  induction l as [|c0 l IH]; [inversion Hc |]. simpl.
  apply elem_of_cons in Hc as [<- | Hc].
  - unfold banderas_de. rewrite Hs.
    split; intros ->; apply elem_of_app; left; apply elem_of_app.
    + left. by left.
    + right. by left.
  - destruct (IH Hc) as [H6 H8].
    split; intros H; apply elem_of_app; right; auto.
Qed.

(** Marking a marked table writes every flag again, over itself. *)
Lemma marcar_bucle_repetido (r : nat) (sufijo_6 sufijo_8 : string)
    (t tm : table) (l : list string) :
  (∀ c, c ∈ l →
     ∃ s, get_col c tm = Some s ∧
          (any (eq_mask menos_6 s) = true →
           get_col (c +:+ sufijo_6) tm = Some (BoolCol (eq_mask menos_6 s))) ∧
          (any (eq_mask menos_8 s) = true →
           get_col (c +:+ sufijo_8) tm = Some (BoolCol (eq_mask menos_8 s)))) →
  ∀ lg, ∃ n lg', marcar_bucle r sufijo_6 sufijo_8 l tm lg = (Ok n, tm, lg').
Proof.
  induction l as [|c l IH]; intros Hl lg; simpl; [by eauto |].
  destruct (Hl c) as (s & Hs & H6 & H8); [left |].
  assert (∃ n lg1, marcar_paso r sufijo_6 sufijo_8 c tm lg = (Ok n, tm, lg1))
    as (n & lg1 & ->).
  { unfold marcar_paso. rewrite Hs. simpl.
    destruct (any (eq_mask menos_6 s)) eqn:E6,
             (any (eq_mask menos_8 s)) eqn:E8.
    - rewrite (set_col_id _ _ _ (H6 eq_refl)), Hs.
      rewrite (set_col_id _ _ _ (H8 eq_refl)). eauto.
    - rewrite (set_col_id _ _ _ (H6 eq_refl)). eauto.
    - rewrite Hs, (set_col_id _ _ _ (H8 eq_refl)). eauto.
    - eauto. }
  destruct (IH (λ c' H, Hl c' (proj2 (elem_of_cons _ _ _) (or_intror H))) lg1)
    as (m & lg2 & ->).
  eauto.
Qed.

(** X16.  The marker is idempotent on a table whose names and flag names
    are all distinct: marking the marked table returns an equal table,
    since every flag is written again over itself. *)
Theorem X16_marcar_idempotente (df : nat) (cols : option (list string))
    (sufijo_6 sufijo_8 : string) (st : state) (t : table) :
  heap st !! df = Some t →
  (∀ c, c ∈ default (numericas t) cols → c ∈ columnas t) →
  NoDup (columnas t ++
         (banderas sufijo_6 sufijo_8 t (default (numericas t) cols)).*1) →
  ∃ r1 st1 r2 st2,
    marcar_censurados df cols sufijo_6 sufijo_8 st = (Ok r1, st1) ∧
    marcar_censurados r1 cols sufijo_6 sufijo_8 st1 = (Ok r2, st2) ∧
    heap st1 !! r1
      = Some (t ++ banderas sufijo_6 sufijo_8 t (default (numericas t) cols)) ∧
    heap st2 !! r2 = heap st1 !! r1.
Proof.
  intros Hdf Hsel Hnd.
  set (B := banderas sufijo_6 sufijo_8 t (default (numericas t) cols)) in *.
  destruct (marcar_fresco_run df cols sufijo_6 sufijo_8 st t Hdf Hsel Hnd)
    as [lg1 E1]. fold B in E1.
  set (st1 := State (heap st ++ [t ++ B]) lg1) in *.
  assert (heap st1 !! length (heap st) = Some (t ++ B)) as Hdf1
    by by apply list_lookup_middle.
  assert (default (numericas (t ++ B)) cols = default (numericas t) cols)
    as Hdef.
  { destruct cols as [l|]; [done |]. simpl. rewrite numericas_app.
    unfold B. by rewrite numericas_banderas, app_nil_r. }
  assert (NoDup (columnas (t ++ B))) as Hnd1 by by rewrite columnas_app.
  exists (length (heap st)), st1.
  rewrite (marcar_censurados_run _ _ _ _ _ (t ++ B) Hdf1).
  unfold marcar_tabla. rewrite Hdef.
  destruct (marcar_bucle_repetido (length (heap st1)) sufijo_6 sufijo_8 t
              (t ++ B) (default (numericas t) cols)) with (lg := log st1)
    as (n & lg2 & ->).
  - intros c Hc. destruct (proj2 (get_col_Some_elem c t) (Hsel c Hc)) as [s Hs].
    exists s. rewrite get_col_app_l by by apply Hsel.
    split; [done |].
    destruct (banderas_elem sufijo_6 sufijo_8 t _ c s Hc Hs) as [H6 H8].
    split; intros H; apply get_col_elem; try done;
      apply elem_of_app; right; auto.
  - unfold con_nueva. simpl. eexists _, _.
    split; [done |]. split; [done |]. split; [by apply list_lookup_middle |].
    rewrite (list_lookup_middle (heap st) [] (t ++ B) _ eq_refl).
    by apply list_lookup_middle.
Qed.

Lemma X16_marcar_idempotente_witness :
  ∃ r1 st1 r2 st2,
    marcar_censurados 0 None sufijo_6_defecto sufijo_8_defecto st_pop
      = (Ok r1, st1) ∧
    marcar_censurados r1 None sufijo_6_defecto sufijo_8_defecto st1
      = (Ok r2, st2) ∧
    heap st1 !! r1
      = Some (tabla_pop ++
              banderas sufijo_6_defecto sufijo_8_defecto tabla_pop
                (numericas tabla_pop)) ∧
    heap st2 !! r2 = heap st1 !! r1.
Proof.
  apply (X16_marcar_idempotente 0 None sufijo_6_defecto sufijo_8_defecto
           st_pop tabla_pop eq_refl).
  - intros c. apply numericas_columnas.
  - por_calculo.
Defined.
